(** * SUPRA AI voice assistant: the realtime audio session engine

    A shallow embedding of [src/App.tsx] (the [App] component: [stopSession],
    [startSession], the [onopen] / [onmessage] / [onerror] / [onclose]
    callbacks, the [onended] callback of a playback node, the volume poll and
    the rendered page: the main button, the props of the [Visualizer], the
    transcript pane and the error banner), of [src/components/Visualizer.tsx]
    (the intensity, the colours and the geometry of the orb) and of the types
    of [types.ts].

    Conventions of the embedding.
    - A JavaScript string is the list of its UTF-16 code units.
    - Times of the audio clock ([AudioContext.currentTime], [AudioBuffer.duration])
      are exact rationals; [Date.now()] is an integer number of milliseconds.
      The volumes and the numbers of the rendered page are exact rationals
      too: the rounding of floating-point arithmetic is not modelled.
    - The [useState] cells of the component form the record [AppState], the
      [useRef] cells the record [Refs]; the browser and SDK objects the
      component touches (playback nodes, script processors, media streams,
      remote sessions, the invocations of [startSession] that are suspended at
      an [await]) form the record [Env].
    - The state a setter sets is taken at the call: React is taken to render
      between two events, and the batching of renders is not modelled. Which
      updater functions React runs at the call and which it queues is
      modelled. React computes the new state at the call only while it has
      no work marked on the component, and then drops the update when the
      state comes out as it is; while work is marked, and always during a
      render, an updater is queued and runs at a later render, after the code
      that called the setter has gone on. [updatePending] of [Env] records
      that work is marked: an update that is queued marks it, and it stays
      marked until a render finds the state as it was; the event [Settled]
      of the environment stands for that render.
    - Every callback runs to completion before the next event is delivered;
      a callback that throws keeps the mutations it made before throwing.
    - What the component sends to the session (audio frames, the greeting)
      is not modelled.
    - [decode] and [decodeAudioData] of [utils/audioUtils] are parameters of
      the engine. *)

From Stdlib Require Import ZArith NArith QArith Qminmax Qabs Qround Lqa Lia List String.
From Stdlib.Strings Require Import Byte Ascii.
From stdpp Require Import gmap list.

Open Scope Q_scope.

(** ** JavaScript strings *)

Abbreviation jsstring := (list N).

(** The code units of a string of ASCII characters. *)
Fixpoint js (s : string) : jsstring :=
  match s with
  | EmptyString => []
  | String c s' => N_of_ascii c :: js s'
  end.

(** [WhiteSpace] and [LineTerminator] of ECMA-262: TAB, LF, VT, FF, CR, SP,
    NBSP, U+1680, U+2000..U+200A, LS, PS, U+202F, U+205F, U+3000, U+FEFF. *)
Definition is_white_space (c : N) : bool :=
  (existsb (N.eqb c) [9; 10; 11; 12; 13; 32; 160; 5760; 8232; 8233; 8239; 8287; 12288; 65279]
   || ((8192 <=? c) && (c <=? 8202)))%N.

Fixpoint trimStart (s : jsstring) : jsstring :=
  match s with
  | c :: s' => if is_white_space c then trimStart s' else s
  | [] => []
  end.

Definition trimEnd (s : jsstring) : jsstring := rev (trimStart (rev s)).

(** [String.prototype.trim] *)
Definition trim (s : jsstring) : jsstring := trimEnd (trimStart s).

(** A string is truthy when it is not empty. *)
Definition truthy (s : jsstring) : bool :=
  match s with [] => false | _ :: _ => true end.

(** [prev + x] where [x] may be [undefined]: the absent operand is
    converted to the string "undefined". *)
Definition concat_text (prev : jsstring) (x : option jsstring) : jsstring :=
  prev ++ default (js "undefined") x.

(** ** types.ts *)

Inductive AppStatus := IDLE | CONNECTING | ACTIVE | ERROR.

Inductive Role := user | model.

Record TranscriptionEntry := {
  role : Role;
  text : jsstring;
  timestamp : Z;
}.

(** ** Messages of the live session (the fields [onmessage] reads) *)

Record Part := {
  inlineData : option (option jsstring);   (* part.inlineData?.data *)
  groundingMetadata : bool;
}.

Record Transcription := { transcription_text : option jsstring }.

Record LiveServerContent := {
  modelTurn : option (option (list Part));   (* modelTurn?.parts *)
  outputTranscription : option Transcription;
  inputTranscription : option Transcription;
  turnComplete : bool;
  interrupted : bool;
}.

Record LiveServerMessage := { serverContent : option LiveServerContent }.

(** ** Web Audio objects *)

Inductive AudioContextState := suspended | running.

Record AudioContext := {
  ctx_state : AudioContextState;
  currentTime : Q;
}.

(** A mono [AudioBuffer]: its sample frames and its sample rate. *)
Record AudioBuffer := {
  channelData : list Q;
  sampleRate : positive;
}.

(** [AudioBuffer.duration]: the number of sample frames over the sample rate. *)
Definition duration (b : AudioBuffer) : Q :=
  Z.of_nat (length (channelData b)) # sampleRate b.

(** Life of an [AudioBufferSourceNode]: created, started at a time of the
    output clock, then halted either by [stop()] or by playing to its end. *)
Inductive playback := Created | Started (when : Q) | Stopped (when : Q) | Ended (when : Q).

Record AudioBufferSourceNode := {
  node_buffer : AudioBuffer;
  node_playback : playback;
}.

Record ScriptProcessorNode := {
  onaudioprocess : option nat;   (* the session the capture callback sends to *)
  sp_connected : bool;           (* connected to the destination *)
}.

(** ** The remote session (the SDK's [Session] over a web socket) *)

Inductive Connection :=
| Connecting                 (* connect() called, socket not open yet *)
| Open                       (* live *)
| Closing                    (* close() called here, close event not delivered yet *)
| Closed.

Record Session := {
  connection : Connection;
  opened : bool;                 (* the socket has opened at some point *)
  session_processor : nat;       (* the scriptProcessor of the call that connected *)
}.

(** An invocation of the async function [startSession], by the [await] it is
    suspended at. *)
Inductive StartCall :=
| AwaitResume                  (* await Promise.all([resume(), resume()]) *)
| AwaitUserMedia               (* await getUserMedia({audio: true}) *)
| AwaitSession (c : nat)       (* await sessionPromise *)
| Returned
| Caught.

(** ** State *)

Record AppState := {
  status : AppStatus;
  transcriptions : list TranscriptionEntry;
  liveUserText : jsstring;
  liveModelText : jsstring;
  userVolume : Q;
  modelVolume : Q;
  errorMessage : option string;
}.

Record Refs := {
  inputAudioContextRef : option AudioContext;
  outputAudioContextRef : option AudioContext;
  outputNodeRef : bool;
  sourcesRef : gset nat;
  analyzerRef : bool;
  modelAnalyzerRef : bool;
  sessionRef : option nat;
  nextStartTimeRef : Q;
  scriptProcessorRef : option nat;
}.

Record Env := {
  nodes : list AudioBufferSourceNode;
  processors : list ScriptProcessorNode;
  sessions : list Session;
  streams : nat;                 (* media streams obtained and not stopped *)
  calls : list StartCall;
  dateNow : Z;
  updatePending : bool;          (* React: work is marked on the component *)
}.

Record World := {
  app : AppState;
  refs : Refs;
  env : Env;
}.

(** *** Field updates *)

Definition set_status v (a : AppState) : AppState :=
  {| status := v; transcriptions := transcriptions a; liveUserText := liveUserText a;
     liveModelText := liveModelText a; userVolume := userVolume a;
     modelVolume := modelVolume a; errorMessage := errorMessage a |}.
Definition set_transcriptions v (a : AppState) : AppState :=
  {| status := status a; transcriptions := v; liveUserText := liveUserText a;
     liveModelText := liveModelText a; userVolume := userVolume a;
     modelVolume := modelVolume a; errorMessage := errorMessage a |}.
Definition set_liveUserText v (a : AppState) : AppState :=
  {| status := status a; transcriptions := transcriptions a; liveUserText := v;
     liveModelText := liveModelText a; userVolume := userVolume a;
     modelVolume := modelVolume a; errorMessage := errorMessage a |}.
Definition set_liveModelText v (a : AppState) : AppState :=
  {| status := status a; transcriptions := transcriptions a; liveUserText := liveUserText a;
     liveModelText := v; userVolume := userVolume a;
     modelVolume := modelVolume a; errorMessage := errorMessage a |}.
Definition set_userVolume v (a : AppState) : AppState :=
  {| status := status a; transcriptions := transcriptions a; liveUserText := liveUserText a;
     liveModelText := liveModelText a; userVolume := v;
     modelVolume := modelVolume a; errorMessage := errorMessage a |}.
Definition set_modelVolume v (a : AppState) : AppState :=
  {| status := status a; transcriptions := transcriptions a; liveUserText := liveUserText a;
     liveModelText := liveModelText a; userVolume := userVolume a;
     modelVolume := v; errorMessage := errorMessage a |}.
Definition set_errorMessage v (a : AppState) : AppState :=
  {| status := status a; transcriptions := transcriptions a; liveUserText := liveUserText a;
     liveModelText := liveModelText a; userVolume := userVolume a;
     modelVolume := modelVolume a; errorMessage := v |}.

Definition set_inputAudioContextRef v (r : Refs) : Refs :=
  {| inputAudioContextRef := v; outputAudioContextRef := outputAudioContextRef r;
     outputNodeRef := outputNodeRef r; sourcesRef := sourcesRef r;
     analyzerRef := analyzerRef r; modelAnalyzerRef := modelAnalyzerRef r;
     sessionRef := sessionRef r; nextStartTimeRef := nextStartTimeRef r;
     scriptProcessorRef := scriptProcessorRef r |}.
Definition set_outputAudioContextRef v (r : Refs) : Refs :=
  {| inputAudioContextRef := inputAudioContextRef r; outputAudioContextRef := v;
     outputNodeRef := outputNodeRef r; sourcesRef := sourcesRef r;
     analyzerRef := analyzerRef r; modelAnalyzerRef := modelAnalyzerRef r;
     sessionRef := sessionRef r; nextStartTimeRef := nextStartTimeRef r;
     scriptProcessorRef := scriptProcessorRef r |}.
Definition set_outputNodeRef v (r : Refs) : Refs :=
  {| inputAudioContextRef := inputAudioContextRef r;
     outputAudioContextRef := outputAudioContextRef r;
     outputNodeRef := v; sourcesRef := sourcesRef r;
     analyzerRef := analyzerRef r; modelAnalyzerRef := modelAnalyzerRef r;
     sessionRef := sessionRef r; nextStartTimeRef := nextStartTimeRef r;
     scriptProcessorRef := scriptProcessorRef r |}.
Definition set_sourcesRef v (r : Refs) : Refs :=
  {| inputAudioContextRef := inputAudioContextRef r;
     outputAudioContextRef := outputAudioContextRef r;
     outputNodeRef := outputNodeRef r; sourcesRef := v;
     analyzerRef := analyzerRef r; modelAnalyzerRef := modelAnalyzerRef r;
     sessionRef := sessionRef r; nextStartTimeRef := nextStartTimeRef r;
     scriptProcessorRef := scriptProcessorRef r |}.
Definition set_analyzerRef v (r : Refs) : Refs :=
  {| inputAudioContextRef := inputAudioContextRef r;
     outputAudioContextRef := outputAudioContextRef r;
     outputNodeRef := outputNodeRef r; sourcesRef := sourcesRef r;
     analyzerRef := v; modelAnalyzerRef := modelAnalyzerRef r;
     sessionRef := sessionRef r; nextStartTimeRef := nextStartTimeRef r;
     scriptProcessorRef := scriptProcessorRef r |}.
Definition set_modelAnalyzerRef v (r : Refs) : Refs :=
  {| inputAudioContextRef := inputAudioContextRef r;
     outputAudioContextRef := outputAudioContextRef r;
     outputNodeRef := outputNodeRef r; sourcesRef := sourcesRef r;
     analyzerRef := analyzerRef r; modelAnalyzerRef := v;
     sessionRef := sessionRef r; nextStartTimeRef := nextStartTimeRef r;
     scriptProcessorRef := scriptProcessorRef r |}.
Definition set_sessionRef v (r : Refs) : Refs :=
  {| inputAudioContextRef := inputAudioContextRef r;
     outputAudioContextRef := outputAudioContextRef r;
     outputNodeRef := outputNodeRef r; sourcesRef := sourcesRef r;
     analyzerRef := analyzerRef r; modelAnalyzerRef := modelAnalyzerRef r;
     sessionRef := v; nextStartTimeRef := nextStartTimeRef r;
     scriptProcessorRef := scriptProcessorRef r |}.
Definition set_nextStartTimeRef v (r : Refs) : Refs :=
  {| inputAudioContextRef := inputAudioContextRef r;
     outputAudioContextRef := outputAudioContextRef r;
     outputNodeRef := outputNodeRef r; sourcesRef := sourcesRef r;
     analyzerRef := analyzerRef r; modelAnalyzerRef := modelAnalyzerRef r;
     sessionRef := sessionRef r; nextStartTimeRef := v;
     scriptProcessorRef := scriptProcessorRef r |}.
Definition set_scriptProcessorRef v (r : Refs) : Refs :=
  {| inputAudioContextRef := inputAudioContextRef r;
     outputAudioContextRef := outputAudioContextRef r;
     outputNodeRef := outputNodeRef r; sourcesRef := sourcesRef r;
     analyzerRef := analyzerRef r; modelAnalyzerRef := modelAnalyzerRef r;
     sessionRef := sessionRef r; nextStartTimeRef := nextStartTimeRef r;
     scriptProcessorRef := v |}.

Definition set_nodes v (e : Env) : Env :=
  {| nodes := v; processors := processors e; sessions := sessions e;
     streams := streams e; calls := calls e; dateNow := dateNow e;
     updatePending := updatePending e |}.
Definition set_processors v (e : Env) : Env :=
  {| nodes := nodes e; processors := v; sessions := sessions e;
     streams := streams e; calls := calls e; dateNow := dateNow e;
     updatePending := updatePending e |}.
Definition set_sessions v (e : Env) : Env :=
  {| nodes := nodes e; processors := processors e; sessions := v;
     streams := streams e; calls := calls e; dateNow := dateNow e;
     updatePending := updatePending e |}.
Definition set_streams v (e : Env) : Env :=
  {| nodes := nodes e; processors := processors e; sessions := sessions e;
     streams := v; calls := calls e; dateNow := dateNow e;
     updatePending := updatePending e |}.
Definition set_calls v (e : Env) : Env :=
  {| nodes := nodes e; processors := processors e; sessions := sessions e;
     streams := streams e; calls := v; dateNow := dateNow e;
     updatePending := updatePending e |}.
Definition set_dateNow v (e : Env) : Env :=
  {| nodes := nodes e; processors := processors e; sessions := sessions e;
     streams := streams e; calls := calls e; dateNow := v;
     updatePending := updatePending e |}.

Definition set_updatePending v (e : Env) : Env :=
  {| nodes := nodes e; processors := processors e; sessions := sessions e;
     streams := streams e; calls := calls e; dateNow := dateNow e;
     updatePending := v |}.

Definition with_app (f : AppState -> AppState) (w : World) : World :=
  {| app := f (app w); refs := refs w; env := env w |}.
Definition with_refs (f : Refs -> Refs) (w : World) : World :=
  {| app := app w; refs := f (refs w); env := env w |}.
Definition with_env (f : Env -> Env) (w : World) : World :=
  {| app := app w; refs := refs w; env := f (env w) |}.

(** ** Callbacks as effectful computations

    A computation runs on the world and either completes with a value or
    throws; the world it leaves behind holds the mutations made so far. *)

Inductive Exception := InvalidStateError | CodecError.

Inductive Completion (A : Type) :=
| Normal (a : A)
| Throw (e : Exception).
Arguments Normal {A} a.
Arguments Throw {A} e.

Definition Eff (A : Type) : Type := World -> Completion A * World.

#[global] Instance Eff_ret : MRet Eff := fun A a w => (Normal a, w).
#[global] Instance Eff_bind : MBind Eff := fun A B f m w =>
  match m w with
  | (Normal a, w') => f a w'
  | (Throw e, w') => (Throw e, w')
  end.

Definition get : Eff World := fun w => (Normal w, w).
Definition modify (f : World -> World) : Eff unit := fun w => (Normal tt, f w).
Definition lift {A} (c : Completion A) : Eff A := fun w => (c, w).

(** [try { m } catch (e) {}] *)
Definition try_ (m : Eff unit) : Eff unit := fun w =>
  match m w with
  | (Normal _, w') => (Normal tt, w')
  | (Throw _, w') => (Normal tt, w')
  end.

Definition when_ (b : bool) (m : Eff unit) : Eff unit :=
  if b then m else mret tt.

(** [for (const x of l) body(x)] *)
Fixpoint for_of {A} (l : list A) (body : A -> Eff unit) : Eff unit :=
  match l with
  | [] => mret tt
  | x :: l' => body x ;; for_of l' body
  end.

(** [set.forEach(body)]; the calls of the bodies used here commute, so the
    order in which the elements are visited is immaterial. *)
Definition forEach (s : gset nat) (body : nat -> Eff unit) : Eff unit :=
  for_of (elements s) body.

(** The state a computation leaves behind. *)
Definition exec {A} (m : Eff A) (w : World) : World := snd (m w).

(** *** React state setters

    [Object.is] on the values the component keeps in its state. *)
Definition AppStatus_eqb (s t : AppStatus) : bool :=
  match s, t with
  | IDLE, IDLE | CONNECTING, CONNECTING | ACTIVE, ACTIVE | ERROR, ERROR => true
  | _, _ => false
  end.

Fixpoint jsstring_eqb (s t : jsstring) : bool :=
  match s, t with
  | [], [] => true
  | c :: s', d :: t' => N.eqb c d && jsstring_eqb s' t'
  | _, _ => false
  end.

Definition message_eqb (s t : option string) : bool :=
  match s, t with
  | None, None => true
  | Some x, Some y => String.eqb x y
  | _, _ => false
  end.

(** What a call of a setter leaves marked. With no work marked the new
    state has been computed at the call, and the update is queued unless the
    state is unchanged; with work marked it is queued whatever it is. *)
Definition queue (changed : bool) : Eff unit :=
  modify (with_env (fun e => set_updatePending (updatePending e || changed) e)).

Definition setStatus v : Eff unit :=
  w ← get;
  modify (with_app (set_status v)) ;;
  queue (negb (AppStatus_eqb (status (app w)) v)).

(** An array an updater returns is a new object, never the state as it is. *)
Definition setTranscriptions (f : list TranscriptionEntry -> Eff (list TranscriptionEntry)) : Eff unit :=
  w ← get;
  next ← f (transcriptions (app w));
  modify (with_app (set_transcriptions next)) ;;
  queue true.

Definition setLiveUserText (f : jsstring -> Eff jsstring) : Eff unit :=
  w ← get;
  next ← f (liveUserText (app w));
  modify (with_app (set_liveUserText next)) ;;
  queue (negb (jsstring_eqb (liveUserText (app w)) next)).

Definition setLiveModelText (f : jsstring -> Eff jsstring) : Eff unit :=
  w ← get;
  next ← f (liveModelText (app w));
  modify (with_app (set_liveModelText next)) ;;
  queue (negb (jsstring_eqb (liveModelText (app w)) next)).

Definition setUserVolume v : Eff unit :=
  w ← get;
  modify (with_app (set_userVolume v)) ;;
  queue (negb (Qeq_bool (userVolume (app w)) v)).

Definition setModelVolume v : Eff unit :=
  w ← get;
  modify (with_app (set_modelVolume v)) ;;
  queue (negb (Qeq_bool (modelVolume (app w)) v)).

Definition setErrorMessage v : Eff unit :=
  w ← get;
  modify (with_app (set_errorMessage v)) ;;
  queue (negb (message_eqb (errorMessage (app w)) v)).

(** ** The PCM frame codec *)

Module Codec.

(** Modelled from the spec: [utils/audioUtils] is missing; rounding of a
    scaled sample, towards zero. *)
Definition Qtruncate (x : Q) : Z :=
  if Qle_bool 0 x then Qfloor x else Qceiling x.

(** Modelled from the spec: [utils/audioUtils] is missing; the clamping of
    section 4.1. *)
Definition clamp (lo hi v : Z) : Z := Z.max lo (Z.min hi v).

(** Modelled from the spec: the encoder of [utils/audioUtils] is missing;
    section 4.1 has each sample scaled to the signed 16-bit range and
    clamped. The scale is 2^15 and the fraction is dropped. *)
Definition to_int16 (x : Q) : Z :=
  clamp (-32768) 32767 (Qtruncate (x * 32768)).

(** Modelled from the spec: [utils/audioUtils] is missing; the low eight
    bits of an integer as a byte, and back. *)
Definition byte_of_Z (v : Z) : byte :=
  default x00 (Byte.of_N (Z.to_N (v mod 256))).

Definition Z_of_byte (b : byte) : Z := Z.of_N (Byte.to_N b).

(** Modelled from the spec: the byte layout of [utils/audioUtils] is missing;
    section 4.1 has 16-bit little-endian samples, here in two's complement. *)
Definition int16_bytes (v : Z) : list byte :=
  [byte_of_Z (v mod 65536); byte_of_Z ((v mod 65536) / 256)].

Definition int16_of_bytes (lo hi : byte) : Z :=
  let u := (Z_of_byte lo + 256 * Z_of_byte hi)%Z in
  if (u <? 32768)%Z then u else (u - 65536)%Z.

(** Modelled from the spec: [encode] of section 4.1, the payload of the
    frame built from a sequence of samples ([createBlob] of
    [utils/audioUtils] is missing). *)
Definition encode (samples : list Q) : list byte :=
  flat_map (fun x => int16_bytes (to_int16 x)) samples.

(** Modelled from the spec: [utils/audioUtils] is missing; consecutive pairs
    of bytes as 16-bit samples, nothing for a payload of odd length. *)
Fixpoint int16_samples (payload : list byte) : option (list Z) :=
  match payload with
  | [] => Some []
  | [_] => None
  | lo :: hi :: rest => cons (int16_of_bytes lo hi) <$> int16_samples rest
  end.

(** Modelled from the spec: [decode] of section 4.1 ([decodeAudioData] of
    [utils/audioUtils] is missing): the playable mono buffer, at the target
    sample rate, of the samples of a byte payload normalised back to
    [-1, 1); it fails with [CodecError] on an empty payload and on one of odd
    length. *)
Definition decodeAudioData (payload : list byte) (rate numChannels : positive)
  : Completion AudioBuffer :=
  match payload with
  | [] => Throw CodecError
  | _ =>
      match int16_samples payload with
      | Some vs =>
          Normal {| channelData := map (fun v => inject_Z v / 32768) vs; sampleRate := rate |}
      | None => Throw CodecError
      end
  end.

End Codec.

(** ** Primitives of the browser and of the SDK *)

(** [Date.now()] *)
Definition Date_now : Eff Z := fun w => (Normal (dateNow (env w)), w).

(** [arr.slice(-n)]: the last [n] elements, all of them when there are fewer. *)
Definition slice_last {A} (n : nat) (l : list A) : list A :=
  drop (length l - n) l.

(** [AudioScheduledSourceNode.stop()]: an error on a node that was never
    started, a halt on a playing one, nothing on a halted one. *)
Definition node_stop (n : AudioBufferSourceNode) : Completion AudioBufferSourceNode :=
  match node_playback n with
  | Created => Throw InvalidStateError
  | Started t => Normal {| node_buffer := node_buffer n; node_playback := Stopped t |}
  | Stopped _ | Ended _ => Normal n
  end.

(** [AudioScheduledSourceNode.start(when)]: an error on a node already started. *)
Definition node_start (t : Q) (n : AudioBufferSourceNode) : Completion AudioBufferSourceNode :=
  match node_playback n with
  | Created => Normal {| node_buffer := node_buffer n; node_playback := Started t |}
  | _ => Throw InvalidStateError
  end.

(** A method call on the node behind a reference. *)
Definition on_node (i : nat) (method : AudioBufferSourceNode -> Completion AudioBufferSourceNode)
  : Eff unit := fun w =>
  match nodes (env w) !! i with
  | Some n =>
      match method n with
      | Normal n' => (Normal tt, with_env (set_nodes (<[i := n']> (nodes (env w)))) w)
      | Throw e => (Throw e, w)
      end
  | None => (Normal tt, w)
  end.

(** [ctx.createBufferSource()] followed by [sourceNode.buffer = audioBuffer]:
    returns the reference of the new node. *)
Definition createBufferSource (b : AudioBuffer) : Eff nat := fun w =>
  (Normal (length (nodes (env w))),
   with_env (set_nodes (nodes (env w) ++ [{| node_buffer := b; node_playback := Created |}])) w).

(** [Session.close()]: closes the web socket; nothing on one that is closing
    or closed. *)
Definition close_connection (s : Session) : Session :=
  match connection s with
  | Connecting | Open =>
      {| connection := Closing; opened := opened s; session_processor := session_processor s |}
  | Closing | Closed => s
  end.

Definition session_close (c : nat) : Eff unit :=
  modify (with_env (fun e => set_sessions (alter close_connection c (sessions e)) e)).

(** [AudioNode.disconnect()] *)
Definition disconnect (p : ScriptProcessorNode) : ScriptProcessorNode :=
  {| onaudioprocess := onaudioprocess p; sp_connected := false |}.

Definition processor_disconnect (p : nat) : Eff unit :=
  modify (with_env (fun e => set_processors (alter disconnect p (processors e)) e)).

(** ** App.tsx *)

(** [stopSession], lines 35-53. *)
Definition stopSession : Eff unit :=
  w ← get;
  match sessionRef (refs w) with
  | Some c => session_close c ;; modify (with_refs (set_sessionRef None))
  | None => mret tt
  end ;;
  w ← get;
  match scriptProcessorRef (refs w) with
  | Some p => processor_disconnect p ;; modify (with_refs (set_scriptProcessorRef None))
  | None => mret tt
  end ;;
  w ← get;
  forEach (sourcesRef (refs w)) (fun source => try_ (on_node source node_stop)) ;;
  modify (with_refs (set_sourcesRef ∅)) ;;
  setStatus IDLE ;;
  setUserVolume 0 ;;
  setModelVolume 0 ;;
  setLiveUserText (fun _ => mret []) ;;
  setLiveModelText (fun _ => mret []) ;;
  modify (with_refs (set_nextStartTimeRef 0)).

(** The [onended] callback installed on a playback node, line 136. *)
Definition onended (sourceNode : nat) : Eff unit :=
  modify (with_refs (fun r => set_sourcesRef (sourcesRef r ∖ {[sourceNode]}) r)).

(** [message.serverContent?.field] for a field that holds an object, and its
    truth value for a field that holds a boolean. *)
Definition content_field {A} (field : LiveServerContent -> option A)
  (message : LiveServerMessage) : option A :=
  match serverContent message with
  | Some sc => field sc
  | None => None
  end.

Definition content_flag (field : LiveServerContent -> bool)
  (message : LiveServerMessage) : bool :=
  match serverContent message with
  | Some sc => field sc
  | None => false
  end.

Section Engine.

(** [decode] (base64 to bytes) and [decodeAudioData] (bytes, sample rate and
    channel count to an audio buffer) of [utils/audioUtils]; either may throw. *)
Variable decode : jsstring -> Completion (list byte).
Variable decodeAudioData : list byte -> positive -> positive -> Completion AudioBuffer.

(** Body of the loop over the parts of a model turn, lines 125-142: the
    [enqueue] of the playback scheduler. *)
Definition enqueue (part : Part) : Eff unit :=
  w ← get;
  match inlineData part, outputAudioContextRef (refs w), outputNodeRef (refs w) with
  | Some (Some base64Audio), Some ctx, true =>
      if truthy base64Audio then
        (* if (ctx.state === 'suspended') await ctx.resume() *)
        let ctx := match ctx_state ctx with
                   | suspended => {| ctx_state := running; currentTime := currentTime ctx |}
                   | running => ctx
                   end in
        modify (with_refs (set_outputAudioContextRef (Some ctx))) ;;
        bytes ← lift (decode base64Audio);
        audioBuffer ← lift (decodeAudioData bytes 24000 1);
        sourceNode ← createBufferSource audioBuffer;
        w ← get;
        let scheduleTime := Qmax (nextStartTimeRef (refs w)) (currentTime ctx) in
        on_node sourceNode (node_start scheduleTime) ;;
        modify (with_refs (set_nextStartTimeRef (scheduleTime + duration audioBuffer))) ;;
        modify (with_refs (fun r => set_sourcesRef ({[sourceNode]} ∪ sourcesRef r) r))
      else mret tt
  | _, _, _ => mret tt
  end.

(** Lines 146-150: the [appendPartial] of the transcript aggregator. *)
Definition appendPartial (message : LiveServerMessage) : Eff unit :=
  match content_field outputTranscription message with
  | Some t => setLiveModelText (fun prev => mret (concat_text prev (transcription_text t)))
  | None =>
      match content_field inputTranscription message with
      | Some t => setLiveUserText (fun prev => mret (concat_text prev (transcription_text t)))
      | None => mret tt
      end
  end.

(** The body of the two inner updaters of lines 155-162: an entry is pushed
    for text that is not blank. The array [newEntries] of the outer updater
    is passed in, and the array after the push is returned. *)
Definition finalize (r : Role) (newEntries : list TranscriptionEntry) (current : jsstring)
  : Eff (list TranscriptionEntry) :=
  if truthy (trim current) then
    now ← Date_now;
    mret (newEntries ++ [{| role := r; text := current; timestamp := now |}])
  else mret newEntries.

(** Lines 152-165: the [finalizeTurn] of the transcript aggregator. The two
    inner setters are called with updaters that push to [newEntries]. React
    runs such an updater at the call only when no work is marked on the
    component; in every other case it is queued, and pushes at a render,
    after line 163 has read [newEntries]: the push is then not in the array
    that line 163 spreads. A text that is set to [''] while it is not ['']
    marks work, so that the second inner updater is run at the call only
    when the first was and found the user text empty. When the outer
    updater is itself queued, it runs during a render and both inner ones
    are queued. *)
Definition finalizeTurn : Eff unit :=
  setTranscriptions (fun prev =>
    let newEntries := [] in
    w ← get;
    pushed ← finalize user newEntries (liveUserText (app w));
    let newEntries := if updatePending (env w) then newEntries else pushed in
    setLiveUserText (fun _ => mret []) ;;
    w ← get;
    pushed ← finalize model newEntries (liveModelText (app w));
    let newEntries := if updatePending (env w) then newEntries else pushed in
    setLiveModelText (fun _ => mret []) ;;
    mret (slice_last 15 (prev ++ newEntries))).

(** [x || 0] on a number. *)
Definition or_zero (x : option Q) : Q :=
  match x with
  | Some t => if Qeq_bool t 0 then 0 else t
  | None => 0
  end.

(** Lines 167-171: the [interrupt] of the playback scheduler. *)
Definition interrupt : Eff unit :=
  w ← get;
  forEach (sourcesRef (refs w)) (fun s => try_ (on_node s node_stop)) ;;
  modify (with_refs (set_sourcesRef ∅)) ;;
  w ← get;
  modify (with_refs (set_nextStartTimeRef
    (or_zero (currentTime <$> outputAudioContextRef (refs w))))).

(** [onmessage], lines 115-172. The grounding metadata is only logged. *)
Definition onmessage (message : LiveServerMessage) : Eff unit :=
  match content_field modelTurn message with
  | Some (Some modelTurnParts) => for_of modelTurnParts enqueue
  | _ => mret tt
  end ;;
  appendPartial message ;;
  when_ (content_flag turnComplete message) finalizeTurn ;;
  when_ (content_flag interrupted message) interrupt.

(** [onerror], lines 173-177. *)
Definition onerror : Eff unit :=
  setErrorMessage (Some "SUPRA neural link disrupted."%string) ;;
  stopSession.

(** [onclose], line 178. *)
Definition onclose : Eff unit := stopSession.

(** [new AudioContext({sampleRate})]: a fresh context, its clock at zero. *)
Definition new_AudioContext : AudioContext :=
  {| ctx_state := suspended; currentTime := 0 |}.

(** [ctx.resume()] once it has resolved. *)
Definition resumed (ctx : AudioContext) : AudioContext :=
  {| ctx_state := running; currentTime := currentTime ctx |}.

Definition set_call (f : nat) (c : StartCall) : Eff unit :=
  modify (with_env (fun e => set_calls (<[f := c]> (calls e)) e)).

(** The [catch] block of [startSession], lines 204-208. *)
Definition startSession_catch (f : nat) : Eff unit :=
  setErrorMessage (Some "SUPRA requires microphone access to initialize."%string) ;;
  setStatus ERROR ;;
  set_call f Caught.

(** [startSession] up to its first [await], lines 55-77. *)
Definition startSession : Eff unit :=
  setStatus CONNECTING ;;
  setErrorMessage None ;;
  w ← get;
  when_ (bool_decide (inputAudioContextRef (refs w) = None))
    (modify (with_refs (set_inputAudioContextRef (Some new_AudioContext)))) ;;
  w ← get;
  when_ (bool_decide (outputAudioContextRef (refs w) = None))
    (modify (with_refs (set_outputAudioContextRef (Some new_AudioContext))) ;;
     modify (with_refs (set_outputNodeRef true)) ;;
     modify (with_refs (set_modelAnalyzerRef true))) ;;
  modify (with_env (fun e => set_calls (calls e ++ [AwaitResume]) e)).

(** Call [f] of [startSession] once both [resume()] promises have settled:
    line 79 requests the microphone. *)
Definition startSession_resumed (f : nat) (ok : bool) : Eff unit :=
  if ok then
    modify (with_refs (fun r =>
      set_inputAudioContextRef (resumed <$> inputAudioContextRef r)
        (set_outputAudioContextRef (resumed <$> outputAudioContextRef r) r))) ;;
    set_call f AwaitUserMedia
  else startSession_catch f.

(** Call [f] once [getUserMedia] has settled, lines 79-202: the capture graph
    is built and [ai.live.connect] is called. *)
Definition startSession_stream (f : nat) (granted : bool) : Eff unit :=
  if granted then
    modify (with_env (fun e => set_streams (S (streams e)) e)) ;;
    modify (with_refs (set_analyzerRef true)) ;;
    w ← get;
    let scriptProcessor := length (processors (env w)) in
    modify (with_env (fun e => set_processors
      (processors e ++ [{| onaudioprocess := None; sp_connected := false |}]) e)) ;;
    modify (with_refs (set_scriptProcessorRef (Some scriptProcessor))) ;;
    let session := length (sessions (env w)) in
    modify (with_env (fun e => set_sessions
      (sessions e ++ [{| connection := Connecting; opened := false;
                         session_processor := scriptProcessor |}]) e)) ;;
    set_call f (AwaitSession session)
  else startSession_catch f.

(** Call [f] once [sessionPromise] has resolved, line 202. *)
Definition startSession_connected (f : nat) (session : nat) : Eff unit :=
  modify (with_refs (set_sessionRef (Some session))) ;;
  set_call f Returned.

(** [onopen] of session [c], lines 94-114: the capture callback of the
    script processor of that call is installed and the processor connected. *)
Definition onopen (c : nat) : Eff unit :=
  setStatus ACTIVE ;;
  w ← get;
  match sessions (env w) !! c with
  | Some s =>
      modify (with_env (fun e => set_processors
        (alter (fun _ => {| onaudioprocess := Some c; sp_connected := true |})
           (session_processor s) (processors e)) e))
  | None => mret tt
  end.

(** The volume poll, lines 213-227, with the two averages read off the
    analysers. *)
Definition poll (avg_in avg_out : Q) : Eff unit :=
  w ← get;
  when_ (analyzerRef (refs w)) (setUserVolume (avg_in / 128)) ;;
  when_ (modelAnalyzerRef (refs w)) (setModelVolume (avg_out / 128)).

(** The main button as rendered, lines 344-375. *)
Inductive Button :=
| TerminateLink                      (* onClick = stopSession *)
| BootEngine (disabled : bool).      (* onClick = startSession *)

Definition render_button (s : AppStatus) : Button :=
  match s with
  | ACTIVE => TerminateLink
  | CONNECTING => BootEngine true
  | IDLE | ERROR => BootEngine false
  end.

Definition click (b : Button) : Eff unit :=
  match b with
  | TerminateLink => stopSession
  | BootEngine true => mret tt
  | BootEngine false => startSession
  end.

(** ** Events

    What the browser and the SDK deliver to the component. An event that is
    not enabled in the current world (a promise that is not pending, a socket
    that is not in the right state) changes nothing. [Settled] is an event
    of React: a render has found the state as it was, which happens for one
    after the poll has set volumes that did not change, and no work is marked
    on the component any more. *)

Inductive Event :=
| Click                                      (* the user clicks the main button *)
| ContextsResumed (f : nat) (ok : bool)      (* the resume() promises of call f settle *)
| UserMedia (f : nat) (granted : bool)       (* getUserMedia of call f settles *)
| SocketOpened (c : nat)                     (* the socket of session c opens: onopen *)
| SessionResolved (f : nat)                  (* sessionPromise of call f resolves *)
| SessionRejected (f : nat)                  (* sessionPromise of call f rejects *)
| Message (c : nat) (m : LiveServerMessage)  (* onmessage of session c *)
| SocketError (c : nat)                      (* onerror of session c *)
| SocketClosed (c : nat)                     (* onclose of session c *)
| SourceEnded (n : nat)                      (* the ended event of playback node n *)
| AnimationFrame (avg_in avg_out : Q)        (* requestAnimationFrame: the poll *)
| AudioClock (t : Q)                         (* the output clock reaches t *)
| ContextSuspended                           (* the browser suspends the output context *)
| WallClock (ms : Z)                         (* the wall clock reads ms *)
| Settled.                                   (* React: no work is marked any more *)

(** The socket of a session put in a state, as an event of the socket does. *)
Definition mark (k : Connection) (o : bool) (s : Session) : Session :=
  {| connection := k; opened := o || opened s; session_processor := session_processor s |}.

Definition set_connection (k : Connection) (o : bool) (c : nat) : Eff unit :=
  modify (with_env (fun e => set_sessions (alter (mark k o) c (sessions e)) e)).

(** A node that plays to its end. *)
Definition end_node (n : AudioBufferSourceNode) : AudioBufferSourceNode :=
  match node_playback n with
  | Started t => {| node_buffer := node_buffer n; node_playback := Ended t |}
  | _ => n
  end.

(** The callback an event runs, after what the event itself does to the
    socket, the node or the clock it is about. A close event is delivered
    for a socket the component has closed as well as for one the peer
    closed. *)
Definition deliver (ev : Event) : Eff unit :=
  w ← get;
  match ev with
  | Click => click (render_button (status (app w)))
  | ContextsResumed f ok =>
      match calls (env w) !! f with
      | Some AwaitResume => startSession_resumed f ok
      | _ => mret tt
      end
  | UserMedia f granted =>
      match calls (env w) !! f with
      | Some AwaitUserMedia => startSession_stream f granted
      | _ => mret tt
      end
  | SocketOpened c =>
      match connection <$> sessions (env w) !! c with
      | Some Connecting => set_connection Open true c ;; onopen c
      | _ => mret tt
      end
  | SessionResolved f =>
      match calls (env w) !! f with
      | Some (AwaitSession c) =>
          match opened <$> sessions (env w) !! c with
          | Some true => startSession_connected f c
          | _ => mret tt
          end
      | _ => mret tt
      end
  | SessionRejected f =>
      match calls (env w) !! f with
      | Some (AwaitSession c) =>
          match opened <$> sessions (env w) !! c with
          | Some false => set_connection Closed false c ;; startSession_catch f
          | _ => mret tt
          end
      | _ => mret tt
      end
  | Message c m =>
      match connection <$> sessions (env w) !! c with
      | Some Open => onmessage m
      | _ => mret tt
      end
  | SocketError c =>
      match connection <$> sessions (env w) !! c with
      | Some Connecting | Some Open => set_connection Closing false c ;; onerror
      | _ => mret tt
      end
  | SocketClosed c =>
      match connection <$> sessions (env w) !! c with
      | Some Connecting | Some Open | Some Closing => set_connection Closed false c ;; onclose
      | _ => mret tt
      end
  | SourceEnded n =>
      match node_playback <$> nodes (env w) !! n with
      | Some (Started _) | Some (Stopped _) | Some (Ended _) =>
          modify (with_env (fun e => set_nodes (alter end_node n (nodes e)) e)) ;;
          onended n
      | _ => mret tt
      end
  | AnimationFrame avg_in avg_out => poll avg_in avg_out
  | AudioClock t =>
      modify (with_refs (fun r => set_outputAudioContextRef
        ((fun ctx => match ctx_state ctx with
                     | running => {| ctx_state := running; currentTime := Qmax (currentTime ctx) t |}
                     | suspended => ctx
                     end) <$> outputAudioContextRef r) r))
  | ContextSuspended =>
      modify (with_refs (fun r => set_outputAudioContextRef
        ((fun ctx => {| ctx_state := suspended; currentTime := currentTime ctx |})
           <$> outputAudioContextRef r) r))
  | WallClock ms => modify (with_env (set_dateNow ms))
  | Settled => modify (with_env (set_updatePending false))
  end.

Definition step (w : World) (ev : Event) : World := exec (deliver ev) w.

Definition run (evs : list Event) (w : World) : World := foldl step w evs.

(** The component as mounted: the initial values of lines 11-29. *)
Definition mounted (now : Z) : World :=
  {| app := {| status := IDLE; transcriptions := []; liveUserText := [];
               liveModelText := []; userVolume := 0; modelVolume := 0;
               errorMessage := None |};
     refs := {| inputAudioContextRef := None; outputAudioContextRef := None;
                outputNodeRef := false; sourcesRef := ∅; analyzerRef := false;
                modelAnalyzerRef := false; sessionRef := None;
                nextStartTimeRef := 0; scriptProcessorRef := None |};
     env := {| nodes := []; processors := []; sessions := []; streams := 0%nat;
               calls := []; dateNow := now; updatePending := false |} |}.

(** ** Vocabulary of the properties *)

(** [try { s.stop() } catch (e) {}] on a node. *)
Definition halt (n : AudioBufferSourceNode) : AudioBufferSourceNode :=
  match node_stop n with
  | Normal n' => n'
  | Throw _ => n
  end.

Definition halt_all (ids : list nat) (ns : list AudioBufferSourceNode)
  : list AudioBufferSourceNode :=
  foldl (fun ns i => alter halt i ns) ns ids.

(** A unit that is scheduled or sounding, neither stopped nor finished. *)
Definition playing (n : AudioBufferSourceNode) : bool :=
  match node_playback n with
  | Started _ => true
  | _ => false
  end.

Definition start_time (n : AudioBufferSourceNode) : Q :=
  match node_playback n with
  | Created => 0
  | Started t | Stopped t | Ended t => t
  end.

Definition end_time (n : AudioBufferSourceNode) : Q :=
  start_time n + duration (node_buffer n).

(** The world with the output clock reading [t]. *)
Definition at_clock (t : Q) (w : World) : World :=
  with_refs (fun r => set_outputAudioContextRef
    ((fun ctx => {| ctx_state := ctx_state ctx; currentTime := t |})
       <$> outputAudioContextRef r) r) w.

(** A run of [enqueue] calls, each made at a reading of the output clock. *)
Fixpoint enqueue_all (reqs : list (Q * Part)) (w : World) : World :=
  match reqs with
  | [] => w
  | (t, part) :: rest => enqueue_all rest (exec (enqueue part) (at_clock t w))
  end.

(** Units scheduled back to back from a watermark on: each starts no earlier
    than the end of the one before; the last end is the new watermark. *)
Fixpoint back_to_back (watermark : Q) (units : list AudioBufferSourceNode) (last : Q) : Prop :=
  match units with
  | [] => last = watermark
  | u :: rest =>
      playing u = true /\ watermark <= start_time u /\ back_to_back (end_time u) rest last
  end.

(** The entries lines 155-162 push for the two accumulators, sooner or
    later. *)
Definition turn_entries (now : Z) (userText modelText : jsstring) : list TranscriptionEntry :=
  (if truthy (trim userText) then [{| role := user; text := userText; timestamp := now |}] else [])
  ++ (if truthy (trim modelText) then [{| role := model; text := modelText; timestamp := now |}] else []).

(** The entries that are in [newEntries] when line 163 reads it: none when
    work is marked on the component; otherwise the user's when the user text
    is not empty (and not blank), and the model's only when the user text is
    empty. *)
Definition logged_entries (pending : bool) (now : Z) (userText modelText : jsstring)
  : list TranscriptionEntry :=
  if pending then []
  else if truthy userText then
    if truthy (trim userText) then [{| role := user; text := userText; timestamp := now |}]
    else []
  else
    if truthy (trim modelText) then [{| role := model; text := modelText; timestamp := now |}]
    else [].

(** Empty or made of white space only. *)
Definition blank (s : jsstring) : bool := forallb is_white_space s.

(** A session handle is live while its socket is open. *)
Definition live (s : Session) : bool :=
  match connection s with
  | Open => true
  | _ => false
  end.

Definition live_sessions (w : World) : list Session := filter (fun s => live s = true) (sessions (env w)).

(** The world [stopSession] leaves behind, in closed form. *)
Definition torn_down (w : World) : World :=
  {| app := {| status := IDLE; transcriptions := transcriptions (app w);
               liveUserText := []; liveModelText := [];
               userVolume := 0; modelVolume := 0;
               errorMessage := errorMessage (app w) |};
     refs := {| inputAudioContextRef := inputAudioContextRef (refs w);
                outputAudioContextRef := outputAudioContextRef (refs w);
                outputNodeRef := outputNodeRef (refs w);
                sourcesRef := ∅;
                analyzerRef := analyzerRef (refs w);
                modelAnalyzerRef := modelAnalyzerRef (refs w);
                sessionRef := None;
                nextStartTimeRef := 0;
                scriptProcessorRef := None |};
     env := {| nodes := halt_all (elements (sourcesRef (refs w))) (nodes (env w));
               processors := match scriptProcessorRef (refs w) with
                             | Some p => alter disconnect p (processors (env w))
                             | None => processors (env w)
                             end;
               sessions := match sessionRef (refs w) with
                           | Some c => alter close_connection c (sessions (env w))
                           | None => sessions (env w)
                           end;
               streams := streams (env w);
               calls := calls (env w);
               dateNow := dateNow (env w);
               updatePending :=
                 updatePending (env w)
                 || negb (AppStatus_eqb (status (app w)) IDLE)
                 || negb (Qeq_bool (userVolume (app w)) 0)
                 || negb (Qeq_bool (modelVolume (app w)) 0)
                 || negb (jsstring_eqb (liveUserText (app w)) [])
                 || negb (jsstring_eqb (liveModelText (app w)) []) |} |}.

(** The teardown of [stopSession] between a world and its successor: the
    three references are cleared, the session that was referenced is no
    longer live, the script processor that was referenced is disconnected,
    and no unit of the former active set is playing. *)
Definition teardown_of (w w' : World) : Prop :=
  sessionRef (refs w') = None
  /\ scriptProcessorRef (refs w') = None
  /\ sourcesRef (refs w') = ∅
  /\ (forall c s, sessionRef (refs w) = Some c -> sessions (env w) !! c = Some s ->
        exists s', sessions (env w') !! c = Some s' /\ live s' = false)
  /\ (forall p x, scriptProcessorRef (refs w) = Some p -> processors (env w) !! p = Some x ->
        exists x', processors (env w') !! p = Some x' /\ sp_connected x' = false)
  /\ (forall i n, i ∈ sourcesRef (refs w) -> nodes (env w) !! i = Some n ->
        exists n', nodes (env w') !! i = Some n' /\ playing n' = false).

(** Nothing acquired is held any more: no session is live, no script
    processor is connected, no unit is playing, no audio context is
    allocated, no media stream is open. *)
Definition all_released (w : World) : Prop :=
  Forall (fun s => live s = false) (sessions (env w))
  /\ Forall (fun p => sp_connected p = false) (processors (env w))
  /\ Forall (fun n => playing n = false) (nodes (env w))
  /\ inputAudioContextRef (refs w) = None
  /\ outputAudioContextRef (refs w) = None
  /\ streams (env w) = 0%nat.

(** A session whose socket is neither closing nor closed. *)
Definition connected (s : Session) : bool :=
  match connection s with
  | Connecting | Open => true
  | Closing | Closed => false
  end.

(** The socket of the latest call has opened and its promise is about to
    resolve. *)
Definition resolving (cs : list StartCall) (ss : list Session) : Prop :=
  exists c s, last cs = Some (AwaitSession c) /\ ss !! c = Some s /\ opened s = true.

(** An orderly delivery: a promise settles for the latest call of
    [startSession] only, an error or a close event arrives for the session
    of that call only, and no click falls between [onopen] and the
    resolution of the promise of the same connection. *)
Definition orderly (w : World) (ev : Event) : Prop :=
  match ev with
  | Click => ~ resolving (calls (env w)) (sessions (env w))
  | ContextsResumed f _ | UserMedia f _ | SessionResolved f | SessionRejected f =>
      S f = length (calls (env w))
  | SocketError c | SocketClosed c =>
      S c = length (sessions (env w))
      /\ (last (calls (env w)) = Some (AwaitSession c)
          \/ last (calls (env w)) = Some Returned)
  | SocketOpened _ | Message _ _ | SourceEnded _ | AnimationFrame _ _ | AudioClock _
  | ContextSuspended | WallClock _ | Settled => True
  end.

Fixpoint orderly_run (evs : list Event) (w : World) : Prop :=
  match evs with
  | [] => True
  | ev :: rest => orderly w ev /\ orderly_run rest (step w ev)
  end.

(** What holds of the status, the session reference, the calls and the
    sessions along an orderly run. *)
Record single_session_of
    (st : AppStatus) (sr : option nat) (cs : list StartCall) (ss : list Session) : Prop := {
  connected_is_latest :
    forall c s, ss !! c = Some s -> connected s = true ->
      S c = length ss
      /\ (last cs = Some (AwaitSession c) \/ last cs = Some Returned);
  idle_is_disconnected :
    st = IDLE \/ st = ERROR -> forall c s, ss !! c = Some s -> connected s = false;
  active_is_referenced :
    st = ACTIVE ->
    resolving cs ss
    \/ (forall c s, ss !! c = Some s -> connected s = true -> sr = Some c);
  awaited_is_latest :
    forall c, last cs = Some (AwaitSession c) -> S c = length ss;
  starting_is_connecting :
    last cs = Some AwaitResume \/ last cs = Some AwaitUserMedia -> st = CONNECTING;
  connecting_is_awaited :
    forall c s, ss !! c = Some s -> connection s = Connecting ->
      last cs = Some (AwaitSession c);
  opened_is_not_connecting :
    forall c s, ss !! c = Some s -> opened s = true -> connection s <> Connecting;
}.

Definition single_session (w : World) : Prop :=
  single_session_of (status (app w)) (sessionRef (refs w)) (calls (env w)) (sessions (env w)).

(** The sessions after [stopSession] has closed the one referenced. *)
Definition close_referenced (sr : option nat) (ss : list Session) : list Session :=
  match sr with
  | Some c => alter close_connection c ss
  | None => ss
  end.

(** The events whose callback runs [stopSession]. *)
Definition runs_stopSession (w : World) (ev : Event) : Prop :=
  match ev with
  | Click => status (app w) = ACTIVE
  | SocketError _ | SocketClosed _ => True
  | _ => False
  end.

Definition completes_turn (ev : Event) : Prop :=
  match ev with
  | Message _ m => content_flag turnComplete m = true
  | _ => False
  end.

(** The message without its input transcription. *)
Definition without_inputTranscription (m : LiveServerMessage) : LiveServerMessage :=
  {| serverContent :=
       (fun sc => {| modelTurn := modelTurn sc;
                     outputTranscription := outputTranscription sc;
                     inputTranscription := None;
                     turnComplete := turnComplete sc;
                     interrupted := interrupted sc |}) <$> serverContent m |}.

End Engine.

(** ** Sample data *)

(** A stand-in for the base64 decoder: one byte per code unit. *)
Definition bytes_of (s : jsstring) : Completion (list byte) :=
  Normal (map (fun c => Codec.byte_of_Z (Z.of_N c)) s).

Definition audio_part (data : string) : Part :=
  {| inlineData := Some (Some (js data)); groundingMetadata := false |}.

Definition audioChunk (data : string) : LiveServerMessage :=
  {| serverContent := Some
       {| modelTurn := Some (Some [audio_part data]); outputTranscription := None;
          inputTranscription := None; turnComplete := false; interrupted := false |} |}.

Definition partialText (r : Role) (t : string) : LiveServerMessage :=
  {| serverContent := Some
       {| modelTurn := None;
          outputTranscription :=
            match r with model => Some {| transcription_text := Some (js t) |} | user => None end;
          inputTranscription :=
            match r with user => Some {| transcription_text := Some (js t) |} | model => None end;
          turnComplete := false; interrupted := false |} |}.

Definition turnCompleteMsg : LiveServerMessage :=
  {| serverContent := Some
       {| modelTurn := None; outputTranscription := None; inputTranscription := None;
          turnComplete := true; interrupted := false |} |}.

Definition interruptedMsg : LiveServerMessage :=
  {| serverContent := Some
       {| modelTurn := None; outputTranscription := None; inputTranscription := None;
          turnComplete := false; interrupted := true |} |}.

(** A message with a fragment for each role. *)
Definition bothTexts (m u : string) : LiveServerMessage :=
  {| serverContent := Some
       {| modelTurn := None;
          outputTranscription := Some {| transcription_text := Some (js m) |};
          inputTranscription := Some {| transcription_text := Some (js u) |};
          turnComplete := false; interrupted := false |} |}.

(** The engine over the stand-in decoder and the codec of section 4.1. *)
Definition play (evs : list Event) (w : World) : World :=
  run bytes_of Codec.decodeAudioData evs w.

(** A session brought up: start clicked, contexts resumed, microphone
    granted, socket open, promise resolved. *)
Definition boot (f c : nat) : list Event :=
  [Click; ContextsResumed f true; UserMedia f true; SocketOpened c; SessionResolved f].

Definition active_world : World := play (boot 0 0) (mounted 0).

(** The four bytes of "abcd" and the two samples they decode to. *)
Definition abcd_bytes : list byte := ["a"; "b"; "c"; "d"]%byte.

Definition abcd_buffer : AudioBuffer :=
  {| channelData := [25185 # 32768; 25699 # 32768]; sampleRate := 24000 |}.

(** The active world with one unit scheduled. *)
Definition playing_world : World := play [Message 0 (audioChunk "abcd")] active_world.

(** The active world with the fragments "hel" and "lo" of the user. *)
Definition hello_world : World :=
  play [Message 0 (partialText user "hel"); Message 0 (partialText user "lo")] active_world.

(** The active world with the fragment "hi" of the model, and the same after
    an interruption. *)
Definition hi_world : World := play [Message 0 (partialText model "hi")] active_world.

Definition interrupted_world : World := play [Message 0 interruptedMsg] hi_world.

(** The active world with "hi" of the user and "yo" of the model. *)
Definition dialogue_world : World :=
  play [Message 0 (partialText user "hi"); Message 0 (partialText model "yo")] active_world.

(** A session is stopped and restarted; the close event of the first socket
    arrives while the second is still connecting, the start button is
    offered again and clicked, and both pending sockets open. *)
Definition stale_close : list Event :=
  boot 0 0
  ++ [Click;                                   (* Terminate Link: session 0 closed *)
      Click; ContextsResumed 1 true; UserMedia 1 true;   (* session 1 connecting *)
      SocketClosed 0].                         (* onclose of session 0: stopSession *)

Definition restart_race : list Event :=
  stale_close
  ++ [Click; ContextsResumed 2 true; UserMedia 2 true;   (* session 2 connecting *)
      SocketOpened 1; SessionResolved 1;
      SocketOpened 2; SessionResolved 2].

(** The accumulators have only grown and the log is as it was. *)
Definition text_kept (u m : jsstring) (log : list TranscriptionEntry) (w : World) : Prop :=
  (exists s, liveUserText (app w) = u ++ s)
  /\ (exists s, liveModelText (app w) = m ++ s)
  /\ transcriptions (app w) = log.

(** A property of the world that a computation keeps, whether it completes
    or throws. *)
Definition preserves {A} (P : World -> Prop) (m : Eff A) : Prop :=
  forall w, P w -> P (snd (m w)).

(** ** The volume poll on the analysers' data *)

(** [analyser.frequencyBinCount]: half of the [fftSize] of 256 that lines 70
    and 83 set. *)
Definition frequencyBinCount : nat := 128.

(** [data.reduce((a, b) => a + b, 0) / data.length] on the bytes an analyser
    wrote, lines 217 and 223. The sum is an integer and the length of the
    arrays of the component a power of two, so the quotient is exact. On an
    empty array JavaScript yields NaN; the arrays of the component hold
    [frequencyBinCount] bytes. *)
Definition average (data : list byte) : Q :=
  inject_Z (foldl (fun a b => (a + Z.of_N (Byte.to_N b))%Z) 0%Z data)
  / inject_Z (Z.of_nat (length data)).

(** An animation frame whose two readings are averages of analyser data. *)
Definition analysed (ev : Event) : Prop :=
  match ev with
  | AnimationFrame avg_in avg_out =>
      exists data_in data_out,
        length data_in = frequencyBinCount /\ length data_out = frequencyBinCount
        /\ avg_in = average data_in /\ avg_out = average data_out
  | _ => True
  end.

(** ** components/Visualizer.tsx *)

(** [x > y] on numbers. *)
Definition Qgtb (x y : Q) : bool := negb (Qle_bool x y).

(** Numbers are exact rationals. [App] gives the component a volume between
    0 and 255/128 (see [visualizer_props]); on that range every product and
    sum below is far from overflow and from the rounding of doubles. A
    volume that is not a number, or so large that a term is absorbed or the
    sum overflows, is outside of what is modelled. *)
Module Visualizer.

Record VisualizerProps := {
  volume : Q;
  isActive : bool;
  color : string;
}.

(** Line 11. *)
Definition intensity (p : VisualizerProps) : Q :=
  if isActive p then Qmax (2 # 100) (volume p * (25 # 10)) else 0.

(** Line 12. *)
Definition scale (p : VisualizerProps) : Q := 1 + intensity p * (5 # 10).

(** Line 15. *)
Definition glowColor (p : VisualizerProps) : string :=
  if isActive p then
    if Qgtb (volume p) (4 # 10) then "#22d3ee"%string
    else if Qgtb (volume p) (1 # 10) then "#3b82f6"%string
    else color p
  else "#1e293b"%string.

(** The background atmosphere, line 24: [scale(${scale * 1.3})]. *)
Definition atmosphere_scale (p : VisualizerProps) : Q := scale p * (13 # 10).

(** The circles of the plasma field, lines 55-74, [i] from 0 to 7. *)
Definition plasma_radius (p : VisualizerProps) : Q := 45 + intensity p * 65.

Section Clock.

(** [Math.sin] and [Math.cos]. *)
Variables sin cos : Q -> Q.

(** The [translate(x px, y px)] of circle [i] rendered at [Date.now() = now]. *)
Definition plasma_translate (now : Z) (i : nat) (p : VisualizerProps) : Q * Q :=
  (sin (inject_Z now / 500 + inject_Z (Z.of_nat i) * (15 # 10)) * (20 * intensity p),
   cos (inject_Z now / 600 + inject_Z (Z.of_nat i) * (12 # 10)) * (20 * intensity p)).

(** The [scale(...)] of circle [i]. *)
Definition plasma_scale (now : Z) (i : nat) (p : VisualizerProps) : Q :=
  1 + sin (inject_Z now / 400 + inject_Z (Z.of_nat i)) * (15 # 100) * intensity p.

End Clock.

(** The core nucleus, lines 77-87. *)
Definition nucleus_radius (p : VisualizerProps) : Q :=
  if isActive p then 38 + intensity p * 15 else 32.

Definition nucleus_fill (p : VisualizerProps) : string :=
  if isActive p then "#ffffff"%string else "#334155"%string.

Definition nucleus_opacity (p : VisualizerProps) : Q :=
  if isActive p then 9 # 10 else 3 # 10.

(** The two synchronization rings, lines 91-108, [i] 0 and 1. *)
Definition ring_radius (p : VisualizerProps) (i : nat) : Q :=
  85 + inject_Z (Z.of_nat i) * 20 + intensity p * 25.

End Visualizer.

(** ** The rendered page, App.tsx lines 232-401 *)

(** The props of the [Visualizer] element, lines 270-274. *)
Definition visualizer_props (a : AppState) : Visualizer.VisualizerProps :=
  {| Visualizer.volume :=
       if Qgtb (modelVolume a) (2 # 100) then modelVolume a
       else if Qgtb (userVolume a) (2 # 100) then userVolume a
       else 1 # 100;
     Visualizer.isActive := match status a with ACTIVE => true | _ => false end;
     Visualizer.color :=
       if Qgtb (modelVolume a) (5 # 100) then "#22d3ee"%string
       else if Qgtb (userVolume a) (5 # 100) then "#f8fafc"%string
       else "#475569"%string |}.

(** What the transcript pane holds, lines 294-333, top to bottom. *)
Inductive Bubble :=
| Placeholder                                  (* "Syncing with ... Neural Net..." *)
| EntryBubble (label : string) (t : jsstring)  (* a logged entry under its label *)
| Processing (t : jsstring)                    (* "Neural Processing...": the live user text *)
| Synthesizing (t : jsstring).                 (* "Synthesizing Signal...": the live model text *)

Definition entry_label (r : Role) : string :=
  match r with
  | user => "OPERATOR"%string
  | model => "SUPRA AI"%string
  end.

Definition transcript_pane (a : AppState) : list Bubble :=
  (if (length (transcriptions a) =? 0)%nat
      && negb (truthy (liveUserText a)) && negb (truthy (liveModelText a))
   then [Placeholder] else [])
  ++ map (fun t => EntryBubble (entry_label (role t)) (text t)) (transcriptions a)
  ++ (if truthy (liveUserText a) then [Processing (liveUserText a)] else [])
  ++ (if truthy (liveModelText a) then [Synthesizing (liveModelText a)] else []).

(** The error banner, lines 337-341: [errorMessage && ...]. *)
Definition error_banner (a : AppState) : option string :=
  match errorMessage a with
  | Some (String c s) => Some (String c s)
  | Some EmptyString | None => None
  end.

(** ** Vocabulary of the invariants *)

(** The wall clock does not run backwards along the events. *)
Fixpoint clock_monotone (now : Z) (evs : list Event) : Prop :=
  match evs with
  | [] => True
  | WallClock ms :: rest => (now <= ms)%Z /\ clock_monotone ms rest
  | _ :: rest => clock_monotone now rest
  end.

(** The bookkeeping of the playback units: every node has been started,
    every member of the active set is a node, every unit that is playing is
    in the active set and ends no later than the watermark. *)
Record audio_ok (w : World) : Prop := {
  nodes_started : Forall (fun n => node_playback n <> Created) (nodes (env w));
  sources_exist : forall i, i ∈ sourcesRef (refs w) -> (i < length (nodes (env w)))%nat;
  playing_tracked :
    forall i n, nodes (env w) !! i = Some n -> playing n = true -> i ∈ sourcesRef (refs w);
  watermark_covers :
    forall i n, nodes (env w) !! i = Some n -> playing n = true ->
      end_time n <= nextStartTimeRef (refs w);
}.

(** The audio graph of lines 60-72 is in place. *)
Definition graph_ready (w : World) : Prop :=
  is_Some (inputAudioContextRef (refs w))
  /\ is_Some (outputAudioContextRef (refs w))
  /\ outputNodeRef (refs w) = true
  /\ modelAnalyzerRef (refs w) = true.

(** A part that carries audio: [part.inlineData?.data] is truthy. *)
Definition has_audio (part : Part) : bool :=
  match inlineData part with
  | Some (Some data) => truthy data
  | _ => false
  end.

(** The messages of the two setters of [errorMessage]. *)
Definition microphone_message : string := "SUPRA requires microphone access to initialize.".
Definition link_message : string := "SUPRA neural link disrupted.".

(** The wiring of the capture side: there is one script processor for each
    session, session [c] being the one connected by the call that created
    processor [c]; a processor that is connected has its capture callback
    installed; a capture callback sends to the session of its own call, and
    is installed only once the socket of that session has opened; the
    session that is referenced has opened, and the processor that is
    referenced exists. *)
Record capture_of (sr spr : option nat) (ps : list ScriptProcessorNode) (ss : list Session)
    : Prop := {
  one_processor_each : length ps = length ss;
  own_processor : forall c s, ss !! c = Some s -> session_processor s = c;
  connected_has_callback :
    forall p x, ps !! p = Some x -> sp_connected x = true -> onaudioprocess x = Some p;
  callback_after_open :
    forall p x c, ps !! p = Some x -> onaudioprocess x = Some c ->
      c = p /\ exists s, ss !! p = Some s /\ opened s = true;
  referenced_opened :
    forall c, sr = Some c -> exists s, ss !! c = Some s /\ opened s = true;
  processor_exists : forall p, spr = Some p -> (p < length ps)%nat;
}.

Definition capture_ok (w : World) : Prop :=
  capture_of (sessionRef (refs w)) (scriptProcessorRef (refs w))
    (processors (env w)) (sessions (env w)).

(** ** More sample data *)

(** A session is brought up, the user says "hi", React settles (a render
    finds the state as it was, and no work is left marked), the wall clock
    moves to 5 and the turn completes. *)
Definition timed_turn : list Event :=
  boot 0 0
  ++ [Message 0 (partialText user "hi"); Settled; WallClock 5; Message 0 turnCompleteMsg].

(** Two turns, each completed after React has settled: "hi" of the user at
    0 and "yo" of the model at 5. *)
Definition two_turns : list Event :=
  boot 0 0
  ++ [Message 0 (partialText user "hi"); Settled; Message 0 turnCompleteMsg;
      WallClock 5;
      Message 0 (partialText model "yo"); Settled; Message 0 turnCompleteMsg].

(** [n] turns of the user, at the wall-clock readings 1 to [n], each
    completed after React has settled. *)
Definition many_turns (n : nat) : list Event :=
  boot 0 0
  ++ flat_map (fun i => [WallClock (Z.of_nat i); Message 0 (partialText user "hi");
                         Settled; Message 0 turnCompleteMsg])
       (seq 1 n).

(** A session is brought up and one chunk of audio arrives. *)
Definition one_chunk : list Event := boot 0 0 ++ [Message 0 (audioChunk "abcd")].

(** The data of an analyser at full scale, and a frame of the poll on it. *)
Definition full_scale : list byte := repeat Byte.xff frequencyBinCount.

Definition loud_frame : list Event :=
  boot 0 0 ++ [AnimationFrame (average full_scale) (average full_scale)].

(** A message whose audio is three bytes long, which is no whole number of
    16-bit samples, together with a fragment and a turn completion. *)
Definition garbled : LiveServerMessage :=
  {| serverContent := Some
       {| modelTurn := Some (Some [audio_part "abc"]);
          outputTranscription := Some {| transcription_text := Some (js "hi") |};
          inputTranscription := None; turnComplete := true; interrupted := true |} |}.

(** The last fragment of the model together with the turn completion. *)
Definition finalFragment (t : string) : LiveServerMessage :=
  {| serverContent := Some
       {| modelTurn := None;
          outputTranscription := Some {| transcription_text := Some (js t) |};
          inputTranscription := None; turnComplete := true; interrupted := false |} |}.

(** Audio and the interruption flag in one message. *)
Definition interruptedChunk (data : string) : LiveServerMessage :=
  {| serverContent := Some
       {| modelTurn := Some (Some [audio_part data]); outputTranscription := None;
          inputTranscription := None; turnComplete := false; interrupted := true |} |}.

(** An output transcription without [text]. *)
Definition bareFragment : LiveServerMessage :=
  {| serverContent := Some
       {| modelTurn := None; outputTranscription := Some {| transcription_text := None |};
          inputTranscription := None; turnComplete := false; interrupted := false |} |}.

(** Parts that carry no audio: grounding metadata only, an empty [data], an
    [inlineData] without [data]. *)
Definition silent_parts : list Part :=
  [{| inlineData := None; groundingMetadata := true |};
   {| inlineData := Some (Some []); groundingMetadata := false |};
   {| inlineData := Some None; groundingMetadata := false |}].

(** Two renderings of the active orb, and one of the idle orb. *)
Definition quiet_orb : Visualizer.VisualizerProps :=
  {| Visualizer.volume := 1 # 10; Visualizer.isActive := true;
     Visualizer.color := "#475569" |}.

Definition loud_orb : Visualizer.VisualizerProps :=
  {| Visualizer.volume := 1 # 2; Visualizer.isActive := true;
     Visualizer.color := "#22d3ee" |}.

Definition idle_orb : Visualizer.VisualizerProps :=
  {| Visualizer.volume := 1; Visualizer.isActive := false;
     Visualizer.color := "#22d3ee" |}.

(** ** Properties *)

(** *** Computations *)

Section Computations.
Context (P : World -> Prop).

Lemma preserves_ret {A} (a : A) : preserves P (mret a).
Proof. intros w H. exact H. Qed.

Lemma preserves_bind {A B} (m : Eff A) (k : A -> Eff B) :
  preserves P m -> (forall a, preserves P (k a)) -> preserves P (m ≫= k).
Proof.
  intros Hm Hk w H. unfold mbind, Eff_bind.
  specialize (Hm w H). destruct (m w) as [[a|e] w']; simpl in *.
  - apply Hk, Hm.
  - exact Hm.
Qed.

Lemma preserves_get : preserves P get.
Proof. intros w H. exact H. Qed.

Lemma preserves_Date_now : preserves P Date_now.
Proof. intros w H. exact H. Qed.

Lemma preserves_lift {A} (c : Completion A) : preserves P (lift c).
Proof. intros w H. exact H. Qed.

Lemma preserves_modify (f : World -> World) :
  (forall w, P w -> P (f w)) -> preserves P (modify f).
Proof. intros Hf w H. apply Hf, H. Qed.

Lemma preserves_try (m : Eff unit) : preserves P m -> preserves P (try_ m).
Proof.
  intros Hm w H. unfold try_. specialize (Hm w H).
  destruct (m w) as [[a|e] w']; exact Hm.
Qed.

Lemma preserves_when (b : bool) (m : Eff unit) : preserves P m -> preserves P (when_ b m).
Proof. intros Hm. destruct b; [exact Hm | apply preserves_ret]. Qed.

Lemma preserves_for_of {A} (l : list A) (body : A -> Eff unit) :
  (forall x, preserves P (body x)) -> preserves P (for_of l body).
Proof.
  intros Hb. induction l as [|x l IH]; simpl.
  - apply preserves_ret.
  - apply preserves_bind; [apply Hb | intros _; exact IH].
Qed.

Lemma preserves_on_node i method :
  (forall w ns, P w -> P (with_env (set_nodes ns) w)) -> preserves P (on_node i method).
Proof.
  intros Hf w H. unfold on_node.
  destruct (nodes (env w) !! i) as [n|]; [|exact H].
  destruct (method n); simpl; [apply Hf, H | exact H].
Qed.

Lemma preserves_createBufferSource b :
  (forall w ns, P w -> P (with_env (set_nodes ns) w)) -> preserves P (createBufferSource b).
Proof. intros Hf w H. apply Hf, H. Qed.

End Computations.

(** Steps through a computation, leaving the updates of the world to check. *)
Ltac frame_step :=
  lazymatch goal with
  | |- preserves _ (mret _) => apply preserves_ret
  | |- preserves _ (_ ≫= _) => apply preserves_bind; [|intros ?]
  | |- preserves _ get => apply preserves_get
  | |- preserves _ Date_now => apply preserves_Date_now
  | |- preserves _ (lift _) => apply preserves_lift
  | |- preserves _ (try_ _) => apply preserves_try
  | |- preserves _ (when_ false _) => apply preserves_ret
  | |- preserves _ (when_ _ _) => apply preserves_when
  | |- preserves _ (createBufferSource _) => apply preserves_createBufferSource; intros ? ? ?
  | |- preserves _ (for_of _ _) => apply preserves_for_of; intros ?
  | |- preserves _ (forEach _ _) => apply preserves_for_of; intros ?
  | |- preserves _ (on_node _ _) => apply preserves_on_node; intros ? ? ?
  | |- preserves _ (modify _) => apply preserves_modify; intros ? ?
  | |- preserves _ (queue _) => unfold queue
  | |- preserves _ (match ?x with _ => _ end) => destruct x
  | |- preserves _ (if ?x then _ else _) => destruct x
  end.

Ltac frame := repeat frame_step.

(** *** The transcript aggregator *)

Arguments trim : simpl never.
Arguments truthy : simpl never.

Lemma length_slice_last {A} (n : nat) (l : list A) :
  length (slice_last n l) = Nat.min n (length l).
Proof. unfold slice_last. rewrite length_drop. lia. Qed.


Lemma slice_last_suffix {A} (n : nat) (l : list A) :
  take (length l - n) l ++ slice_last n l = l.
Proof. unfold slice_last. apply take_drop. Qed.

Lemma slice_last_app {A} (n : nat) (l new : list A) :
  (length new <= n)%nat ->
  slice_last n (l ++ new) = drop (length l + length new - n) l ++ new.
Proof.
  intros H. unfold slice_last. rewrite length_app, drop_app.
  replace (length l + length new - n - length l)%nat with 0%nat by lia.
  reflexivity.
Qed.

Lemma length_turn_entries now u m : (length (turn_entries now u m) <= 2)%nat.
Proof.
  unfold turn_entries. rewrite length_app.
  destruct (truthy (trim u)), (truthy (trim m)); simpl; lia.
Qed.

(** What [finalizeTurn] leaves behind, field by field. *)
Lemma finalizeTurn_exec (w : World) :
  exists w',
    finalizeTurn w = (Normal tt, w')
    /\ transcriptions (app w') =
         slice_last 15 (transcriptions (app w)
           ++ logged_entries (updatePending (env w)) (dateNow (env w))
                (liveUserText (app w)) (liveModelText (app w)))
    /\ liveUserText (app w') = [] /\ liveModelText (app w') = []
    /\ status (app w') = status (app w) /\ errorMessage (app w') = errorMessage (app w)
    /\ refs w' = refs w /\ env w' = set_updatePending true (env w).
Proof.
  unfold finalizeTurn, setTranscriptions, setLiveUserText, setLiveModelText, finalize,
    logged_entries, queue, Date_now, get, modify, mbind, mret, Eff_bind, Eff_ret.
  destruct w as [[st log u m uv mv msg] r e]. cbn [app env refs liveUserText liveModelText].
  destruct (updatePending e) eqn:Hp.
  - destruct (truthy (trim u)); cbn; rewrite ?Hp; cbn;
      destruct (truthy (trim m)); cbn; rewrite ?Hp; cbn;
      eexists; (split; [reflexivity|]); cbn; repeat split; rewrite ?orb_true_r; reflexivity.
  - destruct u as [|c u].
    + change (truthy (trim [])) with false. change (truthy []) with false.
      cbn. rewrite ?Hp. cbn.
      destruct (truthy (trim m)); cbn; rewrite ?Hp; cbn;
        eexists; (split; [reflexivity|]); cbn; repeat split; rewrite ?orb_true_r; reflexivity.
    + change (truthy (c :: u)) with true.
      destruct (truthy (trim (c :: u))); cbn; rewrite ?Hp; cbn;
        destruct (truthy (trim m)); cbn; rewrite ?Hp; cbn;
        eexists; (split; [reflexivity|]); cbn; repeat split; rewrite ?orb_true_r; reflexivity.
Qed.

Section Properties.

Variable decode : jsstring -> Completion (list byte).
Variable decodeAudioData : list byte -> positive -> positive -> Completion AudioBuffer.

Lemma finalizeTurn_bounded :
  preserves (fun w => (length (transcriptions (app w)) <= 15)%nat) finalizeTurn.
Proof.
  intros w _. destruct (finalizeTurn_exec w) as (w' & -> & Hlog & _).
  simpl. rewrite Hlog, length_slice_last. lia.
Qed.

(** Every callback other than a turn completion leaves the log as it is. *)
Lemma deliver_bounded (ev : Event) :
  preserves (fun w => (length (transcriptions (app w)) <= 15)%nat)
    (deliver decode decodeAudioData ev).
Proof.
  pose proof finalizeTurn_bounded as Hf.
  unfold deliver, click, onclose, onerror, onmessage, interrupt, appendPartial, enqueue,
    onended, poll, onopen, startSession_connected, startSession_stream,
    startSession_resumed, startSession_catch, startSession, stopSession, set_connection,
    set_call, session_close, processor_disconnect,
    setStatus, setErrorMessage, setUserVolume, setModelVolume, setLiveUserText,
    setLiveModelText.
  destruct ev; frame; try exact Hf; try (intros ? ?); simpl in *; auto.
Qed.

Lemma logged_entries_cases (pending : bool) (now : Z) (u m : jsstring) :
  logged_entries pending now u m = []
  \/ exists e, logged_entries pending now u m = [e] /\ In e (turn_entries now u m).
Proof.
  unfold logged_entries, turn_entries.
  destruct pending; [left; reflexivity|].
  destruct (truthy u); destruct (truthy (trim u)); destruct (truthy (trim m));
    try (left; reflexivity); right; eexists; (split; [reflexivity|]); simpl; auto.
Qed.

(** C5. Over every sequence of events delivered to the mounted component the
    finalized log holds at most 15 entries. A turn completion keeps the last
    15 of the old log followed by what line 163 finds in [newEntries], no
    entry or one, in order: the oldest entries leave first. *)
Theorem transcript_log_bounded :
  (forall (evs : list Event) (now : Z),
     (length (transcriptions (app (run decode decodeAudioData evs (mounted now)))) <= 15)%nat)
  /\ (forall w : World,
        let new := logged_entries (updatePending (env w)) (dateNow (env w))
                     (liveUserText (app w)) (liveModelText (app w)) in
        let all := transcriptions (app w) ++ new in
        let log' := transcriptions (app (exec finalizeTurn w)) in
        (length new <= 1)%nat
        /\ log' = drop (length all - 15) all
        /\ length log' = Nat.min 15 (length all)
        /\ take (length all - 15) all ++ log' = all).
Proof.
  split.
  - intros evs now. unfold run.
    assert (H : (length (transcriptions (app (mounted now))) <= 15)%nat) by (simpl; lia).
    revert H. generalize (mounted now). induction evs as [|ev evs IH]; intros w H.
    + exact H.
    + simpl. apply IH. unfold step, exec. apply deliver_bounded, H.
  - intros w new all log'. subst log'. unfold exec.
    destruct (finalizeTurn_exec w) as (w' & -> & Hlog & _). cbn [snd].
    rewrite Hlog. fold new all. split.
    { destruct (logged_entries_cases (updatePending (env w)) (dateNow (env w))
                  (liveUserText (app w)) (liveModelText (app w)))
        as [E|(e & E & _)]; fold new in E; rewrite E; cbn [length]; lia. }
    split; [reflexivity|].
    split; [apply length_slice_last | apply slice_last_suffix].
Qed.

Lemma trimStart_nil (s : jsstring) : trimStart s = [] <-> blank s = true.
Proof.
  induction s as [|c s IH]; simpl; [tauto|].
  destruct (is_white_space c); simpl; [exact IH|]. split; discriminate.
Qed.

Lemma blank_trimStart (s : jsstring) : blank (trimStart s) = blank s.
Proof.
  induction s as [|c s IH]; simpl; [reflexivity|].
  destruct (is_white_space c) eqn:Hc; simpl; [exact IH|]. rewrite Hc. reflexivity.
Qed.

Lemma blank_rev (s : jsstring) : blank (rev s) = blank s.
Proof.
  unfold blank. apply eq_true_iff_eq. rewrite !forallb_forall.
  split; intros H x Hx; apply H.
  - apply in_rev in Hx. exact Hx.
  - apply in_rev. exact Hx.
Qed.

(** A string survives trimming exactly when it is not blank. *)
Lemma truthy_trim (s : jsstring) : truthy (trim s) = negb (blank s).
Proof.
  unfold trim, trimEnd.
  destruct (blank s) eqn:Hb; simpl.
  - apply trimStart_nil in Hb. rewrite Hb. reflexivity.
  - destruct (rev (trimStart (rev (trimStart s)))) as [|c r] eqn:He; [|reflexivity].
    exfalso. apply (f_equal (@rev N)) in He. rewrite rev_involutive in He. simpl in He.
    apply trimStart_nil in He. rewrite blank_rev, blank_trimStart in He. congruence.
Qed.

(** What a turn completion does, in full: it never throws and empties both
    accumulators. With work marked on the component it logs nothing,
    whatever the accumulators hold. With none it logs the user text when
    that is not blank, and the model text when that is not blank and the user
    text is empty: never both. *)
Lemma finalizeTurn_logs (w : World) :
  let now := dateNow (env w) in
  let u := liveUserText (app w) in
  let m := liveModelText (app w) in
  let prev := transcriptions (app w) in
  let w' := exec finalizeTurn w in
  finalizeTurn w = (Normal tt, w')
  /\ liveUserText (app w') = []
  /\ liveModelText (app w') = []
  /\ (updatePending (env w) = true -> transcriptions (app w') = slice_last 15 prev)
  /\ (updatePending (env w) = false -> u <> [] ->
      transcriptions (app w')
      = slice_last 15 (prev ++ if blank u then []
                               else [{| role := user; text := u; timestamp := now |}]))
  /\ (updatePending (env w) = false -> u = [] ->
      transcriptions (app w')
      = slice_last 15 (prev ++ if blank m then []
                               else [{| role := model; text := m; timestamp := now |}]))
  /\ (length (transcriptions (app w')) <= length prev + 1)%nat
  /\ updatePending (env w') = true.
Proof.
  intros now u m prev w'. subst w'. unfold exec.
  destruct (finalizeTurn_exec w) as (w' & He & Hlog & Hu & Hm & _ & _ & _ & Henv).
  rewrite He. cbn [snd]. fold now u m prev in Hlog.
  split; [reflexivity|]. split; [exact Hu|]. split; [exact Hm|].
  split.
  { intros Hp. rewrite Hlog, Hp. cbn. rewrite app_nil_r. reflexivity. }
  split.
  { intros Hp Hne. rewrite Hlog, Hp. unfold logged_entries. rewrite truthy_trim.
    destruct u as [|c u0]; [congruence|]. change (truthy (c :: u0)) with true.
    destruct (blank (c :: u0)); reflexivity. }
  split.
  { intros Hp ->. rewrite Hlog, Hp. unfold logged_entries. rewrite !truthy_trim.
    change (truthy []) with false. destruct (blank m); reflexivity. }
  split.
  { rewrite Hlog, length_slice_last, length_app.
    destruct (logged_entries_cases (updatePending (env w)) now u m) as [->|(e & -> & _)];
      cbn [length]; lia. }
  rewrite Henv. reflexivity.
Qed.


(** *** The playback scheduler *)

Lemma duration_nonneg (b : AudioBuffer) : 0 <= duration b.
Proof. unfold duration, Qle. simpl. lia. Qed.

Lemma back_to_back_app a us1 b us2 c :
  back_to_back a us1 b -> back_to_back b us2 c -> back_to_back a (us1 ++ us2) c.
Proof.
  revert a. induction us1 as [|u us1 IH]; simpl; intros a H1 H2.
  - subst b. exact H2.
  - destruct H1 as (Hp & Hle & H1). repeat split; auto.
Qed.


Lemma back_to_back_Forall a us b :
  back_to_back a us b -> Forall (fun u => playing u = true /\ a <= start_time u) us.
Proof.
  revert a. induction us as [|u us IH]; simpl; intros a H; constructor.
  - tauto.
  - destruct H as (_ & Hle & H). apply IH in H.
    eapply Forall_impl; [exact H|]. simpl. intros v [Hp Hv]. split; [exact Hp|].
    unfold end_time in Hv. pose proof (duration_nonneg (node_buffer u)). lra.
Qed.

Lemma back_to_back_adjacent a us b i u v :
  back_to_back a us b -> us !! i = Some u -> us !! S i = Some v ->
  end_time u <= start_time v /\ start_time u <= start_time v.
Proof.
  revert a i. induction us as [|x us IH]; intros a i H Hu Hv; [discriminate|].
  destruct H as (_ & _ & H). destruct i as [|i].
  - simpl in Hu. injection Hu as ->. destruct us as [|y us]; [discriminate|].
    simpl in Hv. injection Hv as ->. destruct H as (_ & Hle & _).
    split; [exact Hle|].
    unfold end_time in Hle. pose proof (duration_nonneg (node_buffer u)). lra.
  - eapply IH; eauto.
Qed.

Lemma back_to_back_last a us b :
  back_to_back a us b -> b = default a (end_time <$> last us).
Proof.
  revert a. induction us as [|u us IH]; simpl; intros a H; [exact H|].
  destruct H as (_ & _ & H). apply IH in H. rewrite H.
  destruct us as [|x us']; [reflexivity|].
  change (last (u :: x :: us')) with (last (x :: us')).
  destruct (last (x :: us')) eqn:E; [reflexivity|].
  apply last_None in E. discriminate.
Qed.

(** One call of [enqueue] that passes the guard and decodes. *)
Lemma enqueue_exec w part data ctx bytes b :
  inlineData part = Some (Some data) -> truthy data = true ->
  outputAudioContextRef (refs w) = Some ctx -> outputNodeRef (refs w) = true ->
  decode data = Normal bytes -> decodeAudioData bytes 24000 1 = Normal b ->
  let t := Qmax (nextStartTimeRef (refs w)) (currentTime ctx) in
  exists w',
    enqueue decode decodeAudioData part w = (Normal tt, w')
    /\ nodes (env w') = nodes (env w) ++ [{| node_buffer := b; node_playback := Started t |}]
    /\ nextStartTimeRef (refs w') = t + duration b
    /\ sourcesRef (refs w') = {[length (nodes (env w))]} ∪ sourcesRef (refs w).
Proof.
  intros Hd Ht Hc Hn Hb Ha t.
  unfold enqueue, createBufferSource, on_node, lift, get, modify, mbind, mret,
    Eff_bind, Eff_ret.
  rewrite Hd, Hc, Hn, Ht. cbn. rewrite Hb. cbn. rewrite Ha. cbn.
  rewrite list_lookup_middle by reflexivity. cbn.
  assert (Ht' : currentTime match ctx_state ctx with
                            | suspended => {| ctx_state := running; currentTime := currentTime ctx |}
                            | running => ctx
                            end = currentTime ctx) by (destruct (ctx_state ctx); reflexivity).
  rewrite Ht'. fold t.
  eexists. split; [reflexivity|]. cbn.
  rewrite insert_app_r_alt by lia. rewrite Nat.sub_diag. cbn.
  repeat split; reflexivity.
Qed.

(** Any call of [enqueue] schedules no unit or one, from the watermark on. *)
Lemma enqueue_chain w part :
  let w' := exec (enqueue decode decodeAudioData part) w in
  exists units,
    nodes (env w') = nodes (env w) ++ units
    /\ back_to_back (nextStartTimeRef (refs w)) units (nextStartTimeRef (refs w')).
Proof.
  intros w'. subst w'.
  assert (Hnone : forall w', nodes (env w') = nodes (env w) ->
            nextStartTimeRef (refs w') = nextStartTimeRef (refs w) ->
            exists units, nodes (env w') = nodes (env w) ++ units
              /\ back_to_back (nextStartTimeRef (refs w)) units (nextStartTimeRef (refs w'))).
  { intros w' Hn Ht. exists []. rewrite app_nil_r. split; [exact Hn | exact Ht]. }
  destruct (inlineData part) as [[data|]|] eqn:Hd;
    [| unfold exec, enqueue, get, mbind, mret, Eff_bind, Eff_ret; rewrite Hd;
       apply Hnone; reflexivity ..].
  destruct (outputAudioContextRef (refs w)) as [ctx|] eqn:Hc;
    [| unfold exec, enqueue, get, mbind, mret, Eff_bind, Eff_ret; rewrite Hd, Hc;
       apply Hnone; reflexivity].
  destruct (outputNodeRef (refs w)) eqn:Hn;
    [| unfold exec, enqueue, get, mbind, mret, Eff_bind, Eff_ret; rewrite Hd, Hc, Hn;
       apply Hnone; reflexivity].
  destruct (truthy data) eqn:Ht;
    [| unfold exec, enqueue, get, mbind, mret, Eff_bind, Eff_ret; rewrite Hd, Hc, Hn, Ht;
       apply Hnone; reflexivity].
  destruct (decode data) as [bytes|e] eqn:Hb;
    [| unfold exec, enqueue, lift, get, modify, mbind, mret, Eff_bind, Eff_ret;
       rewrite Hd, Hc, Hn, Ht; cbn; rewrite Hb; apply Hnone; reflexivity].
  destruct (decodeAudioData bytes 24000 1) as [b|e] eqn:Ha;
    [| unfold exec, enqueue, lift, get, modify, mbind, mret, Eff_bind, Eff_ret;
       rewrite Hd, Hc, Hn, Ht; cbn; rewrite Hb; cbn; rewrite Ha; apply Hnone; reflexivity].
  destruct (enqueue_exec w part data ctx bytes b Hd Ht Hc Hn Hb Ha)
    as (w' & He & Hnodes & Hnext & _).
  unfold exec. rewrite He. cbn [snd]. eexists. split; [exact Hnodes|].
  simpl. repeat split.
  - apply Q.le_max_l.
  - rewrite Hnext. reflexivity.
Qed.

Lemma enqueue_all_chain reqs w :
  exists units,
    nodes (env (enqueue_all decode decodeAudioData reqs w)) = nodes (env w) ++ units
    /\ back_to_back (nextStartTimeRef (refs w)) units
         (nextStartTimeRef (refs (enqueue_all decode decodeAudioData reqs w))).
Proof.
  revert w. induction reqs as [|[t part] reqs IH]; intros w; simpl.
  - exists []. rewrite app_nil_r. split; reflexivity.
  - destruct (enqueue_chain (at_clock t w) part) as (us1 & Hn1 & Hc1).
    destruct (IH (exec (enqueue decode decodeAudioData part) (at_clock t w)))
      as (us2 & Hn2 & Hc2).
    exists (us1 ++ us2). split.
    + rewrite Hn2, Hn1. simpl. symmetry. apply app_assoc.
    + eapply back_to_back_app; [exact Hc1 | exact Hc2].
Qed.

(** C1. A call of [enqueue] that goes through starts the new unit at the
    maximum of the watermark and the output clock, moves the watermark to the
    end of that unit and adds the unit to the active set. Over any run of
    calls, at any clock readings, the units scheduled are playing, start at
    or after the initial watermark, and each starts at or after the end and
    the start of the one before; the watermark ends at the end of the last. *)
Theorem enqueue_back_to_back :
  (forall w part data ctx bytes b,
     inlineData part = Some (Some data) -> truthy data = true ->
     outputAudioContextRef (refs w) = Some ctx -> outputNodeRef (refs w) = true ->
     decode data = Normal bytes -> decodeAudioData bytes 24000 1 = Normal b ->
     let t := Qmax (nextStartTimeRef (refs w)) (currentTime ctx) in
     let w' := exec (enqueue decode decodeAudioData part) w in
     enqueue decode decodeAudioData part w = (Normal tt, w')
     /\ nodes (env w') = nodes (env w) ++ [{| node_buffer := b; node_playback := Started t |}]
     /\ nextStartTimeRef (refs w') = t + duration b
     /\ sourcesRef (refs w') = {[length (nodes (env w))]} ∪ sourcesRef (refs w))
  /\ (forall reqs w,
        let w' := enqueue_all decode decodeAudioData reqs w in
        exists units,
          nodes (env w') = nodes (env w) ++ units
          /\ Forall (fun u => playing u = true /\ nextStartTimeRef (refs w) <= start_time u) units
          /\ (forall i u v, units !! i = Some u -> units !! S i = Some v ->
                end_time u <= start_time v /\ start_time u <= start_time v)
          /\ nextStartTimeRef (refs w')
             = default (nextStartTimeRef (refs w)) (end_time <$> last units)).
Proof.
  split.
  - intros w part data ctx bytes b Hd Ht Hc Hn Hb Ha t w'. subst w'.
    destruct (enqueue_exec w part data ctx bytes b Hd Ht Hc Hn Hb Ha) as (w' & He & H).
    unfold exec. rewrite He. split; [reflexivity | exact H].
  - intros reqs w w'. subst w'.
    destruct (enqueue_all_chain reqs w) as (units & Hn & Hc).
    exists units. split; [exact Hn|]. split; [eapply back_to_back_Forall; exact Hc|].
    split; [intros i u v; eapply back_to_back_adjacent; exact Hc|].
    eapply back_to_back_last; exact Hc.
Qed.

Lemma halt_idemp (n : AudioBufferSourceNode) : halt (halt n) = halt n.
Proof. destruct n as [b []]; reflexivity. Qed.

Lemma halt_not_playing (n : AudioBufferSourceNode) : playing (halt n) = false.
Proof. destruct n as [b []]; reflexivity. Qed.

Lemma halt_cases (n : AudioBufferSourceNode) :
  (playing n = true
   /\ halt n = {| node_buffer := node_buffer n; node_playback := Stopped (start_time n) |})
  \/ (playing n = false /\ halt n = n).
Proof. destruct n as [b []]; simpl; auto. Qed.

Lemma alter_as_insert {A} (f : A -> A) (l : list A) (i : nat) (x : A) :
  l !! i = Some x -> alter f i l = <[i := f x]> l.
Proof.
  revert i. induction l as [|y l IH]; intros [|i] H; try discriminate; simpl in *.
  - injection H as ->. reflexivity.
  - f_equal. apply IH, H.
Qed.

Lemma alter_absent {A} (f : A -> A) (l : list A) (i : nat) :
  l !! i = None -> alter f i l = l.
Proof.
  revert i. induction l as [|y l IH]; intros [|i] H; try discriminate; simpl in *.
  - reflexivity.
  - reflexivity.
  - f_equal. apply IH, H.
Qed.

Lemma world_eta (w : World) : with_env (set_nodes (nodes (env w))) w = w.
Proof. destruct w as [a r []]. reflexivity. Qed.

(** One round of [try { s.stop() } catch (e) {}]. *)
Lemma try_stop_exec (i : nat) (w : World) :
  try_ (on_node i node_stop) w
  = (Normal tt, with_env (set_nodes (alter halt i (nodes (env w)))) w).
Proof.
  unfold try_, on_node.
  destruct (nodes (env w) !! i) as [n|] eqn:Hi.
  - rewrite (alter_as_insert _ _ _ _ Hi). unfold halt.
    destruct (node_stop n) as [n'|e]; [reflexivity|].
    rewrite list_insert_id by exact Hi. rewrite world_eta. reflexivity.
  - rewrite alter_absent by exact Hi. rewrite world_eta. reflexivity.
Qed.

Lemma stop_loop_exec (ids : list nat) (w : World) :
  for_of ids (fun s => try_ (on_node s node_stop)) w
  = (Normal tt, with_env (set_nodes (halt_all ids (nodes (env w)))) w).
Proof.
  revert w. induction ids as [|i ids IH]; intros w.
  - simpl. unfold mret, Eff_ret. rewrite world_eta. reflexivity.
  - cbn [for_of]. unfold mbind, Eff_bind. rewrite try_stop_exec, IH.
    destruct w as [a r []]. reflexivity.
Qed.

Lemma halt_all_lookup (ids : list nat) (ns : list AudioBufferSourceNode) (i : nat) :
  halt_all ids ns !! i
  = (if bool_decide (i ∈ ids) then halt else id) <$> ns !! i.
Proof.
  revert ns. induction ids as [|j ids IH]; intros ns; simpl.
  - destruct (ns !! i); reflexivity.
  - rewrite IH. destruct (decide (i = j)) as [->|Hne].
    + rewrite list_lookup_alter_eq. rewrite (bool_decide_true (j ∈ j :: ids)) by left.
      destruct (ns !! j) as [n|]; simpl; [|reflexivity].
      case_bool_decide; simpl; [rewrite halt_idemp|]; reflexivity.
    + rewrite list_lookup_alter_ne by congruence.
      destruct (ns !! i) as [n|]; simpl; [|reflexivity].
      repeat case_bool_decide; try reflexivity; exfalso.
      * apply H0. right. exact H.
      * apply H. apply elem_of_cons in H0 as [?|?]; [congruence | assumption].
Qed.


Lemma or_zero_Some (t : Q) : or_zero (Some t) == t.
Proof.
  unfold or_zero. destruct (Qeq_bool t 0) eqn:E; [|reflexivity].
  apply Qeq_bool_iff in E. symmetry. exact E.
Qed.

(** What [interrupt] leaves behind. *)
Lemma interrupt_exec (w : World) :
  interrupt w
  = (Normal tt,
     with_refs (set_nextStartTimeRef (or_zero (currentTime <$> outputAudioContextRef (refs w))))
       (with_refs (set_sourcesRef ∅)
          (with_env (set_nodes (halt_all (elements (sourcesRef (refs w))) (nodes (env w)))) w))).
Proof.
  unfold interrupt, forEach, get, modify, mbind, mret, Eff_bind, Eff_ret.
  rewrite stop_loop_exec. reflexivity.
Qed.

(** A late [onended] finds nothing to remove and leaves the watermark. *)
Lemma ended_after_flush (t : Q) (n : nat) :
  preserves (fun w => sourcesRef (refs w) = ∅ /\ nextStartTimeRef (refs w) = t)
    (deliver decode decodeAudioData (SourceEnded n)).
Proof.
  unfold deliver, onended. frame; simpl in *; try tauto.
  all: match goal with H : _ = ∅ /\ _ |- _ => destruct H as [H1 H2] end.
  all: rewrite H1; split; [apply empty_difference_L | exact H2].
Qed.

Lemma ended_run_after_flush (ended : list nat) (x : World) (t : Q) :
  sourcesRef (refs x) = ∅ -> nextStartTimeRef (refs x) = t ->
  sourcesRef (refs (run decode decodeAudioData (SourceEnded <$> ended) x)) = ∅
  /\ nextStartTimeRef (refs (run decode decodeAudioData (SourceEnded <$> ended) x)) = t.
Proof.
  revert x. induction ended as [|n ended IH]; intros x Hs Ht.
  - split; [exact Hs | exact Ht].
  - simpl. apply IH; apply (ended_after_flush t n x); split; assumption.
Qed.

(** C2. [interrupt] never throws; every unit of the active set that was
    playing is stopped, and one that was already stopped or had finished is
    left as it was; the active set is emptied and the watermark is set to the
    reading of the output clock. However many [onended] callbacks fire
    afterwards, the active set stays empty and the watermark stays there. *)
Theorem interrupt_flushes (w : World) (ctx : AudioContext) (ended : list nat) :
  outputAudioContextRef (refs w) = Some ctx ->
  let w' := exec interrupt w in
  let w'' := run decode decodeAudioData (SourceEnded <$> ended) w' in
  interrupt w = (Normal tt, w')
  /\ (forall i n, i ∈ sourcesRef (refs w) -> nodes (env w) !! i = Some n ->
        exists n', nodes (env w') !! i = Some n'
          /\ playing n' = false
          /\ (playing n = true -> node_playback n' = Stopped (start_time n))
          /\ (playing n = false -> n' = n))
  /\ (forall n, playing n = false -> node_playback n <> Created -> node_stop n = Normal n)
  /\ sourcesRef (refs w') = ∅
  /\ nextStartTimeRef (refs w') == currentTime ctx
  /\ sourcesRef (refs w'') = ∅
  /\ nextStartTimeRef (refs w'') = nextStartTimeRef (refs w').
Proof.
  intros Hctx w' w''. subst w'' w'. unfold exec. rewrite interrupt_exec. cbn [snd].
  split; [reflexivity|]. split.
  { intros i n Hi Hn. cbn. rewrite halt_all_lookup, Hn.
    rewrite bool_decide_true by (apply elem_of_elements; exact Hi). simpl.
    exists (halt n). split; [reflexivity|]. split; [apply halt_not_playing|].
    destruct (halt_cases n) as [[Hp ->]|[Hp ->]]; split; intros Hq;
      try reflexivity; congruence. }
  split.
  { intros [b []]; unfold node_stop, playing; simpl; intros; try reflexivity; congruence. }
  split; [reflexivity|]. split.
  { cbn. rewrite Hctx. apply or_zero_Some. }
  apply ended_run_after_flush; reflexivity.
Qed.

(** *** Teardown *)

Arguments for_of : simpl never.
Arguments try_ : simpl never.
Arguments on_node : simpl never.

Lemma stopSession_exec (w : World) : stopSession w = (Normal tt, torn_down w).
Proof.
  unfold stopSession, torn_down, forEach, session_close, processor_disconnect,
    setStatus, setUserVolume, setModelVolume, setLiveUserText, setLiveModelText, queue,
    get, modify, mbind, mret, Eff_bind, Eff_ret.
  destruct w as [a [ic oc on src an man [c|] nst [p|]] e]; cbn;
    rewrite stop_loop_exec; reflexivity.
Qed.

Lemma torn_down_idemp (w : World) : torn_down (torn_down w) = torn_down w.
Proof.
  unfold torn_down. cbn. rewrite elements_empty, !orb_false_r. reflexivity.
Qed.

Lemma close_connection_not_live (s : Session) : live (close_connection s) = false.
Proof. destruct s as [[] o p]; reflexivity. Qed.

Lemma torn_down_teardown (w : World) : teardown_of w (torn_down w).
Proof.
  unfold teardown_of, torn_down. cbn. repeat split.
  - intros c s -> Hs. rewrite list_lookup_alter_eq, Hs. simpl.
    eexists. split; [reflexivity | apply close_connection_not_live].
  - intros p x -> Hx. rewrite list_lookup_alter_eq, Hx. simpl.
    eexists. split; reflexivity.
  - intros i n Hi Hn. rewrite halt_all_lookup, Hn.
    rewrite bool_decide_true by (apply elem_of_elements; exact Hi). simpl.
    eexists. split; [reflexivity | apply halt_not_playing].
Qed.

(** C9, amended. [stopSession] never throws, whatever the world; it leaves
    the status at [IDLE] and the watermark at zero, and tears down the
    session, the script processor and the active set; run again it changes
    nothing. Stopping a unit never throws and changes nothing on a unit that
    is not playing; closing a session changes nothing on one that is closing
    or closed. The two audio contexts are kept as they are. *)
Theorem stopSession_teardown (w : World) :
  let w' := exec stopSession w in
  stopSession w = (Normal tt, w')
  /\ status (app w') = IDLE
  /\ nextStartTimeRef (refs w') = 0
  /\ teardown_of w w'
  /\ stopSession w' = (Normal tt, w')
  /\ (forall i x, exists x', try_ (on_node i node_stop) x = (Normal tt, x'))
  /\ (forall n, playing n = false -> halt n = n)
  /\ (forall s, connection s = Closing \/ connection s = Closed -> close_connection s = s)
  /\ inputAudioContextRef (refs w') = inputAudioContextRef (refs w)
  /\ outputAudioContextRef (refs w') = outputAudioContextRef (refs w).
Proof.
  intros w'. subst w'. unfold exec. rewrite !stopSession_exec. cbn [snd].
  rewrite torn_down_idemp.
  split; [reflexivity|]. split; [reflexivity|]. split; [reflexivity|].
  split; [apply torn_down_teardown|]. split; [reflexivity|].
  split; [intros i x; rewrite try_stop_exec; eexists; reflexivity|].
  split; [intros [b []]; simpl; intros; try reflexivity; discriminate|].
  split; [intros [[] o p] [H|H]; simpl in H; try discriminate; reflexivity|].
  repeat split.
Qed.

Lemma onerror_exec (w : World) :
  onerror w
  = (Normal tt,
     torn_down (exec (setErrorMessage (Some "SUPRA neural link disrupted."%string)) w)).
Proof.
  unfold onerror, exec, setErrorMessage, queue, get, modify, mbind, Eff_bind. cbn.
  rewrite stopSession_exec. reflexivity.
Qed.

(** C6, amended. A refused microphone takes [startSession] to its [catch]
    block: the status becomes [ERROR] and a message is recorded, and nothing
    else is touched. A transport error records a message and runs
    [stopSession], which ends in [IDLE]. Neither path starts a new session. *)
Theorem error_paths (w : World) (f : nat) :
  let w1 := exec (startSession_stream f false) w in
  let w2 := exec onerror w in
  startSession_stream f false w = (Normal tt, w1)
  /\ status (app w1) = ERROR
  /\ errorMessage (app w1) = Some "SUPRA requires microphone access to initialize."%string
  /\ refs w1 = refs w
  /\ nodes (env w1) = nodes (env w)
  /\ processors (env w1) = processors (env w)
  /\ sessions (env w1) = sessions (env w)
  /\ length (calls (env w1)) = length (calls (env w))
  /\ onerror w = (Normal tt, w2)
  /\ status (app w2) = IDLE
  /\ errorMessage (app w2) = Some "SUPRA neural link disrupted."%string
  /\ w2 = exec stopSession (exec (setErrorMessage (Some "SUPRA neural link disrupted."%string)) w)
  /\ teardown_of w w2
  /\ calls (env w2) = calls (env w)
  /\ length (sessions (env w2)) = length (sessions (env w)).
Proof.
  intros w1 w2. subst w1 w2. unfold exec.
  rewrite onerror_exec, stopSession_exec. cbn [snd].
  split; [reflexivity|]. split; [reflexivity|]. split; [reflexivity|].
  split; [reflexivity|]. split; [reflexivity|]. split; [reflexivity|].
  split; [reflexivity|]. split; [apply length_insert|].
  split; [reflexivity|]. split; [reflexivity|]. split; [reflexivity|].
  split; [reflexivity|].
  split; [exact (torn_down_teardown
            (exec (setErrorMessage (Some "SUPRA neural link disrupted."%string)) w))|].
  split; [reflexivity|].
  unfold exec, setErrorMessage, queue, get, modify, mbind, Eff_bind.
  cbn. destruct (sessionRef (refs w)); [apply length_alter | reflexivity].
Qed.

(** *** Partial text *)

Lemma text_kept_refl (w : World) :
  text_kept (liveUserText (app w)) (liveModelText (app w)) (transcriptions (app w)) w.
Proof.
  repeat split; exists []; symmetry; apply app_nil_r.
Qed.

Lemma appendPartial_exec (msg : LiveServerMessage) (w : World) :
  appendPartial msg w
  = (Normal tt,
     match content_field outputTranscription msg, content_field inputTranscription msg with
     | Some t, _ =>
         let next := concat_text (liveModelText (app w)) (transcription_text t) in
         exec (queue (negb (jsstring_eqb (liveModelText (app w)) next)))
           (with_app (set_liveModelText next) w)
     | None, Some t =>
         let next := concat_text (liveUserText (app w)) (transcription_text t) in
         exec (queue (negb (jsstring_eqb (liveUserText (app w)) next)))
           (with_app (set_liveUserText next) w)
     | None, None => w
     end).
Proof.
  unfold appendPartial.
  destruct (content_field outputTranscription msg) as [t|];
    [| destruct (content_field inputTranscription msg) as [t|]]; reflexivity.
Qed.

Lemma appendPartial_keeps u m log (msg : LiveServerMessage) :
  preserves (text_kept u m log) (appendPartial msg).
Proof.
  intros w (Hu & Hm & Hl). rewrite appendPartial_exec. cbn [snd].
  destruct (content_field outputTranscription msg) as [t|];
    [| destruct (content_field inputTranscription msg) as [t|]].
  - destruct Hm as [s Hm]. repeat split; try assumption.
    exists (s ++ default (js "undefined") (transcription_text t)). cbn.
    unfold concat_text. rewrite Hm. symmetry. apply app_assoc.
  - destruct Hu as [s Hu]. repeat split; try assumption.
    exists (s ++ default (js "undefined") (transcription_text t)). cbn.
    unfold concat_text. rewrite Hu. symmetry. apply app_assoc.
  - repeat split; assumption.
Qed.

Lemma bind_get {A} (k : World -> Eff A) (w : World) : (get ≫= k) w = k w w.
Proof. reflexivity. Qed.

Ltac keep_text :=
  frame;
  match goal with
  | H : text_kept _ _ _ _ |- _ => destruct H as (? & ? & ?); repeat split; assumption
  end.

Lemma startSession_keeps u m log : preserves (text_kept u m log) startSession.
Proof. unfold startSession, setStatus, setErrorMessage. keep_text. Qed.

Lemma onmessage_keeps u m log (msg : LiveServerMessage) :
  content_flag turnComplete msg = false ->
  preserves (text_kept u m log) (onmessage decode decodeAudioData msg).
Proof.
  intros Hturn. pose proof (appendPartial_keeps u m log) as Happend.
  unfold onmessage. rewrite Hturn.
  unfold interrupt, enqueue.
  frame; try apply Happend; keep_text.
Qed.

(** The events that neither complete a turn nor run [stopSession], the click
    apart. *)
Lemma deliver_keeps u m log (ev : Event) :
  ev <> Click -> ~ completes_turn ev -> (forall w, ~ runs_stopSession w ev) ->
  preserves (text_kept u m log) (deliver decode decodeAudioData ev).
Proof.
  intros Hclick Hturn Hstop.
  destruct ev; simpl in Hturn, Hstop; try congruence; try (exfalso; apply (Hstop (mounted 0)), I).
  all: unfold deliver.
  all: try (apply preserves_bind; [apply preserves_get | intros w0];
            destruct (connection <$> sessions (env w0) !! c) as [[]|];
            try apply preserves_ret; apply onmessage_keeps, not_true_is_false, Hturn).
  all: unfold onended, poll, onopen, startSession_connected, startSession_stream,
         startSession_resumed, startSession_catch, set_connection, set_call,
         setStatus, setErrorMessage, setUserVolume, setModelVolume.
  all: keep_text.
Qed.

(** Every event other than a turn completion and a run of [stopSession]
    lets the accumulators grow at most, and leaves the log. *)
Lemma step_keeps_text u m log (w : World) (ev : Event) :
  ~ completes_turn ev -> ~ runs_stopSession w ev ->
  text_kept u m log w -> text_kept u m log (step decode decodeAudioData w ev).
Proof.
  intros Hturn Hstop H. unfold step, exec.
  destruct ev;
    try (apply deliver_keeps;
         [discriminate | assumption | intros w0; simpl in *; tauto | assumption]).
  unfold deliver. rewrite bind_get. simpl in Hstop.
  destruct (status (app w)); try congruence; simpl.
  - apply startSession_keeps, H.
  - exact H.
  - apply startSession_keeps, H.
Qed.

Lemma event_cases (w : World) (ev : Event) :
  completes_turn ev \/ runs_stopSession w ev
  \/ (~ completes_turn ev /\ ~ runs_stopSession w ev).
Proof.
  destruct ev; simpl; try tauto.
  - destruct (status (app w)).
    + right. right. split; [tauto | discriminate].
    + right. right. split; [tauto | discriminate].
    + right. left. reflexivity.
    + right. right. split; [tauto | discriminate].
  - destruct (content_flag turnComplete m).
    + left. reflexivity.
    + right. right. split; [discriminate | tauto].
Qed.

(** C3, amended. An interruption leaves the component state alone: both
    accumulators keep their text and no entry is logged. An event that
    neither completes a turn nor runs [stopSession] can only extend an
    accumulator and leaves the log; so an accumulator that held text and is
    found empty was cleared by a turn completion or by [stopSession], each of
    which clears both. *)
Theorem partial_text_cleared_only_by :
  (forall w, app (exec interrupt w) = app w)
  /\ (forall w ev, ~ completes_turn ev -> ~ runs_stopSession w ev ->
        let w' := step decode decodeAudioData w ev in
        (exists s, liveUserText (app w') = liveUserText (app w) ++ s)
        /\ (exists s, liveModelText (app w') = liveModelText (app w) ++ s)
        /\ transcriptions (app w') = transcriptions (app w))
  /\ (forall w ev,
        let w' := step decode decodeAudioData w ev in
        (liveUserText (app w) <> [] /\ liveUserText (app w') = [])
        \/ (liveModelText (app w) <> [] /\ liveModelText (app w') = []) ->
        completes_turn ev \/ runs_stopSession w ev)
  /\ (forall w, let w' := exec finalizeTurn w in
        liveUserText (app w') = [] /\ liveModelText (app w') = [])
  /\ (forall w, let w' := exec stopSession w in
        liveUserText (app w') = [] /\ liveModelText (app w') = []).
Proof.
  split; [intros w; unfold exec; rewrite interrupt_exec; reflexivity|].
  split; [intros w ev Hturn Hstop; apply step_keeps_text; auto using text_kept_refl|].
  split.
  { intros w ev w' Hcleared.
    destruct (event_cases w ev) as [Ht|[Hs|[Ht Hs]]]; [tauto | tauto | exfalso].
    destruct (step_keeps_text _ _ _ w ev Ht Hs (text_kept_refl w)) as ([su Hu] & [sm Hm] & _).
    fold w' in Hu, Hm.
    destruct Hcleared as [[Hne He]|[Hne He]]; apply Hne.
    - rewrite He in Hu. symmetry in Hu. apply app_eq_nil in Hu. tauto.
    - rewrite He in Hm. symmetry in Hm. apply app_eq_nil in Hm. tauto. }
  split.
  - intros w. unfold exec. destruct (finalizeTurn_exec w) as (w' & -> & _ & Hu & Hm & _).
    split; assumption.
  - intros w. unfold exec. rewrite stopSession_exec. split; reflexivity.
Qed.

(** *** Transcription fragments *)

(** C10. A message that carries an output transcription and an input
    transcription appends the output fragment to the model accumulator and
    leaves the user accumulator; the whole callback runs as it would on the
    same message without its input transcription. *)
Theorem output_transcription_shadows_input
    (w : World) (msg : LiveServerMessage) (o i : Transcription) :
  content_field outputTranscription msg = Some o ->
  content_field inputTranscription msg = Some i ->
  let w' := exec (appendPartial msg) w in
  appendPartial msg w = (Normal tt, w')
  /\ liveModelText (app w') = concat_text (liveModelText (app w)) (transcription_text o)
  /\ liveUserText (app w') = liveUserText (app w)
  /\ onmessage decode decodeAudioData msg w
     = onmessage decode decodeAudioData (without_inputTranscription msg) w.
Proof.
  intros Ho Hi w'. subst w'. unfold exec. rewrite appendPartial_exec, Ho. cbn [snd].
  split; [reflexivity|]. split; [reflexivity|]. split; [reflexivity|].
  assert (Happend : appendPartial msg = appendPartial (without_inputTranscription msg)).
  { unfold appendPartial. rewrite Ho.
    destruct msg as [[sc|]]; [|discriminate].
    unfold content_field in *. simpl in *. rewrite Ho. reflexivity. }
  unfold onmessage. rewrite Happend.
  destruct msg as [[sc|]]; reflexivity.
Qed.

(** *** A single session *)

Lemma last_at {A} (l : list A) (f : nat) : S f = length l -> last l = l !! f.
Proof. intros H. rewrite last_lookup. f_equal. lia. Qed.

Lemma last_insert {A} (l : list A) (f : nat) (x : A) :
  S f = length l -> last (<[f := x]> l) = Some x.
Proof.
  intros H. rewrite last_lookup, length_insert.
  replace (pred (length l)) with f by lia. apply list_lookup_insert_eq. lia.
Qed.

Lemma lookup_alter_inv {A} (g : A -> A) (l : list A) (i j : nat) (y : A) :
  alter g i l !! j = Some y ->
  exists x, l !! j = Some x /\ ((i <> j /\ y = x) \/ (i = j /\ y = g x)).
Proof.
  rewrite list_lookup_alter. case_decide as Hij.
  - subst j. destruct (l !! i) as [x|]; [|discriminate]. simpl. intros [= <-]. eauto.
  - intros H. eauto.
Qed.

Lemma connected_close (s : Session) : connected (close_connection s) = false.
Proof. destruct s as [[] o p]; reflexivity. Qed.

Lemma lookup_close_referenced (sr : option nat) (ss : list Session) (j : nat) (y : Session) :
  close_referenced sr ss !! j = Some y ->
  exists x, ss !! j = Some x /\ ((sr <> Some j /\ y = x) \/ (sr = Some j /\ y = close_connection x)).
Proof.
  destruct sr as [c|]; simpl.
  - intros H. apply lookup_alter_inv in H as (x & Hx & [[Hne ->]|[-> ->]]); eauto.
    exists x. split; [exact Hx|]. left. split; [congruence | reflexivity].
  - intros H. exists y. split; [exact H|]. left. split; [discriminate | reflexivity].
Qed.

Lemma length_close_referenced (sr : option nat) (ss : list Session) :
  length (close_referenced sr ss) = length ss.
Proof. destruct sr; [apply length_alter | reflexivity]. Qed.

Lemma connecting_connected (s : Session) : connection s = Connecting -> connected s = true.
Proof. unfold connected. intros ->. reflexivity. Qed.

Lemma disconnected_not_connecting (s : Session) :
  connected s = false -> connection s <> Connecting.
Proof. unfold connected. intros H Hc. rewrite Hc in H. discriminate. Qed.

(** With no session connected the status only has to fit the latest call. *)
Lemma single_disconnected st sr cs ss :
  (forall c s, ss !! c = Some s -> connected s = false) ->
  st = IDLE \/ st = ERROR ->
  (forall c, last cs = Some (AwaitSession c) -> S c = length ss) ->
  last cs <> Some AwaitResume -> last cs <> Some AwaitUserMedia ->
  single_session_of st sr cs ss.
Proof.
  intros Hdis Hst H5 Hr Hu. split.
  - intros c s Hs Hc. rewrite (Hdis c s Hs) in Hc. discriminate.
  - intros _. exact Hdis.
  - intros ->. destruct Hst; discriminate.
  - exact H5.
  - intros [H|H]; contradiction.
  - intros c s Hs Hc. apply connecting_connected in Hc.
    rewrite (Hdis c s Hs) in Hc. discriminate.
  - intros c s Hs _. apply disconnected_not_connecting, (Hdis c s Hs).
Qed.

Lemma single_start st sr cs ss :
  single_session_of st sr cs ss -> st = IDLE \/ st = ERROR ->
  single_session_of CONNECTING sr (cs ++ [AwaitResume]) ss.
Proof.
  intros [J1 J3 J4 J5 J8 J9 J10] Hst. specialize (J3 Hst).
  split; rewrite ?last_snoc.
  - intros c s Hs Hc. rewrite (J3 c s Hs) in Hc. discriminate.
  - intros [|]; discriminate.
  - discriminate.
  - intros c; discriminate.
  - reflexivity.
  - intros c s Hs Hc. apply connecting_connected in Hc.
    rewrite (J3 c s Hs) in Hc. discriminate.
  - exact J10.
Qed.

Lemma single_stop sr cs ss :
  single_session_of ACTIVE sr cs ss -> ~ resolving cs ss ->
  single_session_of IDLE None cs (close_referenced sr ss).
Proof.
  intros [J1 J3 J4 J5 J8 J9 J10] Hres.
  destruct (J4 eq_refl) as [H|Href]; [contradiction|].
  apply single_disconnected.
  - intros c y Hy. apply lookup_close_referenced in Hy as (x & Hx & [[Hne ->]|[_ ->]]).
    + destruct (connected x) eqn:Hc; [|reflexivity].
      exfalso. apply Hne, (Href c x Hx Hc).
    + apply connected_close.
  - left. reflexivity.
  - intros c Hc. rewrite length_close_referenced. apply J5, Hc.
  - intros H. specialize (J8 (or_introl H)). discriminate.
  - intros H. specialize (J8 (or_intror H)). discriminate.
Qed.

(** Before the latest call has connected nothing is connected. *)
Lemma starting_disconnected st sr cs ss :
  single_session_of st sr cs ss ->
  last cs = Some AwaitResume \/ last cs = Some AwaitUserMedia ->
  forall c s, ss !! c = Some s -> connected s = false.
Proof.
  intros [J1 _ _ _ _ _ _] Hl c s Hs. destruct (connected s) eqn:Hc; [|reflexivity].
  destruct (J1 c s Hs Hc) as [_ [H|H]]; destruct Hl as [Hl|Hl]; congruence.
Qed.

Lemma single_resumed st sr cs ss f :
  single_session_of st sr cs ss -> S f = length cs -> cs !! f = Some AwaitResume ->
  single_session_of st sr (<[f := AwaitUserMedia]> cs) ss.
Proof.
  intros J Hf Hcall. rewrite <- (last_at _ _ Hf) in Hcall.
  pose proof (starting_disconnected _ _ _ _ J (or_introl Hcall)) as Hdis.
  destruct J as [J1 J3 J4 J5 J8 J9 J10]. specialize (J8 (or_introl Hcall)). subst st.
  split; rewrite ?(last_insert _ _ _ Hf).
  - intros c s Hs Hc. rewrite (Hdis c s Hs) in Hc. discriminate.
  - intros [|]; discriminate.
  - discriminate.
  - intros c; discriminate.
  - reflexivity.
  - intros c s Hs Hc. apply connecting_connected in Hc.
    rewrite (Hdis c s Hs) in Hc. discriminate.
  - exact J10.
Qed.

Lemma single_caught_early st sr cs ss f :
  single_session_of st sr cs ss -> S f = length cs ->
  cs !! f = Some AwaitResume \/ cs !! f = Some AwaitUserMedia ->
  single_session_of ERROR sr (<[f := Caught]> cs) ss.
Proof.
  intros J Hf Hcall. rewrite <- (last_at _ _ Hf) in Hcall.
  pose proof (starting_disconnected _ _ _ _ J Hcall) as Hdis.
  apply single_disconnected; rewrite ?(last_insert _ _ _ Hf);
    [exact Hdis | right; reflexivity | discriminate ..].
Qed.

Lemma single_stream st sr cs ss f p :
  single_session_of st sr cs ss -> S f = length cs -> cs !! f = Some AwaitUserMedia ->
  single_session_of st sr (<[f := AwaitSession (length ss)]> cs)
    (ss ++ [{| connection := Connecting; opened := false; session_processor := p |}]).
Proof.
  intros J Hf Hcall. rewrite <- (last_at _ _ Hf) in Hcall.
  pose proof (starting_disconnected _ _ _ _ J (or_intror Hcall)) as Hdis.
  destruct J as [J1 J3 J4 J5 J8 J9 J10]. specialize (J8 (or_intror Hcall)). subst st.
  assert (Hnew : forall c s,
            (ss ++ [{| connection := Connecting; opened := false; session_processor := p |}])
              !! c = Some s ->
            (ss !! c = Some s /\ connected s = false)
            \/ (c = length ss /\ opened s = false)).
  { intros c s Hs. apply lookup_snoc_Some in Hs as [[_ Hs]|[-> <-]]; [left|right; auto].
    split; [exact Hs | apply (Hdis c s Hs)]. }
  split; rewrite ?(last_insert _ _ _ Hf), ?length_app; simpl.
  - intros c s Hs Hc. destruct (Hnew c s Hs) as [[_ Hd]|[-> _]]; [congruence|].
    split; [lia | left; reflexivity].
  - intros [|]; discriminate.
  - discriminate.
  - intros c [= <-]. lia.
  - intros [|]; discriminate.
  - intros c s Hs Hc. destruct (Hnew c s Hs) as [[_ Hd]|[-> _]]; [|reflexivity].
    apply connecting_connected in Hc. congruence.
  - intros c s Hs Ho. destruct (Hnew c s Hs) as [[Hold _]|[_ Hno]]; [|congruence].
    apply (J10 c s Hold Ho).
Qed.

Lemma connected_mark (k : Connection) (o : bool) (s : Session) :
  connected (mark k o s) = match k with Connecting | Open => true | _ => false end.
Proof. destruct k; reflexivity. Qed.

Lemma single_opened st sr cs ss c s :
  single_session_of st sr cs ss -> ss !! c = Some s -> connection s = Connecting ->
  single_session_of ACTIVE sr cs (alter (mark Open true) c ss).
Proof.
  intros [J1 J3 J4 J5 J8 J9 J10] Hs Hc.
  pose proof (J9 c s Hs Hc) as Hlast.
  assert (Hold : forall c' y, alter (mark Open true) c ss !! c' = Some y ->
            exists x, ss !! c' = Some x
              /\ ((c <> c' /\ y = x) \/ (c = c' /\ y = mark Open true x))).
  { intros c' y. apply lookup_alter_inv. }
  split; rewrite ?length_alter.
  - intros c' y Hy Hcy. apply Hold in Hy as (x & Hx & [[_ ->]|[<- ->]]).
    + apply (J1 c' x Hx Hcy).
    + rewrite Hs in Hx. injection Hx as <-.
      apply (J1 c s Hs (connecting_connected s Hc)).
  - intros [|]; discriminate.
  - intros _. left. exists c, (mark Open true s). split; [exact Hlast|].
    split; [|reflexivity]. rewrite list_lookup_alter_eq, Hs. reflexivity.
  - exact J5.
  - intros [H|H]; congruence.
  - intros c' y Hy Hcy. apply Hold in Hy as (x & Hx & [[_ ->]|[_ ->]]).
    + apply (J9 c' x Hx Hcy).
    + discriminate.
  - intros c' y Hy Ho. apply Hold in Hy as (x & Hx & [[Hne ->]|[_ ->]]).
    + apply (J10 c' x Hx Ho).
    + discriminate.
Qed.

Lemma single_resolved st sr cs ss f c s :
  single_session_of st sr cs ss -> S f = length cs -> cs !! f = Some (AwaitSession c) ->
  ss !! c = Some s -> opened s = true ->
  single_session_of st (Some c) (<[f := Returned]> cs) ss.
Proof.
  intros [J1 J3 J4 J5 J8 J9 J10] Hf Hcall Hs Ho. rewrite <- (last_at _ _ Hf) in Hcall.
  split; rewrite ?(last_insert _ _ _ Hf).
  - intros c' y Hy Hc. split; [apply (J1 c' y Hy Hc) | right; reflexivity].
  - exact J3.
  - intros _. right. intros c' y Hy Hc.
    destruct (J1 c' y Hy Hc) as [Hlen _]. pose proof (J5 c Hcall). f_equal. lia.
  - intros c'; discriminate.
  - intros [|]; discriminate.
  - intros c' y Hy Hc. exfalso. pose proof (J9 c' y Hy Hc) as Hl.
    rewrite Hcall in Hl. injection Hl as ->. rewrite Hs in Hy. injection Hy as <-.
    apply (J10 c' s Hs Ho Hc).
  - exact J10.
Qed.

(** Once the session of the latest call is marked closing or closed, and the
    one referenced is closed, nothing is connected. *)
Lemma marked_disconnected st sr cs ss c k sr' :
  single_session_of st sr cs ss -> S c = length ss -> k = Closing \/ k = Closed ->
  forall c' y, close_referenced sr' (alter (mark k false) c ss) !! c' = Some y ->
               connected y = false.
Proof.
  intros [J1 _ _ _ _ _ _] Hc Hk c' y Hy.
  apply lookup_close_referenced in Hy as (x & Hx & [[_ ->]|[_ ->]]);
    [|apply connected_close].
  apply lookup_alter_inv in Hx as (z & Hz & [[Hne ->]|[_ ->]]).
  - destruct (connected z) eqn:Hcz; [|reflexivity].
    destruct (J1 c' z Hz Hcz) as [Hlen _]. exfalso. apply Hne. lia.
  - rewrite connected_mark. destruct Hk as [-> | ->]; reflexivity.
Qed.

Lemma single_rejected st sr cs ss f c :
  single_session_of st sr cs ss -> S f = length cs -> cs !! f = Some (AwaitSession c) ->
  single_session_of ERROR sr (<[f := Caught]> cs) (alter (mark Closed false) c ss).
Proof.
  intros J Hf Hcall. rewrite <- (last_at _ _ Hf) in Hcall.
  pose proof (awaited_is_latest _ _ _ _ J c Hcall) as Hc.
  apply single_disconnected; rewrite ?(last_insert _ _ _ Hf);
    [| right; reflexivity | discriminate ..].
  intros c' y Hy.
  apply (marked_disconnected _ _ _ _ c Closed None J Hc (or_intror eq_refl) c' y Hy).
Qed.

Lemma single_down st sr cs ss c k :
  single_session_of st sr cs ss -> S c = length ss ->
  last cs = Some (AwaitSession c) \/ last cs = Some Returned ->
  k = Closing \/ k = Closed ->
  single_session_of IDLE None cs (close_referenced sr (alter (mark k false) c ss)).
Proof.
  intros J Hc Hlast Hk.
  apply single_disconnected.
  - apply (marked_disconnected _ _ _ _ c k sr J Hc Hk).
  - left. reflexivity.
  - intros c' Hc'. rewrite length_close_referenced, length_alter.
    apply (awaited_is_latest _ _ _ _ J c' Hc').
  - destruct Hlast as [H|H]; congruence.
  - destruct Hlast as [H|H]; congruence.
Qed.

Lemma finalizeTurn_single : preserves single_session finalizeTurn.
Proof.
  intros w H. destruct (finalizeTurn_exec w) as (w' & -> & _ & _ & _ & Hst & _ & Hr & He).
  unfold single_session in *. cbn [snd]. rewrite Hst, Hr, He. exact H.
Qed.

Lemma onmessage_single (msg : LiveServerMessage) :
  preserves single_session (onmessage decode decodeAudioData msg).
Proof.
  pose proof finalizeTurn_single as Hf.
  unfold onmessage, interrupt, appendPartial, enqueue, setLiveUserText, setLiveModelText.
  frame; try exact Hf; assumption.
Qed.

Lemma startSession_core (w : World) :
  status (app (exec startSession w)) = CONNECTING
  /\ sessionRef (refs (exec startSession w)) = sessionRef (refs w)
  /\ calls (env (exec startSession w)) = calls (env w) ++ [AwaitResume]
  /\ sessions (env (exec startSession w)) = sessions (env w).
Proof.
  unfold exec, startSession, setStatus, setErrorMessage, when_, get, modify, mbind, mret,
    Eff_bind, Eff_ret.
  destruct w as [a [[ic|] [oc|] on src an man sr nst sp] e]; cbn; repeat split; reflexivity.
Qed.

Lemma ended_single (n : nat) :
  preserves single_session (deliver decode decodeAudioData (SourceEnded n)).
Proof. unfold deliver, onended. frame; assumption. Qed.

Lemma poll_single (avg_in avg_out : Q) :
  preserves single_session (deliver decode decodeAudioData (AnimationFrame avg_in avg_out)).
Proof. unfold deliver, poll, setUserVolume, setModelVolume. frame; assumption. Qed.

(** An orderly delivery keeps the invariant. *)
Lemma step_single_session (w : World) (ev : Event) :
  orderly w ev -> single_session w -> single_session (step decode decodeAudioData w ev).
Proof.
  intros Hord J. unfold step, exec.
  destruct ev; simpl in Hord.
  - (* Click *)
    unfold deliver. rewrite bind_get.
    destruct (status (app w)) eqn:Hst; simpl.
    + destruct (startSession_core w) as (H1 & H2 & H3 & H4).
      unfold single_session, exec in *. rewrite H1, H2, H3, H4.
      apply (single_start IDLE); [rewrite <- Hst; exact J | left; reflexivity].
    + exact J.
    + rewrite stopSession_exec. unfold single_session in *. cbn.
      rewrite Hst in J. apply single_stop; assumption.
    + destruct (startSession_core w) as (H1 & H2 & H3 & H4).
      unfold single_session, exec in *. rewrite H1, H2, H3, H4.
      apply (single_start ERROR); [rewrite <- Hst; exact J | right; reflexivity].
  - (* ContextsResumed *)
    unfold deliver. rewrite bind_get.
    destruct (calls (env w) !! f) as [[]|] eqn:Hcall; try exact J.
    destruct ok; unfold single_session in *; cbn.
    + apply single_resumed; assumption.
    + eapply single_caught_early; [exact J | exact Hord | auto].
  - (* UserMedia *)
    unfold deliver. rewrite bind_get.
    destruct (calls (env w) !! f) as [[]|] eqn:Hcall; try exact J.
    destruct granted; unfold single_session in *; cbn.
    + apply single_stream; assumption.
    + eapply single_caught_early; [exact J | exact Hord | auto].
  - (* SocketOpened *)
    unfold deliver. rewrite bind_get.
    destruct (sessions (env w) !! c) as [s|] eqn:Hs; [|exact J]. simpl.
    destruct (connection s) eqn:Hc; try exact J.
    unfold single_session in *. unfold onopen, set_connection, setStatus, get, modify,
      mbind, mret, Eff_bind, Eff_ret. cbn.
    rewrite list_lookup_alter_eq, Hs. cbn.
    apply (single_opened _ _ _ _ c s J Hs Hc).
  - (* SessionResolved *)
    unfold deliver. rewrite bind_get.
    destruct (calls (env w) !! f) as [[| |c| |]|] eqn:Hcall; try exact J.
    destruct (sessions (env w) !! c) as [s|] eqn:Hs; [|exact J]. simpl.
    destruct (opened s) eqn:Ho; [|exact J].
    unfold single_session in *. cbn.
    apply (single_resolved _ _ _ _ f c s J Hord Hcall Hs Ho).
  - (* SessionRejected *)
    unfold deliver. rewrite bind_get.
    destruct (calls (env w) !! f) as [[| |c| |]|] eqn:Hcall; try exact J.
    destruct (sessions (env w) !! c) as [s|] eqn:Hs; [|exact J]. simpl.
    destruct (opened s) eqn:Ho; [exact J|].
    unfold single_session in *. cbn.
    apply (single_rejected _ _ _ _ f c J Hord Hcall).
  - (* Message *)
    unfold deliver. rewrite bind_get.
    destruct (connection <$> sessions (env w) !! c) as [[]|]; try exact J.
    apply onmessage_single, J.
  - (* SocketError *)
    unfold deliver. rewrite bind_get. destruct Hord as [Hc Hlast].
    destruct (sessions (env w) !! c) as [s|] eqn:Hs; [|exact J]. simpl.
    destruct (connection s) eqn:Hk; try exact J.
    all: unfold set_connection, modify, mbind, Eff_bind; rewrite onerror_exec.
    all: unfold single_session in *; cbn.
    all: apply (single_down _ _ _ _ c Closing J Hc Hlast (or_introl eq_refl)).
  - (* SocketClosed *)
    unfold deliver. rewrite bind_get. destruct Hord as [Hc Hlast].
    destruct (sessions (env w) !! c) as [s|] eqn:Hs; [|exact J]. simpl.
    destruct (connection s) eqn:Hk; try exact J.
    all: unfold set_connection, onclose, modify, mbind, Eff_bind; rewrite stopSession_exec.
    all: unfold single_session in *; cbn.
    all: apply (single_down _ _ _ _ c Closed J Hc Hlast (or_intror eq_refl)).
  - apply ended_single, J.
  - apply poll_single, J.
  - exact J.
  - exact J.
  - exact J.
  - exact J.
Qed.

Lemma mounted_single (now : Z) : single_session (mounted now).
Proof.
  apply single_disconnected; simpl.
  - intros c s Hs. destruct c; discriminate.
  - left. reflexivity.
  - intros c; discriminate.
  - discriminate.
  - discriminate.
Qed.

Lemma run_single (evs : list Event) (w : World) :
  orderly_run decode decodeAudioData evs w -> single_session w ->
  single_session (run decode decodeAudioData evs w).
Proof.
  revert w. induction evs as [|ev evs IH]; intros w Hord J; [exact J|].
  destruct Hord as [Hev Hrest]. simpl. apply IH; [exact Hrest|].
  apply step_single_session; assumption.
Qed.

Lemma filter_none {A} (P : A -> Prop) `{forall x, Decision (P x)} (l : list A) :
  (forall c s, l !! c = Some s -> ~ P s) -> filter P l = [].
Proof.
  induction l as [|x l IH]; intros Hl; [reflexivity|].
  rewrite filter_cons. destruct (decide (P x)) as [Hx|_].
  - exfalso. apply (Hl 0%nat x eq_refl Hx).
  - apply IH. intros c s Hs. apply (Hl (S c) s Hs).
Qed.

Lemma filter_only_last {A} (P : A -> Prop) `{forall x, Decision (P x)} (l : list A) :
  (forall c s, l !! c = Some s -> P s -> S c = length l) ->
  (length (filter P l) <= 1)%nat.
Proof.
  induction l as [|x0 l _] using rev_ind; intros Hl; [simpl; lia|].
  rewrite filter_app, length_app, (filter_none P l).
  - rewrite filter_cons. destruct (decide (P x0)); simpl; lia.
  - intros c s Hs HP.
    assert (Hlt : (c < length l)%nat) by (apply lookup_lt_Some in Hs; exact Hs).
    specialize (Hl c s). rewrite lookup_app_l in Hl by exact Hlt.
    specialize (Hl Hs HP). rewrite length_app in Hl. simpl in Hl. lia.
Qed.

Lemma live_connected (s : Session) : live s = true -> connected s = true.
Proof. destruct s as [[] o p]; unfold live, connected; simpl; congruence. Qed.

Lemma single_live (w : World) : single_session w -> (length (live_sessions w) <= 1)%nat.
Proof.
  intros [J1 _ _ _ _ _ _]. unfold live_sessions. apply filter_only_last.
  intros c s Hs Hl. apply (J1 c s Hs (live_connected s Hl)).
Qed.

(** *** The start button *)

(** The start of a session is gated by the button, on the status: while
    the status is [CONNECTING] a click changes nothing, while it is [ACTIVE]
    the button that is rendered runs [stopSession], and in [IDLE] and [ERROR]
    a click runs [startSession]. [startSession] itself makes no check:
    whatever the world, it sets the status to [CONNECTING] and begins a new
    call. Along the orderly runs from the mounted component at most one
    session is connected, so at most one is live; a run on which a close
    event arrives late is not orderly, and the button does not keep a second
    session from being started on it, see [restart_race]. *)
Lemma single_session_by_gate (w : World) (evs : list Event) (now : Z) :
  (status (app w) = CONNECTING -> deliver decode decodeAudioData Click w = (Normal tt, w))
  /\ (status (app w) = ACTIVE -> deliver decode decodeAudioData Click w = stopSession w)
  /\ (status (app w) = IDLE \/ status (app w) = ERROR ->
      deliver decode decodeAudioData Click w = startSession w)
  /\ fst (startSession w) = Normal tt
  /\ status (app (exec startSession w)) = CONNECTING
  /\ calls (env (exec startSession w)) = calls (env w) ++ [AwaitResume]
  /\ (orderly_run decode decodeAudioData evs (mounted now) ->
      let w' := run decode decodeAudioData evs (mounted now) in
      (forall c d s t, sessions (env w') !! c = Some s -> sessions (env w') !! d = Some t ->
         connected s = true -> connected t = true -> c = d)
      /\ (length (live_sessions w') <= 1)%nat).
Proof.
  split; [unfold deliver; rewrite bind_get; intros ->; reflexivity|].
  split; [unfold deliver; rewrite bind_get; intros ->; reflexivity|].
  split; [unfold deliver; rewrite bind_get; intros [-> | ->]; reflexivity|].
  split.
  { unfold startSession, setStatus, setErrorMessage, when_, get, modify, mbind, mret,
      Eff_bind, Eff_ret.
    destruct w as [a [[ic|] [oc|] on src an man sr nst sp] e]; reflexivity. }
  destruct (startSession_core w) as (Hst & _ & Hcalls & _).
  split; [exact Hst|]. split; [exact Hcalls|].
  intros Hord w'.
  pose proof (run_single evs (mounted now) Hord (mounted_single now)) as J. fold w' in J.
  split; [|apply single_live, J].
  intros c d s t Hs Ht Hcs Hct.
  destruct (connected_is_latest _ _ _ _ J c s Hs Hcs) as [Hc _].
  destruct (connected_is_latest _ _ _ _ J d t Ht Hct) as [Hd _]. lia.
Qed.

End Properties.

(** *** The PCM frame codec *)

Lemma Z_of_byte_of_Z (v : Z) : Codec.Z_of_byte (Codec.byte_of_Z v) = (v mod 256)%Z.
Proof.
  unfold Codec.Z_of_byte, Codec.byte_of_Z.
  pose proof (Z.mod_pos_bound v 256 eq_refl) as Hb.
  pose proof (Byte.to_of_N_option_map (Z.to_N (v mod 256))) as H.
  destruct (Byte.of_N (Z.to_N (v mod 256))) as [b|]; simpl in *.
  - destruct (Z.to_N (v mod 256) <=? 255)%N; [|discriminate].
    injection H as ->. apply Z2N.id. lia.
  - destruct (Z.to_N (v mod 256) <=? 255)%N eqn:E; [discriminate|].
    apply N.leb_gt in E. lia.
Qed.

Lemma int16_bytes_inv (v : Z) :
  (-32768 <= v <= 32767)%Z ->
  exists lo hi, Codec.int16_bytes v = [lo; hi] /\ Codec.int16_of_bytes lo hi = v.
Proof.
  intros Hv. unfold Codec.int16_bytes. eexists _, _. split; [reflexivity|].
  unfold Codec.int16_of_bytes. rewrite !Z_of_byte_of_Z.
  pose proof (Z.mod_pos_bound v 65536 eq_refl) as Hu.
  set (u := (v mod 65536)%Z) in *.
  assert (Hhi : ((u / 256) mod 256 = u / 256)%Z).
  { apply Z.mod_small. split; [apply Z.div_pos; lia | apply Z.div_lt_upper_bound; lia]. }
  rewrite Hhi.
  assert (Hsum : (u mod 256 + 256 * (u / 256) = u)%Z).
  { pose proof (Z.div_mod u 256). lia. }
  rewrite Hsum.
  assert (Hcase : (0 <= v /\ u = v)%Z \/ (v < 0 /\ u = v + 65536)%Z).
  { destruct (Z_lt_le_dec v 0) as [Hneg|Hpos].
    - right. split; [exact Hneg|]. subst u.
      rewrite <- (Z.mod_add v 1 65536) by lia. apply Z.mod_small. lia.
    - left. split; [exact Hpos|]. subst u. apply Z.mod_small. lia. }
  destruct (u <? 32768)%Z eqn:E; [apply Z.ltb_lt in E | apply Z.ltb_ge in E]; lia.
Qed.

Lemma to_int16_range (x : Q) : (-32768 <= Codec.to_int16 x <= 32767)%Z.
Proof. unfold Codec.to_int16, Codec.clamp. lia. Qed.

Lemma to_int16_error (x : Q) :
  -1 <= x <= 1 -> Qabs (inject_Z (Codec.to_int16 x) / 32768 - x) <= 1 # 32768.
Proof.
  intros [Hlo Hhi]. apply Qabs_Qle_condition.
  unfold Codec.to_int16, Codec.Qtruncate, Codec.clamp, Qdiv.
  change (/ 32768) with (1 # 32768).
  set (y := x * 32768).
  destruct (Qle_bool 0 y) eqn:Hsign.
  - apply Qle_bool_iff in Hsign.
    pose proof (Qfloor_le y) as Hfl. pose proof (Qlt_floor y) as Hfu.
    assert (H0 : (0 <= Qfloor y)%Z).
    { rewrite <- (Qfloor_Z 0). apply Qfloor_resp_le, Hsign. }
    assert (H1 : (Qfloor y <= 32768)%Z).
    { rewrite <- (Qfloor_Z 32768). apply Qfloor_resp_le. unfold y.
      change (inject_Z 32768) with 32768. lra. }
    rewrite inject_Z_plus in Hfu. change (inject_Z 1) with 1 in Hfu.
    destruct (Z.eq_dec (Qfloor y) 32768%Z) as [He|Hne].
    + rewrite He in *. change (inject_Z (Z.max (-32768) (Z.min 32767 32768))) with 32767.
      change (inject_Z 32768) with 32768 in *. unfold y in *. split; lra.
    + replace (Z.max (-32768) (Z.min 32767 (Qfloor y))) with (Qfloor y) by lia.
      unfold y in *. split; lra.
  - assert (Hneg : y < 0).
    { apply Qnot_le_lt. intros H. apply Qle_bool_iff in H. congruence. }
    pose proof (Qle_ceiling y) as Hcl. pose proof (Qceiling_lt y) as Hcu.
    assert (H0 : (Qceiling y <= 0)%Z).
    { rewrite <- (Qceiling_Z 0). apply Qceiling_resp_le. apply Qlt_le_weak, Hneg. }
    assert (H1 : (-32768 <= Qceiling y)%Z).
    { rewrite <- (Qceiling_Z (-32768)). apply Qceiling_resp_le. unfold y.
      change (inject_Z (-32768)) with (-32768). lra. }
    unfold Z.sub in Hcu. rewrite inject_Z_plus, inject_Z_opp in Hcu.
    change (inject_Z 1) with 1 in Hcu.
    replace (Z.max (-32768) (Z.min 32767 (Qceiling y))) with (Qceiling y) by lia.
    unfold y in *. split; lra.
Qed.

Lemma int16_samples_encode (samples : list Q) :
  Codec.int16_samples (Codec.encode samples) = Some (map Codec.to_int16 samples).
Proof.
  induction samples as [|x xs IH]; [reflexivity|].
  unfold Codec.encode in *. cbn [flat_map].
  destruct (int16_bytes_inv (Codec.to_int16 x) (to_int16_range x)) as (lo & hi & -> & Hv).
  set (rest := flat_map _ xs) in *.
  change (Codec.int16_samples ([lo; hi] ++ rest))
    with (cons (Codec.int16_of_bytes lo hi) <$> Codec.int16_samples rest).
  rewrite IH, Hv. reflexivity.
Qed.

Lemma int16_samples_parity (payload : list byte) :
  (Codec.int16_samples payload = None <-> Nat.odd (length payload) = true)
  /\ (forall b, Codec.int16_samples (b :: payload) = None
                <-> Nat.odd (length (b :: payload)) = true).
Proof.
  induction payload as [|c payload [IH1 IH2]].
  - split; [split; discriminate | intros b; split; reflexivity].
  - split; [apply IH2|]. intros b.
    change (Codec.int16_samples (b :: c :: payload))
      with (cons (Codec.int16_of_bytes b c) <$> Codec.int16_samples payload).
    change (Nat.odd (length (b :: c :: payload))) with (Nat.odd (length payload)).
    rewrite <- IH1. destruct (Codec.int16_samples payload); simpl; split; congruence.
Qed.

Lemma decode_encode (samples : list Q) (rate channels : positive) :
  samples <> [] ->
  Codec.decodeAudioData (Codec.encode samples) rate channels
  = Normal {| channelData := map (fun x => inject_Z (Codec.to_int16 x) / 32768) samples;
              sampleRate := rate |}.
Proof.
  intros Hne. unfold Codec.decodeAudioData. rewrite int16_samples_encode, map_map.
  destruct samples as [|x xs]; [congruence|].
  unfold Codec.encode. cbn [flat_map].
  destruct (int16_bytes_inv (Codec.to_int16 x) (to_int16_range x)) as (lo & hi & -> & _).
  reflexivity.
Qed.

(** C7. Encoding a sequence of samples of [-1, 1] that is not empty and
    decoding the payload gives a buffer of as many samples, each within one
    step of the 16-bit grid (1/32768) of the original. Decoding fails on a
    payload of odd length and on the empty payload, with [CodecError], and on
    no other payload. *)
Theorem codec_round_trip (samples : list Q) (rate channels : positive) :
  samples <> [] ->
  Forall (fun x => -1 <= x <= 1) samples ->
  (exists decoded,
     Codec.decodeAudioData (Codec.encode samples) rate channels
     = Normal {| channelData := decoded; sampleRate := rate |}
     /\ Forall2 (fun x y => Qabs (y - x) <= 1 # 32768) samples decoded)
  /\ (forall payload, Nat.odd (length payload) = true ->
        Codec.decodeAudioData payload rate channels = Throw CodecError)
  /\ Codec.decodeAudioData [] rate channels = Throw CodecError
  /\ (forall payload e, Codec.decodeAudioData payload rate channels = Throw e ->
        e = CodecError /\ (payload = [] \/ Nat.odd (length payload) = true)).
Proof.
  intros Hne Hrange. split.
  { eexists. split; [apply decode_encode, Hne|].
    clear Hne. induction Hrange as [|x xs Hx _ IH]; simpl; constructor.
    - apply to_int16_error, Hx.
    - exact IH. }
  split.
  { intros payload Hodd. unfold Codec.decodeAudioData.
    destruct payload as [|b payload]; [reflexivity|].
    apply (int16_samples_parity (b :: payload)) in Hodd. rewrite Hodd. reflexivity. }
  split; [reflexivity|].
  intros payload e He. unfold Codec.decodeAudioData in He.
  destruct payload as [|b payload]; [injection He as <-; auto|].
  destruct (Codec.int16_samples (b :: payload)) eqn:Hs; [discriminate|].
  injection He as <-. split; [reflexivity|]. right.
  apply (int16_samples_parity (b :: payload)), Hs.
Qed.

(** ** Instances *)

Lemma enqueue_back_to_back_witness :
  outputAudioContextRef (refs active_world) = Some {| ctx_state := running; currentTime := 0 |}
  /\ bytes_of (js "abcd") = Normal abcd_bytes
  /\ Codec.decodeAudioData abcd_bytes 24000 1 = Normal abcd_buffer
  /\ nodes (env (exec (enqueue bytes_of Codec.decodeAudioData (audio_part "abcd")) active_world))
      = [{| node_buffer := abcd_buffer; node_playback := Started (Qmax 0 0) |}]
  /\ nextStartTimeRef
       (refs (exec (enqueue bytes_of Codec.decodeAudioData (audio_part "abcd")) active_world))
      = Qmax 0 0 + duration abcd_buffer.
Proof.
  split; [reflexivity|]. split; [reflexivity|]. split; [reflexivity|].
  destruct (enqueue_back_to_back bytes_of Codec.decodeAudioData) as [H _].
  destruct (H active_world (audio_part "abcd") (js "abcd")
              {| ctx_state := running; currentTime := 0 |} abcd_bytes abcd_buffer)
    as (_ & Hn & Ht & _); try reflexivity.
  split; [exact Hn | exact Ht].
Defined.

Lemma interrupt_flushes_witness :
  outputAudioContextRef (refs playing_world) = Some {| ctx_state := running; currentTime := 0 |}
  /\ sourcesRef (refs (exec interrupt playing_world)) = ∅
  /\ nextStartTimeRef (refs (exec interrupt playing_world)) == 0
  /\ sourcesRef (refs (play [SourceEnded 0; SourceEnded 0] (exec interrupt playing_world))) = ∅.
Proof.
  split; [reflexivity|].
  destruct (interrupt_flushes bytes_of Codec.decodeAudioData playing_world
              {| ctx_state := running; currentTime := 0 |} [0; 0]%nat eq_refl)
    as (_ & _ & _ & Hs & Ht & Hs' & _).
  split; [exact Hs|]. split; [exact Ht | exact Hs'].
Defined.

Lemma output_transcription_shadows_input_witness :
  content_field outputTranscription (bothTexts "yes" "no")
    = Some {| transcription_text := Some (js "yes") |}
  /\ content_field inputTranscription (bothTexts "yes" "no")
      = Some {| transcription_text := Some (js "no") |}
  /\ liveModelText (app (exec (appendPartial (bothTexts "yes" "no")) active_world)) = js "yes"
  /\ liveUserText (app (exec (appendPartial (bothTexts "yes" "no")) active_world)) = [].
Proof.
  split; [reflexivity|]. split; [reflexivity|].
  destruct (output_transcription_shadows_input bytes_of Codec.decodeAudioData active_world
              (bothTexts "yes" "no") _ _ eq_refl eq_refl) as (_ & Hm & Hu & _).
  split; [exact Hm | exact Hu].
Defined.

Lemma codec_round_trip_witness :
  [1; -(1); 1 # 3] <> []
  /\ Forall (fun x => -1 <= x <= 1) [1; -(1); 1 # 3]
  /\ exists decoded,
       Codec.decodeAudioData (Codec.encode [1; -(1); 1 # 3]) 24000 1
       = Normal {| channelData := decoded; sampleRate := 24000 |}
       /\ Forall2 (fun x y => Qabs (y - x) <= 1 # 32768) [1; -(1); 1 # 3] decoded.
Proof.
  assert (Hne : [1; -(1); 1 # 3] <> []) by discriminate.
  assert (Hrange : Forall (fun x => -1 <= x <= 1) [1; -(1); 1 # 3]).
  { repeat constructor; unfold Qle; simpl; lia. }
  split; [exact Hne|]. split; [exact Hrange|].
  exact (proj1 (codec_round_trip [1; -(1); 1 # 3] 24000 1 Hne Hrange)).
Defined.

Lemma partial_text_cleared_only_by_witness :
  ~ completes_turn (Message 0 interruptedMsg)
  /\ ~ runs_stopSession hi_world (Message 0 interruptedMsg)
  /\ (exists s, liveModelText (app interrupted_world) = js "hi" ++ s)
  /\ transcriptions (app interrupted_world) = [].
Proof.
  assert (Hturn : ~ completes_turn (Message 0 interruptedMsg)) by (simpl; discriminate).
  assert (Hstop : ~ runs_stopSession hi_world (Message 0 interruptedMsg)) by (simpl; tauto).
  split; [exact Hturn|]. split; [exact Hstop|].
  destruct (partial_text_cleared_only_by bytes_of Codec.decodeAudioData) as (_ & H & _).
  destruct (H hi_world (Message 0 interruptedMsg) Hturn Hstop) as (_ & Hm & Hl).
  split; [exact Hm | exact Hl].
Defined.

Lemma error_paths_witness :
  sessionRef (refs active_world) = Some 0%nat
  /\ sessions (env active_world) !! 0%nat
      = Some {| connection := Open; opened := true; session_processor := 0 |}
  /\ status (app (exec onerror active_world)) = IDLE
  /\ status (app (exec (startSession_stream 0 false) active_world)) = ERROR
  /\ exists s', sessions (env (exec onerror active_world)) !! 0%nat = Some s' /\ live s' = false.
Proof.
  split; [reflexivity|]. split; [reflexivity|].
  destruct (error_paths active_world 0)
    as (_ & He & _ & _ & _ & _ & _ & _ & _ & Hi & _ & _ & (_ & _ & _ & Hs & _) & _).
  split; [exact Hi|]. split; [exact He|].
  exact (Hs 0%nat _ eq_refl eq_refl).
Defined.

Lemma stopSession_teardown_witness :
  sessionRef (refs playing_world) = Some 0%nat
  /\ 0%nat ∈ sourcesRef (refs playing_world)
  /\ nodes (env playing_world) !! 0%nat
      = Some {| node_buffer := abcd_buffer; node_playback := Started 0 |}
  /\ status (app (exec stopSession playing_world)) = IDLE
  /\ exists n', nodes (env (exec stopSession playing_world)) !! 0%nat = Some n'
                 /\ playing n' = false.
Proof.
  assert (Hel : elements (sourcesRef (refs playing_world)) = [0%nat])
    by (vm_compute; reflexivity).
  assert (Hin : 0%nat ∈ sourcesRef (refs playing_world)).
  { apply elem_of_elements. rewrite Hel. left. }
  assert (Hnode : nodes (env playing_world) !! 0%nat
                  = Some {| node_buffer := abcd_buffer; node_playback := Started 0 |})
    by (vm_compute; reflexivity).
  split; [vm_compute; reflexivity|]. split; [exact Hin|]. split; [exact Hnode|].
  destruct (stopSession_teardown playing_world)
    as (_ & Hi & _ & (_ & _ & _ & _ & _ & Hn) & _).
  split; [exact Hi|].
  exact (Hn 0%nat _ Hin Hnode).
Defined.

(** ** Scenarios *)

(** Two chunks that arrive back to back: the second unit starts where the
    first ends. *)
Example back_to_back_chunks :
  (fun n => (start_time n, end_time n))
    <$> nodes (env (play [Message 0 (audioChunk "abcd"); Message 0 (audioChunk "abcdef")]
                      active_world))
  = [(0, 0 + (2 # 24000)); (0 + (2 # 24000), 0 + (2 # 24000) + (3 # 24000))].
Proof. reflexivity. Qed.

(** The fragments "hel" and "lo" of the user and a turn completion that
    arrives after React has settled, so that the updaters run at the call:
    one entry "hello" and two empty accumulators. *)
Example hello_turn :
  app (play [Settled; Message 0 turnCompleteMsg] hello_world)
  = {| status := ACTIVE;
       transcriptions := [{| role := user; text := js "hello"; timestamp := 0 |}];
       liveUserText := []; liveModelText := [];
       userVolume := 0; modelVolume := 0; errorMessage := None |}.
Proof. reflexivity. Qed.

(** Sixteen turns: the log holds the last fifteen, in order, the entry of the
    first turn having left. *)
Example sixteenth_turn_evicts_first :
  timestamp <$> transcriptions (app (play (many_turns 16) (mounted 0)))
  = [2; 3; 4; 5; 6; 7; 8; 9; 10; 11; 12; 13; 14; 15; 16]%Z.
Proof. vm_compute. reflexivity. Qed.

(** Fragments received before an interruption stay in the accumulator: what
    follows is appended to them, and the page shows the whole. *)
Example text_across_interruption :
  transcript_pane (app (play [Message 0 (partialText model " there")] interrupted_world))
  = [Synthesizing (js "hi there")].
Proof. reflexivity. Qed.

(** ** Where the code departs from the specification *)

(** C3. An interruption does not clear the accumulators: the model's "hi"
    is still there after it, and still on the page. *)
Lemma interruption_keeps_partial_text :
  liveModelText (app interrupted_world) = js "hi"
  /\ liveModelText (app interrupted_world) <> []
  /\ transcript_pane (app interrupted_world) = [Synthesizing (js "hi")].
Proof.
  split; [reflexivity|]. split; [discriminate|]. reflexivity.
Qed.

(** C4. The turn completion loses entries. The session is brought up, the
    user's "hel" and "lo" arrive and then the turn completion: both
    accumulators are cleared and the log is still empty, the updater of line
    153 being run by React when it renders, and the pushes of lines 155-162
    after line 163 has read [newEntries]. With text of both roles the log
    never receives both entries: none while work is marked on the component,
    and the user's entry alone when React runs the updater at the call, the
    model's text being cleared all the same. *)
Lemma turn_completion_loses_entries :
  liveUserText (app hello_world) = js "hello"
  /\ app (play [Message 0 turnCompleteMsg] hello_world)
     = {| status := ACTIVE; transcriptions := [];
          liveUserText := []; liveModelText := [];
          userVolume := 0; modelVolume := 0; errorMessage := None |}
  /\ turn_entries 0 (liveUserText (app dialogue_world)) (liveModelText (app dialogue_world))
     = [{| role := user; text := js "hi"; timestamp := 0 |};
        {| role := model; text := js "yo"; timestamp := 0 |}]
  /\ app (play [Message 0 turnCompleteMsg] dialogue_world)
     = {| status := ACTIVE; transcriptions := [];
          liveUserText := []; liveModelText := [];
          userVolume := 0; modelVolume := 0; errorMessage := None |}
  /\ app (play [Settled; Message 0 turnCompleteMsg] dialogue_world)
     = {| status := ACTIVE;
          transcriptions := [{| role := user; text := js "hi"; timestamp := 0 |}];
          liveUserText := []; liveModelText := [];
          userVolume := 0; modelVolume := 0; errorMessage := None |}.
Proof.
  split; [reflexivity|]. split; [reflexivity|]. split; [reflexivity|].
  split; reflexivity.
Qed.

(** C6. A transport error on the active session ends in [IDLE], not in
    [ERROR]. *)
Lemma transport_error_ends_idle :
  status (app active_world) = ACTIVE
  /\ status (app (play [SocketError 0] active_world)) = IDLE
  /\ status (app (play [SocketError 0] active_world)) <> ERROR
  /\ errorMessage (app (play [SocketError 0] active_world))
      = Some "SUPRA neural link disrupted."%string.
Proof.
  split; [reflexivity|]. split; [reflexivity|]. split; [discriminate|]. reflexivity.
Qed.

(** C9. After [stopSession] on the active session both audio contexts are
    still allocated and running, and the media stream of the session is
    still open: not everything acquired has been released. *)
Lemma stopSession_keeps_audio_graph :
  inputAudioContextRef (refs (exec stopSession active_world))
    = Some {| ctx_state := running; currentTime := 0 |}
  /\ outputAudioContextRef (refs (exec stopSession active_world))
      = Some {| ctx_state := running; currentTime := 0 |}
  /\ streams (env (exec stopSession active_world)) = 1%nat
  /\ ~ all_released (exec stopSession active_world).
Proof.
  split; [reflexivity|]. split; [reflexivity|]. split; [reflexivity|].
  intros (_ & _ & _ & _ & H & _). discriminate H.
Qed.

(** C8. A second session does get created through the button. The close
    event of a session that was stopped arrives while its successor is
    connecting: [onclose] runs [stopSession], which puts the status back to
    [IDLE] with the connection pending; the start button is offered, a click
    on it starts a third session, and once both sockets open two sessions are
    live, each fed by its own connected capture processor, only the later
    one being referenced. *)
Lemma restart_leaves_two_sessions :
  status (app (play stale_close (mounted 0))) = IDLE
  /\ calls (env (play stale_close (mounted 0))) = [Returned; AwaitSession 1]
  /\ render_button (status (app (play stale_close (mounted 0)))) = BootEngine false
  /\ live_sessions (play restart_race (mounted 0))
      = [{| connection := Open; opened := true; session_processor := 1 |};
         {| connection := Open; opened := true; session_processor := 2 |}]
  /\ processors (env (play restart_race (mounted 0)))
      = [{| onaudioprocess := Some 0%nat; sp_connected := false |};
         {| onaudioprocess := Some 1%nat; sp_connected := true |};
         {| onaudioprocess := Some 2%nat; sp_connected := true |}]
  /\ sessionRef (refs (play restart_race (mounted 0))) = Some 2%nat.
Proof.
  split; [reflexivity|]. split; [reflexivity|]. split; [reflexivity|].
  split; [reflexivity|]. split; reflexivity.
Qed.

(** ** Invariants of the mounted component *)

Section Reach.

Variable decode : jsstring -> Completion (list byte).
Variable decodeAudioData : list byte -> positive -> positive -> Completion AudioBuffer.

(** A property of the world that every step keeps holds after every run. *)
Lemma run_invariant (P : World -> Prop) :
  (forall w ev, P w -> P (step decode decodeAudioData w ev)) ->
  forall evs w, P w -> P (run decode decodeAudioData evs w).
Proof.
  intros Hstep evs. induction evs as [|ev evs IH]; intros w H; [exact H|].
  simpl. apply IH, Hstep, H.
Qed.

(** *** The log *)

(** A property of the log that a turn completion keeps is kept by every
    callback. *)
Lemma deliver_log (P : list TranscriptionEntry -> Z -> Prop) (ev : Event) :
  (forall w, P (transcriptions (app w)) (dateNow (env w)) ->
     P (transcriptions (app (exec finalizeTurn w))) (dateNow (env w))) ->
  (forall log now ms, ev = WallClock ms -> P log now -> P log ms) ->
  preserves (fun w => P (transcriptions (app w)) (dateNow (env w)))
    (deliver decode decodeAudioData ev).
Proof.
  intros Hturn Hclock.
  assert (Hf : preserves (fun w => P (transcriptions (app w)) (dateNow (env w))) finalizeTurn).
  { intros w H. specialize (Hturn w H). unfold exec in Hturn.
    destruct (finalizeTurn_exec w) as (w' & He & _ & _ & _ & _ & _ & _ & Henv).
    rewrite He in *. cbn [snd] in *. rewrite Henv. exact Hturn. }
  unfold deliver, click, onclose, onerror, onmessage, interrupt, appendPartial, enqueue,
    onended, poll, onopen, startSession_connected, startSession_stream,
    startSession_resumed, startSession_catch, startSession, stopSession, set_connection,
    set_call, session_close, processor_disconnect,
    setStatus, setErrorMessage, setUserVolume, setModelVolume, setLiveUserText,
    setLiveModelText.
  destruct ev; frame; try exact Hf; try (intros ? ?); simpl in *; auto.
  eapply Hclock; [reflexivity | eassumption].
Qed.

Lemma turn_entries_not_blank now u m :
  Forall (fun e => blank (text e) = false) (turn_entries now u m).
Proof.
  unfold turn_entries. rewrite !truthy_trim. apply Forall_app. split.
  - destruct (blank u) eqn:E; simpl; constructor; [exact E | constructor].
  - destruct (blank m) eqn:E; simpl; constructor; [exact E | constructor].
Qed.

Lemma turn_entries_timestamp now u m :
  Forall (fun e => timestamp e = now) (turn_entries now u m).
Proof.
  unfold turn_entries. apply Forall_app. split.
  - destruct (truthy (trim u)); repeat constructor.
  - destruct (truthy (trim m)); repeat constructor.
Qed.

(** What line 163 finds in [newEntries] is among what lines 155-162 push. *)
Lemma logged_entries_among (P : TranscriptionEntry -> Prop) pending now u m :
  Forall P (turn_entries now u m) -> Forall P (logged_entries pending now u m).
Proof.
  intros H. destruct (logged_entries_cases pending now u m) as [-> | (e & -> & Hin)].
  - constructor.
  - constructor; [|constructor].
    rewrite Forall_forall in H. apply H, list_elem_of_In, Hin.
Qed.

(** The log after a turn completion. *)
Lemma finalizeTurn_log (w : World) :
  transcriptions (app (exec finalizeTurn w))
  = slice_last 15 (transcriptions (app w)
      ++ logged_entries (updatePending (env w)) (dateNow (env w))
           (liveUserText (app w)) (liveModelText (app w))).
Proof.
  unfold exec. destruct (finalizeTurn_exec w) as (w' & -> & Hlog & _). exact Hlog.
Qed.

(** X1. No entry of the log is blank: whatever the events delivered to the
    mounted component, every logged text holds a character that is not white
    space. *)
Theorem log_entries_not_blank (evs : list Event) (now : Z) :
  Forall (fun e => blank (text e) = false)
    (transcriptions (app (run decode decodeAudioData evs (mounted now)))).
Proof.
  apply (run_invariant
           (fun w => Forall (fun e => blank (text e) = false) (transcriptions (app w)))).
  - intros w ev H. unfold step, exec.
    apply (deliver_log (fun log _ => Forall (fun e => blank (text e) = false) log));
      [| intros; assumption | exact H].
    intros w0 H0. rewrite finalizeTurn_log. unfold slice_last.
    apply Forall_drop, Forall_app.
    split; [exact H0 | apply logged_entries_among, turn_entries_not_blank].
  - constructor.
Qed.

(** Timestamps in order of position, none later than the wall clock. *)
Lemma stamped_app (log new : list TranscriptionEntry) (now : Z) :
  (forall i j a b, log !! i = Some a -> log !! j = Some b -> (i <= j)%nat ->
     (timestamp a <= timestamp b)%Z) ->
  Forall (fun e => (timestamp e <= now)%Z) log ->
  Forall (fun e => timestamp e = now) new ->
  forall i j a b, (log ++ new) !! i = Some a -> (log ++ new) !! j = Some b -> (i <= j)%nat ->
    (timestamp a <= timestamp b)%Z.
Proof.
  intros Hs Hle Hnew i j a b Ha Hb Hij.
  rewrite Forall_lookup in Hle. rewrite Forall_lookup in Hnew.
  apply lookup_app_Some in Ha as [Ha|[Hi Ha]]; apply lookup_app_Some in Hb as [Hb|[Hj Hb]].
  - eapply Hs; eauto.
  - rewrite (Hnew _ _ Hb). eapply Hle; eauto.
  - apply lookup_lt_Some in Hb. lia.
  - rewrite (Hnew _ _ Ha), (Hnew _ _ Hb). lia.
Qed.

(** X2. With a wall clock that does not run backwards the timestamps of the log
    are in order: an entry is never older than one above it, and none is
    later than the current reading of the clock. *)
Theorem log_timestamps_in_order (evs : list Event) (now : Z) :
  clock_monotone now evs ->
  let w := run decode decodeAudioData evs (mounted now) in
  (forall i j a b, transcriptions (app w) !! i = Some a -> transcriptions (app w) !! j = Some b ->
     (i <= j)%nat -> (timestamp a <= timestamp b)%Z)
  /\ Forall (fun e => (timestamp e <= dateNow (env w))%Z) (transcriptions (app w)).
Proof.
  set (P := fun (log : list TranscriptionEntry) (t : Z) =>
    (forall i j a b, log !! i = Some a -> log !! j = Some b -> (i <= j)%nat ->
       (timestamp a <= timestamp b)%Z)
    /\ Forall (fun e => (timestamp e <= t)%Z) log).
  assert (Hgen : forall evs w, clock_monotone (dateNow (env w)) evs ->
            P (transcriptions (app w)) (dateNow (env w)) ->
            P (transcriptions (app (run decode decodeAudioData evs w)))
              (dateNow (env (run decode decodeAudioData evs w)))).
  { clear evs. intros evs. induction evs as [|ev evs IH]; intros w Hmono H; [exact H|].
    simpl. 
    assert (Hturn : forall w0, P (transcriptions (app w0)) (dateNow (env w0)) ->
              P (transcriptions (app (exec finalizeTurn w0))) (dateNow (env w0))).
    { intros w0 [Hs Hle]. rewrite finalizeTurn_log. unfold slice_last. split.
      - intros i j a b Ha Hb Hij. rewrite lookup_drop in Ha, Hb.
        eapply (stamped_app _ _ (dateNow (env w0)) Hs Hle
                  (logged_entries_among _ _ _ _ _ (turn_entries_timestamp _ _ _)));
          [exact Ha | exact Hb | lia].
      - apply Forall_drop, Forall_app. split; [exact Hle|].
        eapply Forall_impl; [apply logged_entries_among, turn_entries_timestamp|].
        simpl. intros; lia. }
    assert (Hnow : (forall ms, ev <> WallClock ms) ->
              dateNow (env (step decode decodeAudioData w ev)) = dateNow (env w)).
    { intros Hev. unfold step, exec.
      apply (deliver_log (fun _ t => t = dateNow (env w)));
        [intros; assumption | intros ? ? ms E; destruct (Hev ms E) | reflexivity]. }
    destruct ev;
      try (apply IH;
           [ rewrite Hnow by discriminate; exact Hmono
           | apply (deliver_log P); [exact Hturn | discriminate | exact H] ]).
    destruct Hmono as [Hle Hmono]. apply IH; [exact Hmono|].
    destruct H as [Hs Hb]. split; [exact Hs|].
    eapply Forall_impl; [exact Hb|]. simpl. intros; lia. }
  intros Hmono w. apply (Hgen evs (mounted now)); [exact Hmono|].
  split; [intros i j a b Ha; destruct i; discriminate Ha | constructor].
Qed.

(** X3. The log is changed by a turn completion and by nothing else: every
    other event leaves it exactly as it is, a stop, an error, a close and a
    restart included, so the entries of earlier sessions stay on the page. *)
Theorem log_changed_only_by_turn_completion (w : World) (ev : Event) :
  ~ completes_turn ev ->
  transcriptions (app (step decode decodeAudioData w ev)) = transcriptions (app w).
Proof.
  intros Hturn. unfold step, exec.
  destruct ev; simpl in Hturn.
  7: { unfold deliver. rewrite bind_get.
       destruct (connection <$> sessions (env w) !! c) as [[]|]; try reflexivity.
       apply not_true_is_false in Hturn.
       destruct (onmessage_keeps decode decodeAudioData [] [] (transcriptions (app w)) m Hturn w)
         as (_ & _ & Hlog); [|exact Hlog].
       repeat split; eexists; reflexivity. }
  all: revert w.
  all: match goal with
       | |- forall w, transcriptions (app (snd (?m w))) = _ =>
           enough (H : forall L, preserves (fun w => transcriptions (app w) = L) m)
             by (intros w; apply (H (transcriptions (app w)) w eq_refl))
       end.
  all: intros L; unfold deliver, click, onclose, onerror, onended, poll, onopen,
         startSession_connected, startSession_stream, startSession_resumed,
         startSession_catch, startSession, stopSession, set_connection, set_call,
         session_close, processor_disconnect, setStatus, setErrorMessage, setUserVolume,
         setModelVolume, setLiveUserText, setLiveModelText.
  all: frame; simpl in *; auto.
Qed.

(** *** The playback units *)

Lemma audio_ok_same (w w' : World) :
  nodes (env w') = nodes (env w) -> sourcesRef (refs w') = sourcesRef (refs w) ->
  nextStartTimeRef (refs w') = nextStartTimeRef (refs w) ->
  audio_ok w -> audio_ok w'.
Proof.
  intros Hn Hs Ht [H1 H2 H3 H4]. constructor; rewrite ?Hn, ?Hs, ?Ht; assumption.
Qed.

(** What a call of [enqueue] does to the units: nothing, or one more unit
    started at or after the watermark. *)
Lemma enqueue_cases (w : World) (part : Part) :
  let w' := exec (enqueue decode decodeAudioData part) w in
  (nodes (env w') = nodes (env w) /\ sourcesRef (refs w') = sourcesRef (refs w)
   /\ nextStartTimeRef (refs w') = nextStartTimeRef (refs w))
  \/ (exists b t,
        nextStartTimeRef (refs w) <= t
        /\ nodes (env w') = nodes (env w) ++ [{| node_buffer := b; node_playback := Started t |}]
        /\ nextStartTimeRef (refs w') = t + duration b
        /\ sourcesRef (refs w') = {[length (nodes (env w))]} ∪ sourcesRef (refs w)).
Proof.
  intros w'. subst w'.
  destruct (inlineData part) as [[data|]|] eqn:Hd;
    [| left; unfold exec, enqueue, get, mbind, mret, Eff_bind, Eff_ret; rewrite Hd;
       repeat split; reflexivity ..].
  destruct (outputAudioContextRef (refs w)) as [ctx|] eqn:Hc;
    [| left; unfold exec, enqueue, get, mbind, mret, Eff_bind, Eff_ret; rewrite Hd, Hc;
       repeat split; reflexivity].
  destruct (outputNodeRef (refs w)) eqn:Hn;
    [| left; unfold exec, enqueue, get, mbind, mret, Eff_bind, Eff_ret; rewrite Hd, Hc, Hn;
       repeat split; reflexivity].
  destruct (truthy data) eqn:Ht;
    [| left; unfold exec, enqueue, get, mbind, mret, Eff_bind, Eff_ret; rewrite Hd, Hc, Hn, Ht;
       repeat split; reflexivity].
  destruct (decode data) as [bytes|e] eqn:Hb;
    [| left; unfold exec, enqueue, lift, get, modify, mbind, mret, Eff_bind, Eff_ret;
       rewrite Hd, Hc, Hn, Ht; cbn; rewrite Hb; repeat split; reflexivity].
  destruct (decodeAudioData bytes 24000 1) as [b|e] eqn:Ha;
    [| left; unfold exec, enqueue, lift, get, modify, mbind, mret, Eff_bind, Eff_ret;
       rewrite Hd, Hc, Hn, Ht; cbn; rewrite Hb; cbn; rewrite Ha; repeat split; reflexivity].
  destruct (enqueue_exec decode decodeAudioData w part data ctx bytes b Hd Ht Hc Hn Hb Ha)
    as (w' & He & Hnodes & Hnext & Hsrc).
  right. unfold exec. rewrite He. cbn [snd]. eexists _, _.
  split; [apply Q.le_max_l|]. split; [exact Hnodes|]. split; [exact Hnext | exact Hsrc].
Qed.

Lemma enqueue_audio_ok (part : Part) :
  preserves audio_ok (enqueue decode decodeAudioData part).
Proof.
  intros w H. destruct (enqueue_cases w part) as [(Hn & Hs & Ht)|(b & t & Hle & Hn & Ht & Hs)];
    unfold exec in *.
  - eapply audio_ok_same; eassumption.
  - destruct H as [H1 H2 H3 H4]. constructor; rewrite ?Hn, ?Hs, ?Ht.
    + apply Forall_app. split; [exact H1|]. repeat constructor. discriminate.
    + intros i Hi. rewrite length_app. simpl.
      apply elem_of_union in Hi as [Hi|Hi]; [apply elem_of_singleton in Hi; lia|].
      specialize (H2 i Hi). lia.
    + intros i n Hi Hp. apply lookup_app_Some in Hi as [Hi|[Hge Hi]].
      * apply elem_of_union. right. eapply H3; eassumption.
      * apply elem_of_union. left. apply elem_of_singleton.
        apply lookup_lt_Some in Hi. simpl in Hi. lia.
    + intros i n Hi Hp. pose proof (duration_nonneg b) as Hb.
      apply lookup_app_Some in Hi as [Hi|[Hge Hi]].
      * specialize (H4 i n Hi Hp). lra.
      * destruct (i - length (nodes (env w)))%nat; [|destruct n0; discriminate Hi].
        injection Hi as <-. apply Qle_refl.
Qed.

Lemma halt_started (n : AudioBufferSourceNode) :
  node_playback n <> Created -> node_playback (halt n) <> Created.
Proof. destruct n as [b []]; simpl; congruence. Qed.

(** Once the active set has been stopped nothing is playing. *)
Lemma halted_silent (w : World) :
  audio_ok w ->
  Forall (fun n => playing n = false)
    (halt_all (elements (sourcesRef (refs w))) (nodes (env w))).
Proof.
  intros [_ _ H3 _]. apply Forall_lookup. intros i n Hi.
  rewrite halt_all_lookup in Hi.
  destruct (nodes (env w) !! i) as [x|] eqn:Hx; [|discriminate]. simpl in Hi.
  injection Hi as <-. case_bool_decide as Hin.
  - apply halt_not_playing.
  - simpl. destruct (playing x) eqn:Hp; [|reflexivity].
    exfalso. apply Hin, elem_of_elements. eapply H3; eassumption.
Qed.

(** The units after a flush of the active set, whatever the watermark. *)
Lemma flushed_audio_ok (w w' : World) :
  audio_ok w ->
  nodes (env w') = halt_all (elements (sourcesRef (refs w))) (nodes (env w)) ->
  sourcesRef (refs w') = ∅ ->
  audio_ok w'.
Proof.
  intros H Hn Hs. pose proof (halted_silent w H) as Hsilent.
  rewrite Forall_lookup in Hsilent. destruct H as [H1 _ _ _].
  constructor; rewrite ?Hn, ?Hs.
  - apply Forall_lookup. intros i n Hi. rewrite halt_all_lookup in Hi.
    rewrite Forall_lookup in H1.
    destruct (nodes (env w) !! i) as [x|] eqn:Hx; [|discriminate]. simpl in Hi.
    injection Hi as <-. specialize (H1 i x Hx).
    case_bool_decide; [apply halt_started, H1 | exact H1].
  - intros i Hi. apply not_elem_of_empty in Hi. destruct Hi.
  - intros i n Hi Hp. rewrite (Hsilent i n Hi) in Hp. discriminate.
  - intros i n Hi Hp. rewrite (Hsilent i n Hi) in Hp. discriminate.
Qed.

Lemma interrupt_audio_ok : preserves audio_ok interrupt.
Proof.
  intros w H. rewrite interrupt_exec. cbn [snd].
  eapply flushed_audio_ok; [exact H | reflexivity | reflexivity].
Qed.

Lemma stopSession_audio_ok : preserves audio_ok stopSession.
Proof.
  intros w H. rewrite stopSession_exec. cbn [snd].
  eapply flushed_audio_ok; [exact H | reflexivity | reflexivity].
Qed.

Lemma finalizeTurn_audio_ok : preserves audio_ok finalizeTurn.
Proof.
  intros w H. destruct (finalizeTurn_exec w) as (w' & -> & _ & _ & _ & _ & _ & Hr & He).
  cbn [snd]. eapply audio_ok_same; [| | | exact H]; rewrite ?Hr, ?He; reflexivity.
Qed.

Lemma onmessage_audio_ok (msg : LiveServerMessage) :
  preserves audio_ok (onmessage decode decodeAudioData msg).
Proof.
  pose proof enqueue_audio_ok as He. pose proof finalizeTurn_audio_ok as Hf.
  pose proof interrupt_audio_ok as Hi.
  unfold onmessage, appendPartial, setLiveUserText, setLiveModelText.
  frame; try exact Hf; try exact Hi; try apply He;
    try (eapply audio_ok_same; [| | | eassumption]; reflexivity).
Qed.

Lemma end_node_silent (n : AudioBufferSourceNode) : playing (end_node n) = false.
Proof. destruct n as [b []]; reflexivity. Qed.

Lemma end_node_started (n : AudioBufferSourceNode) :
  node_playback n <> Created -> node_playback (end_node n) <> Created.
Proof. destruct n as [b []]; simpl; congruence. Qed.

Lemma ended_audio_ok (n : nat) (w : World) :
  audio_ok w ->
  audio_ok (with_refs (fun r => set_sourcesRef (sourcesRef r ∖ {[n]}) r)
              (with_env (fun e => set_nodes (alter end_node n (nodes e)) e) w)).
Proof.
  intros [H1 H2 H3 H4]. constructor; cbn.
  - apply Forall_lookup. intros i x Hi. rewrite Forall_lookup in H1.
    destruct (decide (i = n)) as [->|Hne].
    + rewrite list_lookup_alter_eq in Hi.
      destruct (nodes (env w) !! n) as [y|] eqn:Hy; [|discriminate]. simpl in Hi.
      injection Hi as <-. apply end_node_started. eapply H1, Hy.
    + rewrite list_lookup_alter_ne in Hi by congruence. eapply H1, Hi.
  - intros i Hi. rewrite length_alter. apply H2. apply elem_of_difference in Hi. tauto.
  - intros i x Hi Hp. destruct (decide (i = n)) as [->|Hne].
    + rewrite list_lookup_alter_eq in Hi.
      destruct (nodes (env w) !! n) as [y|] eqn:Hy; [|discriminate]. simpl in Hi.
      injection Hi as <-. rewrite end_node_silent in Hp. discriminate.
    + rewrite list_lookup_alter_ne in Hi by congruence.
      apply elem_of_difference. split; [eapply H3; eassumption|].
      intros E. apply elem_of_singleton in E. congruence.
  - intros i x Hi Hp. destruct (decide (i = n)) as [->|Hne].
    + rewrite list_lookup_alter_eq in Hi.
      destruct (nodes (env w) !! n) as [y|] eqn:Hy; [|discriminate]. simpl in Hi.
      injection Hi as <-. rewrite end_node_silent in Hp. discriminate.
    + rewrite list_lookup_alter_ne in Hi by congruence. eapply H4; eassumption.
Qed.

Lemma deliver_audio_ok (ev : Event) :
  preserves audio_ok (deliver decode decodeAudioData ev).
Proof.
  pose proof stopSession_audio_ok as Hs.
  pose proof onmessage_audio_ok as Hm.
  assert (Hsame : forall w w', nodes (env w') = nodes (env w) ->
            sourcesRef (refs w') = sourcesRef (refs w) ->
            nextStartTimeRef (refs w') = nextStartTimeRef (refs w) ->
            audio_ok w -> audio_ok w') by exact audio_ok_same.
  destruct ev.
  10: { intros w H. unfold deliver. rewrite bind_get.
        destruct (node_playback <$> nodes (env w) !! n) as [[]|]; try exact H.
        all: apply (ended_audio_ok n w H). }
  all: unfold deliver, click, onclose, onerror, poll, onopen, startSession_connected,
         startSession_stream, startSession_resumed, startSession_catch, startSession,
         set_connection, set_call, setStatus, setErrorMessage, setUserVolume, setModelVolume.
  all: frame; try exact Hs; try apply Hm;
         try (eapply Hsame; [| | | eassumption]; reflexivity).
Qed.

Lemma reach_audio_ok (evs : list Event) (now : Z) :
  audio_ok (run decode decodeAudioData evs (mounted now)).
Proof.
  apply run_invariant.
  - intros w ev. apply deliver_audio_ok.
  - constructor; simpl.
    + constructor.
    + intros i Hi. apply not_elem_of_empty in Hi. destruct Hi.
    + intros i n Hi. destruct i; discriminate Hi.
    + intros i n Hi. destruct i; discriminate Hi.
Qed.

(** X4. In every state the mounted component reaches, each member of the active
    set is a playback node that has been started, so [stop()] on it returns:
    the [catch] around the calls of lines 44 and 168 is never entered. *)
Theorem stop_never_throws (evs : list Event) (now : Z) (i : nat) :
  let w := run decode decodeAudioData evs (mounted now) in
  i ∈ sourcesRef (refs w) ->
  exists n n', nodes (env w) !! i = Some n /\ node_stop n = Normal n'.
Proof.
  intros w Hi. destruct (reach_audio_ok evs now) as [H1 H2 _ _]. fold w in H1, H2.
  destruct (lookup_lt_is_Some_2 _ _ (H2 i Hi)) as [n Hn].
  rewrite Forall_lookup in H1. specialize (H1 i n Hn).
  exists n. destruct n as [b []]; simpl in *; try congruence; eexists; split; eauto.
Qed.

(** X5. In every state the mounted component reaches, [stopSession] and an
    interruption leave no playback unit playing at all, whether it was in the
    active set or not. *)
Theorem flush_silences_every_unit (evs : list Event) (now : Z) :
  let w := run decode decodeAudioData evs (mounted now) in
  Forall (fun n => playing n = false) (nodes (env (exec stopSession w)))
  /\ Forall (fun n => playing n = false) (nodes (env (exec interrupt w)))
  /\ (forall i n, nodes (env w) !! i = Some n -> playing n = true -> i ∈ sourcesRef (refs w)).
Proof.
  intros w. pose proof (reach_audio_ok evs now) as H. fold w in H.
  unfold exec. rewrite stopSession_exec, interrupt_exec. cbn [snd].
  split; [apply halted_silent, H|]. split; [apply halted_silent, H|].
  apply (playing_tracked w H).
Qed.

(** X6. In every state the mounted component reaches, the watermark is at or
    after the end of every unit that is playing: the next chunk enqueued
    starts when all of them have finished, at the earliest. *)
Theorem watermark_after_playing_units (evs : list Event) (now : Z) (i : nat)
    (n : AudioBufferSourceNode) :
  let w := run decode decodeAudioData evs (mounted now) in
  nodes (env w) !! i = Some n -> playing n = true ->
  end_time n <= nextStartTimeRef (refs w)
  /\ (forall part data ctx bytes b,
        inlineData part = Some (Some data) -> truthy data = true ->
        outputAudioContextRef (refs w) = Some ctx -> outputNodeRef (refs w) = true ->
        decode data = Normal bytes -> decodeAudioData bytes 24000 1 = Normal b ->
        exists u, last (nodes (env (exec (enqueue decode decodeAudioData part) w))) = Some u
                  /\ playing u = true /\ end_time n <= start_time u).
Proof.
  intros w Hn Hp. pose proof (reach_audio_ok evs now) as H. fold w in H.
  pose proof (watermark_covers w H i n Hn Hp) as Hle.
  split; [exact Hle|].
  intros part data ctx bytes b Hd Ht Hc Ho Hb Ha.
  destruct (enqueue_exec decode decodeAudioData w part data ctx bytes b Hd Ht Hc Ho Hb Ha)
    as (w' & He & Hnodes & _).
  unfold exec. rewrite He. cbn [snd]. rewrite Hnodes, last_snoc.
  eexists. split; [reflexivity|]. split; [reflexivity|].
  unfold start_time. cbn [node_playback].
  eapply Qle_trans; [exact Hle | apply Q.le_max_l].
Qed.

(** *** What is acquired *)

Ltac open_deliver :=
  unfold deliver, click, onclose, onerror, onmessage, interrupt, appendPartial, enqueue,
    onended, poll, onopen, startSession_connected, startSession_stream,
    startSession_resumed, startSession_catch, startSession, stopSession, set_connection,
    set_call, session_close, processor_disconnect,
    setStatus, setErrorMessage, setUserVolume, setModelVolume, setLiveUserText,
    setLiveModelText.

(** A property of the references and of the environment outside React is
    kept by a turn completion. *)
Lemma finalizeTurn_frame (P : World -> Prop) :
  (forall w w', refs w' = refs w -> env w' = set_updatePending true (env w) -> P w -> P w') ->
  preserves P finalizeTurn.
Proof.
  intros HP w H. destruct (finalizeTurn_exec w) as (w' & -> & _ & _ & _ & _ & _ & Hr & He).
  cbn [snd]. eapply HP; eassumption.
Qed.

Lemma deliver_streams (k : nat) (ev : Event) :
  preserves (fun w => (k <= streams (env w))%nat) (deliver decode decodeAudioData ev).
Proof.
  assert (Hf : preserves (fun w => (k <= streams (env w))%nat) finalizeTurn).
  { apply finalizeTurn_frame. intros w w' _ -> H. exact H. }
  open_deliver. destruct ev; frame; try exact Hf; simpl in *; auto with lia.
Qed.

Lemma deliver_counts (ev : Event) :
  preserves (fun w => streams (env w) = length (sessions (env w))
                      /\ length (processors (env w)) = length (sessions (env w)))
    (deliver decode decodeAudioData ev).
Proof.
  assert (Hf : preserves (fun w => streams (env w) = length (sessions (env w))
                      /\ length (processors (env w)) = length (sessions (env w))) finalizeTurn).
  { apply finalizeTurn_frame. intros w w' _ -> H. exact H. }
  destruct ev.
  3: { intros w H. unfold deliver. rewrite bind_get.
       destruct (calls (env w) !! f) as [[]|]; try exact H.
       unfold startSession_stream, startSession_catch, set_call, setStatus,
         setErrorMessage, get, modify, mbind, mret, Eff_bind, Eff_ret.
       destruct granted; cbn; [|exact H].
       rewrite !length_app. simpl. lia. }
  all: open_deliver; frame; try exact Hf; simpl in *; rewrite ?length_alter; auto.
Qed.

(** X7. No callback stops a media stream. At every event, in whatever state, the
    number of open microphone streams stays or grows; in every state the
    mounted component reaches it is the number of sessions connected so far,
    which is also the number of script processors created. *)
Theorem media_streams_never_released :
  (forall w ev, (streams (env w) <= streams (env (step decode decodeAudioData w ev)))%nat)
  /\ (forall w, streams (env (exec stopSession w)) = streams (env w))
  /\ (forall evs now,
        let w := run decode decodeAudioData evs (mounted now) in
        streams (env w) = length (sessions (env w))
        /\ length (processors (env w)) = length (sessions (env w))).
Proof.
  split; [intros w ev; apply (deliver_streams (streams (env w)) ev w); lia|].
  split; [intros w; unfold exec; rewrite stopSession_exec; reflexivity|].
  intros evs now.
  apply (run_invariant (fun w => streams (env w) = length (sessions (env w))
                      /\ length (processors (env w)) = length (sessions (env w)))).
  - intros w ev. apply deliver_counts.
  - split; reflexivity.
Qed.

Lemma deliver_graph_ready (ev : Event) :
  preserves graph_ready (deliver decode decodeAudioData ev).
Proof.
  assert (Hf : preserves graph_ready finalizeTurn).
  { apply finalizeTurn_frame. unfold graph_ready. intros w w' -> _ H. exact H. }
  open_deliver. destruct ev; frame; try exact Hf; unfold graph_ready in *; cbn in *;
    rewrite ?fmap_is_Some; intuition eauto.
Qed.

(** Nothing has been started yet. *)
Lemma deliver_pristine (ev : Event) (w : World) :
  calls (env w) = [] -> sessions (env w) = [] ->
  inputAudioContextRef (refs w) = None -> outputAudioContextRef (refs w) = None ->
  let w' := step decode decodeAudioData w ev in
  (calls (env w') = [] /\ sessions (env w') = []
   /\ inputAudioContextRef (refs w') = None /\ outputAudioContextRef (refs w') = None)
  \/ graph_ready w'.
Proof.
  intros Hc Hs Hi Ho w'. subst w'. unfold step, exec.
  destruct ev; unfold deliver; rewrite bind_get; rewrite ?Hc, ?Hs, ?lookup_nil; simpl;
    try (left; repeat split; assumption).
  - destruct (status (app w)); simpl.
    + right. destruct w as [a [ic oc on src an man sr nst sp] e]. simpl in *. subst.
      unfold graph_ready. cbn. eauto.
    + left. repeat split; assumption.
    + left. rewrite stopSession_exec. cbn. rewrite Hs.
      destruct (sessionRef (refs w)); repeat split; assumption.
    + right. destruct w as [a [ic oc on src an man sr nst sp] e]. simpl in *. subst.
      unfold graph_ready. cbn. eauto.
  - left. destruct (node_playback <$> nodes (env w) !! n) as [[]|]; cbn;
      repeat split; assumption.
  - left. unfold poll, setUserVolume, setModelVolume, when_, get, modify, mbind, mret,
      Eff_bind, Eff_ret.
    destruct (analyzerRef (refs w)), (modelAnalyzerRef (refs w)); cbn;
      repeat split; assumption.
  - left. cbn. rewrite Ho. repeat split; assumption.
  - left. cbn. rewrite Ho. repeat split; assumption.
Qed.

(** X8. The audio graph of lines 60-72 is built by the first call of
    [startSession] and is never taken down: no event undoes it, and in every
    state the mounted component reaches in which a call has been made or a
    session exists, both contexts, the output node and the model analyser
    are in place, so the guard of line 125 holds for every part that carries
    audio. *)
Theorem audio_graph_stays (evs : list Event) (now : Z) :
  (forall w ev, graph_ready w -> graph_ready (step decode decodeAudioData w ev))
  /\ (let w := run decode decodeAudioData evs (mounted now) in
      calls (env w) <> [] \/ sessions (env w) <> [] -> graph_ready w).
Proof.
  split; [intros w ev; apply deliver_graph_ready|].
  intros w Hsome.
  assert (H : (calls (env w) = [] /\ sessions (env w) = []
               /\ inputAudioContextRef (refs w) = None
               /\ outputAudioContextRef (refs w) = None) \/ graph_ready w).
  { subst w. apply run_invariant.
    - intros w ev [(Hc & Hs & Hi & Ho)|H].
      + apply deliver_pristine; assumption.
      + right. apply deliver_graph_ready, H.
    - left. repeat split; reflexivity. }
  destruct H as [(Hc & Hs & _)|H]; [|exact H].
  destruct Hsome as [Hn|Hn]; contradiction.
Qed.

(** *** The status and the error banner *)

Lemma startSession_app (w : World) :
  app (exec startSession w) = set_errorMessage None (set_status CONNECTING (app w)).
Proof.
  unfold exec, startSession, setStatus, setErrorMessage, when_, get, modify, mbind, mret,
    Eff_bind, Eff_ret.
  destruct w as [a [[ic|] [oc|] on src an man sr nst sp] e]; reflexivity.
Qed.

Lemma onmessage_status (s : AppStatus) (m : option string) (msg : LiveServerMessage) :
  preserves (fun w => status (app w) = s /\ errorMessage (app w) = m)
    (onmessage decode decodeAudioData msg).
Proof.
  assert (Hf : preserves (fun w => status (app w) = s /\ errorMessage (app w) = m) finalizeTurn).
  { intros w H. destruct (finalizeTurn_exec w) as (w' & -> & _ & _ & _ & Hs & Hm & _).
    cbn [snd]. rewrite Hs, Hm. exact H. }
  unfold onmessage, interrupt, appendPartial, enqueue, setLiveUserText, setLiveModelText.
  frame; try exact Hf; assumption.
Qed.

(** What an event does to the status and to the message. *)
Lemma step_status_message (w : World) (ev : Event) :
  let a := app w in
  let a' := app (step decode decodeAudioData w ev) in
  (status a' = status a /\ errorMessage a' = errorMessage a)
  \/ (status a' = CONNECTING /\ errorMessage a' = None)
  \/ (status a' = ERROR /\ errorMessage a' = Some microphone_message)
  \/ (status a' = IDLE
      /\ (errorMessage a' = errorMessage a \/ errorMessage a' = Some link_message))
  \/ (status a' = ACTIVE /\ errorMessage a' = errorMessage a).
Proof.
  intros a a'. subst a a'. unfold step, exec.
  destruct ev; unfold deliver; rewrite bind_get.
  - destruct (status (app w)) eqn:Hst; simpl.
    + right. left. pose proof (startSession_app w) as Ha. unfold exec in Ha. rewrite Ha.
      cbn. auto.
    + left. auto.
    + right. right. right. left. rewrite stopSession_exec. cbn. auto.
    + right. left. pose proof (startSession_app w) as Ha. unfold exec in Ha. rewrite Ha.
      cbn. auto.
  - destruct (calls (env w) !! f) as [[]|]; try (left; split; reflexivity).
    destruct ok; cbn; auto.
  - destruct (calls (env w) !! f) as [[]|]; try (left; split; reflexivity).
    destruct granted; cbn; auto.
  - destruct (connection <$> sessions (env w) !! c) as [[]|]; try (left; split; reflexivity).
    right. right. right. right.
    unfold onopen, set_connection, setStatus, get, modify, mbind, mret, Eff_bind, Eff_ret.
    cbn. destruct (alter (mark Open true) c (sessions (env w)) !! c); cbn; auto.
  - destruct (calls (env w) !! f) as [[| |c| |]|]; try (left; split; reflexivity).
    destruct (opened <$> sessions (env w) !! c) as [[]|]; cbn; auto.
  - destruct (calls (env w) !! f) as [[| |c| |]|]; try (left; split; reflexivity).
    destruct (opened <$> sessions (env w) !! c) as [[]|]; cbn; auto.
  - left. destruct (connection <$> sessions (env w) !! c) as [[]|]; try (split; reflexivity).
    apply (onmessage_status (status (app w)) (errorMessage (app w)) m w). auto.
  - destruct (connection <$> sessions (env w) !! c) as [[]|]; try (left; split; reflexivity).
    all: right; right; right; left.
    all: unfold set_connection, modify, mbind, Eff_bind; rewrite onerror_exec; cbn; auto.
  - destruct (connection <$> sessions (env w) !! c) as [[]|]; try (left; split; reflexivity).
    all: right; right; right; left.
    all: unfold set_connection, onclose, modify, mbind, Eff_bind; rewrite stopSession_exec;
      cbn; auto.
  - left. destruct (node_playback <$> nodes (env w) !! n) as [[]|]; split; reflexivity.
  - left. unfold poll, setUserVolume, setModelVolume, when_, get, modify, mbind, mret,
      Eff_bind, Eff_ret.
    destruct (analyzerRef (refs w)), (modelAnalyzerRef (refs w)); split; reflexivity.
  - left. split; reflexivity.
  - left. split; reflexivity.
  - left. split; reflexivity.
  - left. split; reflexivity.
Qed.

(** X9. In every state the mounted component reaches: while the status is
    [CONNECTING] no error banner is shown; while it is [ERROR] the banner
    shows the microphone message, whichever step of [startSession] failed;
    and the message is one of the two the component sets, or none. *)
Theorem status_and_error_banner (evs : list Event) (now : Z) :
  let a := app (run decode decodeAudioData evs (mounted now)) in
  (status a = CONNECTING -> error_banner a = None)
  /\ (status a = ERROR -> error_banner a = Some microphone_message)
  /\ (errorMessage a = None \/ errorMessage a = Some microphone_message
      \/ errorMessage a = Some link_message).
Proof.
  intros a.
  assert (H : (status a = CONNECTING -> errorMessage a = None)
              /\ (status a = ERROR -> errorMessage a = Some microphone_message)
              /\ (errorMessage a = None \/ errorMessage a = Some microphone_message
                  \/ errorMessage a = Some link_message)).
  { subst a.
    apply (run_invariant (fun w =>
      (status (app w) = CONNECTING -> errorMessage (app w) = None)
      /\ (status (app w) = ERROR -> errorMessage (app w) = Some microphone_message)
      /\ (errorMessage (app w) = None \/ errorMessage (app w) = Some microphone_message
          \/ errorMessage (app w) = Some link_message))).
    - intros w ev (Hc & He & Hm).
      destruct (step_status_message w ev)
        as [[Hs Hx]|[[Hs Hx]|[[Hs Hx]|[[Hs [Hx|Hx]]|[Hs Hx]]]]];
        rewrite Hs, Hx; repeat split; auto; try discriminate.
    - simpl. repeat split; auto; discriminate. }
  destruct H as (Hc & He & Hm). unfold error_banner.
  split; [intros E; rewrite (Hc E); reflexivity|].
  split; [intros E; rewrite (He E); reflexivity | exact Hm].
Qed.

(** *** The volumes *)

Lemma sum_bytes_bounds (data : list byte) (acc : Z) :
  (acc <= foldl (fun a b => a + Z.of_N (Byte.to_N b)) acc data
   <= acc + 255 * Z.of_nat (length data))%Z.
Proof.
  revert acc. induction data as [|b data IH]; intros acc; simpl; [lia|].
  specialize (IH (acc + Z.of_N (Byte.to_N b))%Z).
  pose proof (Byte.to_N_bounded b) as Hb. lia.
Qed.

Lemma average_bounds (data : list byte) :
  data <> [] -> 0 <= average data /\ average data <= 255.
Proof.
  intros Hne. unfold average.
  pose proof (sum_bytes_bounds data 0) as Hs.
  assert (Hlen : (0 < Z.of_nat (length data))%Z) by (destruct data; [congruence | simpl; lia]).
  set (s := foldl _ _ _) in *. set (n := Z.of_nat (length data)) in *.
  assert (Hn : 0 < inject_Z n) by (unfold Qlt; simpl; lia).
  split.
  - apply Qle_shift_div_l; [exact Hn|]. unfold Qle. simpl. lia.
  - apply Qle_shift_div_r; [exact Hn|]. unfold Qle. simpl. lia.
Qed.

Lemma volume_of_average (data : list byte) :
  length data = frequencyBinCount ->
  0 <= average data / 128 /\ average data / 128 <= 255 # 128.
Proof.
  intros Hlen.
  assert (Hne : data <> []) by (intros ->; discriminate Hlen).
  destruct (average_bounds data Hne) as [H0 H1].
  split.
  - apply Qle_shift_div_l; [reflexivity|]. lra.
  - apply Qle_shift_div_r; [reflexivity|]. lra.
Qed.

Lemma finalizeTurn_volumes (w : World) :
  userVolume (app (exec finalizeTurn w)) = userVolume (app w)
  /\ modelVolume (app (exec finalizeTurn w)) = modelVolume (app w).
Proof.
  unfold exec, finalizeTurn, setTranscriptions, setLiveUserText, setLiveModelText, finalize,
    Date_now, get, modify, mbind, mret, Eff_bind, Eff_ret.
  destruct (truthy (trim (liveUserText (app w)))); cbn;
    destruct (truthy (trim (liveModelText (app w)))); cbn; split; reflexivity.
Qed.

Lemma deliver_volumes (ev : Event) :
  analysed ev ->
  preserves (fun w => (0 <= userVolume (app w) /\ userVolume (app w) <= 255 # 128)
                      /\ (0 <= modelVolume (app w) /\ modelVolume (app w) <= 255 # 128))
    (deliver decode decodeAudioData ev).
Proof.
  intros Hev.
  assert (Hf : preserves (fun w => (0 <= userVolume (app w) /\ userVolume (app w) <= 255 # 128)
                      /\ (0 <= modelVolume (app w) /\ modelVolume (app w) <= 255 # 128))
                 finalizeTurn).
  { intros w H. destruct (finalizeTurn_volumes w) as [Hu Hm]. unfold exec in Hu, Hm.
    rewrite Hu, Hm. exact H. }
  assert (Hzero : 0 <= 0 /\ 0 <= 255 # 128) by (split; unfold Qle; simpl; lia).
  assert (Havg : forall avg_in avg_out, analysed (AnimationFrame avg_in avg_out) ->
            (0 <= avg_in / 128 /\ avg_in / 128 <= 255 # 128)
            /\ (0 <= avg_out / 128 /\ avg_out / 128 <= 255 # 128)).
  { intros a b (din & dout & Hl1 & Hl2 & -> & ->).
    split; apply volume_of_average; assumption. }
  open_deliver. destruct ev; frame; try exact Hf; simpl in *; auto.
  all: try (specialize (Havg _ _ Hev)); tauto.
Qed.

Lemma reach_volumes (evs : list Event) (now : Z) :
  Forall analysed evs ->
  let a := app (run decode decodeAudioData evs (mounted now)) in
  (0 <= userVolume a /\ userVolume a <= 255 # 128)
  /\ (0 <= modelVolume a /\ modelVolume a <= 255 # 128).
Proof.
  intros Hall a. subst a.
  assert (Hgen : forall evs w, Forall analysed evs ->
            (0 <= userVolume (app w) /\ userVolume (app w) <= 255 # 128)
            /\ (0 <= modelVolume (app w) /\ modelVolume (app w) <= 255 # 128) ->
            (0 <= userVolume (app (run decode decodeAudioData evs w))
             /\ userVolume (app (run decode decodeAudioData evs w)) <= 255 # 128)
            /\ (0 <= modelVolume (app (run decode decodeAudioData evs w))
                /\ modelVolume (app (run decode decodeAudioData evs w)) <= 255 # 128)).
  { clear. intros evs. induction evs as [|ev evs IH]; intros w Hall H0; [exact H0|].
    apply Forall_cons in Hall as [Hev Hall]. simpl.
    apply IH; [exact Hall|]. apply (deliver_volumes ev Hev w H0). }
  apply Hgen; [exact Hall|]. simpl. repeat split; unfold Qle; simpl; lia.
Qed.

(** X10. The volumes the poll sets from the data of the analysers lie between 0
    and 255/128 in every state the mounted component reaches, and full-scale
    data takes them to 255/128, which is above 1. *)
Theorem volumes_in_range (evs : list Event) (now : Z) :
  Forall analysed evs ->
  let a := app (run decode decodeAudioData evs (mounted now)) in
  (0 <= userVolume a /\ userVolume a <= 255 # 128)
  /\ (0 <= modelVolume a /\ modelVolume a <= 255 # 128)
  /\ (forall w, analyzerRef (refs w) = true ->
        userVolume (app (exec (poll (average full_scale) (average full_scale)) w))
        == 255 # 128).
Proof.
  intros Hall a.
  destruct (reach_volumes evs now Hall) as [Hu Hm]. fold a in Hu, Hm.
  split; [exact Hu|]. split; [exact Hm|].
  intros w Han. unfold exec, poll, setUserVolume, setModelVolume, when_, get, modify,
    mbind, mret, Eff_bind, Eff_ret. rewrite Han.
  destruct (modelAnalyzerRef (refs w)); reflexivity.
Qed.

End Reach.

(** ** The capture side *)

Section Capture.

Variable decode : jsstring -> Completion (list byte).
Variable decodeAudioData : list byte -> positive -> positive -> Completion AudioBuffer.

(** Sessions that keep their processor and stay opened, processors that keep
    their callback and do not get connected, references kept or cleared. *)
Lemma capture_mono sr spr ps ss sr' spr' ps' ss' :
  length ps' = length ps -> length ss' = length ss ->
  (forall c s', ss' !! c = Some s' ->
     exists s, ss !! c = Some s /\ session_processor s' = session_processor s
               /\ (opened s = true -> opened s' = true)) ->
  (forall p x', ps' !! p = Some x' ->
     exists x, ps !! p = Some x /\ onaudioprocess x' = onaudioprocess x
               /\ (sp_connected x' = true -> sp_connected x = true)) ->
  sr' = sr \/ sr' = None -> spr' = spr \/ spr' = None ->
  capture_of sr spr ps ss -> capture_of sr' spr' ps' ss'.
Proof.
  intros Hlp Hls Hss Hps Hsr Hspr [K1 K2 K3 K4 K5 K6].
  assert (Hopen : forall p s, ss !! p = Some s -> opened s = true ->
            exists s', ss' !! p = Some s' /\ opened s' = true).
  { intros p s Hs Ho.
    destruct (lookup_lt_is_Some_2 ss' p) as [s' Hs'];
      [rewrite Hls; eapply lookup_lt_Some; exact Hs|].
    exists s'. split; [exact Hs'|].
    destruct (Hss p s' Hs') as (s0 & Hs0 & _ & Hmono).
    rewrite Hs in Hs0. injection Hs0 as <-. auto. }
  constructor.
  - congruence.
  - intros c s' Hs'. destruct (Hss c s' Hs') as (s & Hs & -> & _). eauto.
  - intros p x' Hx' Hc. destruct (Hps p x' Hx') as (x & Hx & -> & Hmono). eauto.
  - intros p x' c Hx' Hc. destruct (Hps p x' Hx') as (x & Hx & Hcb & _).
    rewrite Hcb in Hc. destruct (K4 p x c Hx Hc) as (-> & s & Hs & Ho).
    split; [reflexivity|]. eauto.
  - intros c Hc. destruct Hsr as [->| ->]; [|discriminate].
    destruct (K5 c Hc) as (s & Hs & Ho). eauto.
  - intros p Hp. destruct Hspr as [->| ->]; [|discriminate]. rewrite Hlp. auto.
Qed.

Lemma capture_same sr spr ps ss sr' spr' :
  sr' = sr \/ sr' = None -> spr' = spr \/ spr' = None ->
  capture_of sr spr ps ss -> capture_of sr' spr' ps ss.
Proof.
  intros Hsr Hspr. apply capture_mono; auto; intros i y Hy; exists y; auto.
Qed.

(** The socket of a session changes state. *)
Lemma capture_mark sr spr ps ss k o c :
  capture_of sr spr ps ss -> capture_of sr spr ps (alter (mark k o) c ss).
Proof.
  apply capture_mono; auto using length_alter.
  - intros i y Hy. apply lookup_alter_inv in Hy as (x & Hx & [[_ ->]|[_ ->]]);
      exists x; split; auto. split; [reflexivity|]. simpl. intros ->. apply orb_true_r.
  - intros i y Hy. exists y. auto.
Qed.

(** [stopSession]. *)
Lemma capture_stop sr spr ps ss :
  capture_of sr spr ps ss ->
  capture_of None None
    (match spr with Some p => alter disconnect p ps | None => ps end)
    (match sr with Some c => alter close_connection c ss | None => ss end).
Proof.
  apply capture_mono; auto.
  - destruct spr; [apply length_alter | reflexivity].
  - destruct sr; [apply length_alter | reflexivity].
  - intros i y Hy. destruct sr as [c|]; [|exists y; auto].
    apply lookup_alter_inv in Hy as (x & Hx & [[_ ->]|[_ ->]]); exists x; split; auto.
    destruct x as [[] ? ?]; auto.
  - intros i y Hy. destruct spr as [p|]; [|exists y; auto].
    apply lookup_alter_inv in Hy as (x & Hx & [[_ ->]|[_ ->]]); exists x; split; auto.
    split; [reflexivity | discriminate].
Qed.

(** Lines 86-91: a new script processor and a new session. *)
Lemma capture_stream sr spr ps ss :
  capture_of sr spr ps ss ->
  capture_of sr (Some (length ps))
    (ps ++ [{| onaudioprocess := None; sp_connected := false |}])
    (ss ++ [{| connection := Connecting; opened := false; session_processor := length ps |}]).
Proof.
  intros [K1 K2 K3 K4 K5 K6]. constructor.
  - rewrite !length_app. simpl. lia.
  - intros c s Hs. apply lookup_app_Some in Hs as [Hs|[Hge Hs]]; [eauto|].
    destruct (c - length ss)%nat eqn:E; [|destruct n; discriminate Hs].
    injection Hs as <-. simpl. lia.
  - intros p x Hx Hc. apply lookup_app_Some in Hx as [Hx|[Hge Hx]]; [eauto|].
    destruct (p - length ps)%nat; [|destruct n; discriminate Hx].
    injection Hx as <-. discriminate Hc.
  - intros p x c Hx Hc. apply lookup_app_Some in Hx as [Hx|[Hge Hx]].
    + destruct (K4 p x c Hx Hc) as (-> & s & Hs & Ho). split; [reflexivity|].
      exists s. split; [apply lookup_app_l_Some, Hs | exact Ho].
    + destruct (p - length ps)%nat; [|destruct n; discriminate Hx].
      injection Hx as <-. discriminate Hc.
  - intros c Hc. destruct (K5 c Hc) as (s & Hs & Ho).
    exists s. split; [apply lookup_app_l_Some, Hs | exact Ho].
  - intros p [= <-]. rewrite length_app. simpl. lia.
Qed.

(** [onopen] of session [c], its socket marked open. *)
Lemma capture_opened sr spr ps ss c s :
  ss !! c = Some s ->
  capture_of sr spr ps ss ->
  capture_of sr spr
    (alter (fun _ => {| onaudioprocess := Some c; sp_connected := true |})
       (session_processor (mark Open true s)) ps)
    (alter (mark Open true) c ss).
Proof.
  intros Hs K. pose proof (capture_mark sr spr ps ss Open true c K) as [K1 K2 K3 K4 K5 K6].
  assert (Hc : session_processor (mark Open true s) = c) by (apply (own_processor _ _ _ _ K c s Hs)).
  rewrite Hc. constructor.
  - rewrite length_alter. exact K1.
  - exact K2.
  - intros p x Hx Hcon. apply lookup_alter_inv in Hx as (y & Hy & [[_ ->]|[<- ->]]);
      [eauto | reflexivity].
  - intros p x d Hx Hd. apply lookup_alter_inv in Hx as (y & Hy & [[_ ->]|[<- ->]]);
      [eauto|].
    injection Hd as <-. split; [reflexivity|].
    exists (mark Open true s). split; [|reflexivity].
    rewrite list_lookup_alter_eq, Hs. reflexivity.
  - exact K5.
  - intros p Hp. rewrite length_alter. auto.
Qed.

Lemma finalizeTurn_capture : preserves capture_ok finalizeTurn.
Proof.
  apply finalizeTurn_frame. unfold capture_ok. intros w w' -> -> H. exact H.
Qed.

Lemma onmessage_capture (msg : LiveServerMessage) :
  preserves capture_ok (onmessage decode decodeAudioData msg).
Proof.
  pose proof finalizeTurn_capture as Hf.
  unfold onmessage, interrupt, appendPartial, enqueue, setLiveUserText, setLiveModelText.
  frame; try exact Hf; assumption.
Qed.

Lemma startSession_capture : preserves capture_ok startSession.
Proof. unfold startSession, setStatus, setErrorMessage. frame; assumption. Qed.

Lemma poll_capture (avg_in avg_out : Q) : preserves capture_ok (poll avg_in avg_out).
Proof. unfold poll, setUserVolume, setModelVolume. frame; assumption. Qed.

Lemma step_capture (w : World) (ev : Event) :
  capture_ok w -> capture_ok (step decode decodeAudioData w ev).
Proof.
  intros K. unfold step, exec.
  destruct ev; unfold deliver; rewrite bind_get.
  - (* Click *)
    destruct (status (app w)); simpl; try exact K.
    + apply startSession_capture, K.
    + rewrite stopSession_exec. apply capture_stop, K.
    + apply startSession_capture, K.
  - (* ContextsResumed *)
    destruct (calls (env w) !! f) as [[]|]; try exact K.
    destruct ok; exact K.
  - (* UserMedia *)
    destruct (calls (env w) !! f) as [[]|]; try exact K.
    destruct granted; [|exact K].
    unfold capture_ok, startSession_stream, set_call, get, modify, mbind, mret,
      Eff_bind, Eff_ret. cbn.
    exact (capture_stream _ _ _ _ K).
  - (* SocketOpened *)
    destruct (sessions (env w) !! c) as [s|] eqn:Hs; [|exact K]. simpl.
    destruct (connection s); try exact K.
    unfold capture_ok, onopen, set_connection, setStatus, get, modify, mbind, mret,
      Eff_bind, Eff_ret. cbn.
    rewrite list_lookup_alter_eq, Hs. cbn.
    apply (capture_opened _ _ _ _ c s Hs K).
  - (* SessionResolved *)
    destruct (calls (env w) !! f) as [[| |c| |]|]; try exact K.
    destruct (sessions (env w) !! c) as [s|] eqn:Hs; [|exact K]. simpl.
    destruct (opened s) eqn:Ho; [|exact K].
    unfold capture_ok. cbn. destruct K as [K1 K2 K3 K4 K5 K6]. constructor; auto.
    intros d [= <-]. eauto.
  - (* SessionRejected *)
    destruct (calls (env w) !! f) as [[| |c| |]|]; try exact K.
    destruct (opened <$> sessions (env w) !! c) as [[]|]; try exact K.
    unfold capture_ok. cbn. apply capture_mark, K.
  - (* Message *)
    destruct (connection <$> sessions (env w) !! c) as [[]|]; try exact K.
    apply onmessage_capture, K.
  - (* SocketError *)
    destruct (connection <$> sessions (env w) !! c) as [[]|]; try exact K.
    all: unfold set_connection, modify, mbind, Eff_bind; rewrite onerror_exec.
    all: unfold capture_ok; cbn.
    all: apply (capture_stop _ _ _ (alter (mark Closing false) c (sessions (env w)))).
    all: apply capture_mark, K.
  - (* SocketClosed *)
    destruct (connection <$> sessions (env w) !! c) as [[]|]; try exact K.
    all: unfold set_connection, onclose, modify, mbind, Eff_bind; rewrite stopSession_exec.
    all: unfold capture_ok; cbn.
    all: apply (capture_stop _ _ _ (alter (mark Closed false) c (sessions (env w)))).
    all: apply capture_mark, K.
  - destruct (node_playback <$> nodes (env w) !! n) as [[]|]; exact K.
  - apply poll_capture, K.
  - exact K.
  - exact K.
  - exact K.
  - exact K.
Qed.

(** X11. In every state the mounted component reaches, the capture side is wired
    by [onopen] alone: a script processor that is connected has its capture
    callback installed, a capture callback sends to the session that the
    same call of [startSession] connected, and the socket of that session
    has opened; the session that [sessionRef] holds has opened, and
    [scriptProcessorRef] holds a processor that exists. *)
Theorem capture_wired_by_onopen (evs : list Event) (now : Z) :
  let w := run decode decodeAudioData evs (mounted now) in
  (forall p x, processors (env w) !! p = Some x -> sp_connected x = true ->
     onaudioprocess x = Some p
     /\ exists s, sessions (env w) !! p = Some s /\ opened s = true /\ session_processor s = p)
  /\ (forall p x c, processors (env w) !! p = Some x -> onaudioprocess x = Some c -> c = p)
  /\ (forall c, sessionRef (refs w) = Some c ->
        exists s, sessions (env w) !! c = Some s /\ opened s = true)
  /\ (forall p, scriptProcessorRef (refs w) = Some p -> is_Some (processors (env w) !! p)).
Proof.
  intros w.
  assert (K : capture_ok w).
  { subst w. apply run_invariant; [apply step_capture|].
    constructor; simpl; try discriminate; try reflexivity;
      intros i y; destruct i; discriminate. }
  destruct K as [K1 K2 K3 K4 K5 K6].
  split.
  { intros p x Hx Hc. pose proof (K3 p x Hx Hc) as Hcb.
    split; [exact Hcb|]. destruct (K4 p x p Hx Hcb) as (_ & s & Hs & Ho).
    exists s. split; [exact Hs|]. split; [exact Ho | apply (K2 p s Hs)]. }
  split; [intros p x c Hx Hc; apply (K4 p x c Hx Hc)|].
  split; [exact K5|].
  intros p Hp. apply lookup_lt_is_Some_2, K6, Hp.
Qed.

End Capture.

(** ** Messages *)

Section Messages.

Variable decode : jsstring -> Completion (list byte).
Variable decodeAudioData : list byte -> positive -> positive -> Completion AudioBuffer.

Lemma enqueue_skips (part : Part) (w : World) :
  has_audio part = false -> enqueue decode decodeAudioData part w = (Normal tt, w).
Proof.
  unfold has_audio, enqueue, get, mbind, mret, Eff_bind, Eff_ret. intros H.
  destruct (inlineData part) as [[data|]|]; try reflexivity.
  destruct (outputAudioContextRef (refs w)) as [ctx|]; try reflexivity.
  destruct (outputNodeRef (refs w)); try reflexivity.
  rewrite H. reflexivity.
Qed.

Lemma loop_skips (parts : list Part) (w : World) :
  Forall (fun part => has_audio part = false) parts ->
  for_of parts (enqueue decode decodeAudioData) w = (Normal tt, w).
Proof.
  induction 1 as [|part parts Hp _ IH]; [reflexivity|].
  cbn [for_of]. unfold mbind, Eff_bind. rewrite (enqueue_skips part w Hp). exact IH.
Qed.

(** X12. A message without [serverContent], and one whose content holds nothing
    but parts without audio data (no [inlineData], no [data], or the empty
    string), is handled without an error and changes nothing. *)
Theorem message_without_payload_ignored (w : World) (parts : option (option (list Part))) :
  Forall (fun part => has_audio part = false) (default [] (default None parts)) ->
  onmessage decode decodeAudioData {| serverContent := None |} w = (Normal tt, w)
  /\ onmessage decode decodeAudioData
       {| serverContent := Some {| modelTurn := parts; outputTranscription := None;
                                   inputTranscription := None; turnComplete := false;
                                   interrupted := false |} |} w
     = (Normal tt, w).
Proof.
  intros H. split; [reflexivity|].
  unfold onmessage, appendPartial, content_field, content_flag, when_, mbind, mret,
    Eff_bind, Eff_ret. cbn.
  destruct parts as [[ps|]|]; try reflexivity.
  simpl in H. rewrite (loop_skips ps w H). reflexivity.
Qed.

Lemma for_of_app {A} (pre post : list A) (body : A -> Eff unit) (w w1 : World) :
  for_of pre body w = (Normal tt, w1) ->
  for_of (pre ++ post) body w = for_of post body w1.
Proof.
  revert w. induction pre as [|x pre IH]; intros w H.
  - cbn in H. injection H as <-. reflexivity.
  - rewrite <- app_comm_cons. cbn [for_of] in *. unfold mbind, Eff_bind in *.
    destruct (body x w) as [[[]|e] w0]; [|discriminate]. apply IH, H.
Qed.

(** A part with audio whose data does not decode. *)
Lemma enqueue_throws (w : World) (part : Part) (data : jsstring) (ctx : AudioContext)
    (e : Exception) :
  inlineData part = Some (Some data) -> truthy data = true ->
  outputAudioContextRef (refs w) = Some ctx -> outputNodeRef (refs w) = true ->
  decode data = Throw e
  \/ (exists bytes, decode data = Normal bytes /\ decodeAudioData bytes 24000 1 = Throw e) ->
  enqueue decode decodeAudioData part w
  = (Throw e, with_refs (set_outputAudioContextRef (Some (resumed ctx))) w).
Proof.
  intros Hd Ht Hc Hn Hfail.
  unfold enqueue, lift, get, modify, mbind, mret, Eff_bind, Eff_ret.
  rewrite Hd, Hc, Hn, Ht. cbn.
  assert (Hr : match ctx_state ctx with
               | suspended => {| ctx_state := running; currentTime := currentTime ctx |}
               | running => ctx
               end = resumed ctx) by (destruct ctx as [[] t]; reflexivity).
  rewrite Hr.
  destruct Hfail as [Hb|(bytes & Hb & Ha)]; rewrite Hb; cbn; [|rewrite Ha]; reflexivity.
Qed.

Lemma loop_app (a : AppState) (parts : list Part) :
  preserves (fun w => app w = a) (for_of parts (enqueue decode decodeAudioData)).
Proof. unfold enqueue. frame; assumption. Qed.

(** X13. When the audio of a part does not decode, [onmessage] throws at that
    part: the parts before it have been scheduled, and nothing else of the
    message is handled. The parts after it are not played, its transcription
    is not appended, its turn completion logs nothing and its interruption
    stops nothing; the state of the component is as before the message. *)
Theorem decode_failure_drops_message (w w1 : World) (msg : LiveServerMessage)
    (pre post : list Part) (part : Part) (data : jsstring) (ctx : AudioContext)
    (e : Exception) :
  content_field modelTurn msg = Some (Some (pre ++ part :: post)) ->
  for_of pre (enqueue decode decodeAudioData) w = (Normal tt, w1) ->
  inlineData part = Some (Some data) -> truthy data = true ->
  outputAudioContextRef (refs w1) = Some ctx -> outputNodeRef (refs w1) = true ->
  decode data = Throw e
  \/ (exists bytes, decode data = Normal bytes /\ decodeAudioData bytes 24000 1 = Throw e) ->
  onmessage decode decodeAudioData msg w
  = (Throw e, with_refs (set_outputAudioContextRef (Some (resumed ctx))) w1)
  /\ app (exec (onmessage decode decodeAudioData msg) w) = app w.
Proof.
  intros Hparts Hpre Hd Ht Hc Hn Hfail.
  assert (He : onmessage decode decodeAudioData msg w
               = (Throw e, with_refs (set_outputAudioContextRef (Some (resumed ctx))) w1)).
  { unfold onmessage. rewrite Hparts. unfold mbind at 1. unfold Eff_bind.
    rewrite (for_of_app pre (part :: post) _ w w1 Hpre).
    cbn [for_of]. unfold mbind at 1. unfold Eff_bind.
    rewrite (enqueue_throws w1 part data ctx e Hd Ht Hc Hn Hfail). reflexivity. }
  split; [exact He|]. unfold exec. rewrite He. cbn.
  pose proof (loop_app (app w) pre w eq_refl) as Ha. rewrite Hpre in Ha. exact Ha.
Qed.

(** The steps of a call of [onmessage] that completes. *)
Lemma onmessage_steps (msg : LiveServerMessage) (w : World) :
  fst (onmessage decode decodeAudioData msg w) = Normal tt ->
  exists w1 w2 w3,
    match content_field modelTurn msg with
    | Some (Some parts) => for_of parts (enqueue decode decodeAudioData)
    | _ => mret tt
    end w = (Normal tt, w1)
    /\ appendPartial msg w1 = (Normal tt, w2)
    /\ when_ (content_flag turnComplete msg) finalizeTurn w2 = (Normal tt, w3)
    /\ onmessage decode decodeAudioData msg w
       = when_ (content_flag interrupted msg) interrupt w3.
Proof.
  unfold onmessage. intros H.
  set (loop := match content_field modelTurn msg with
               | Some (Some parts) => for_of parts (enqueue decode decodeAudioData)
               | _ => mret tt
               end) in *.
  unfold mbind at 1 in H. unfold mbind at 1. unfold Eff_bind at 1 in H. unfold Eff_bind at 1.
  destruct (loop w) as [[[]|e] w1]; [|discriminate H].
  assert (Hturn : forall x, exists w3,
            when_ (content_flag turnComplete msg) finalizeTurn x = (Normal tt, w3)).
  { intros x. destruct (content_flag turnComplete msg); simpl; [|eexists; reflexivity].
    destruct (finalizeTurn_exec x) as (w3 & -> & _). eexists; reflexivity. }
  exists w1. unfold mbind at 1. unfold Eff_bind at 1.
  pose proof (appendPartial_exec msg w1) as Hap.
  destruct (appendPartial msg w1) as [r w2]. injection Hap as -> _.
  exists w2. unfold mbind at 1. unfold Eff_bind at 1.
  destruct (Hturn w2) as [w3 Hw3]. exists w3. rewrite Hw3.
  split; [reflexivity|]. split; [reflexivity|]. split; reflexivity.
Qed.

(** A text differs from itself with something appended. *)
Lemma jsstring_eqb_app (l s : jsstring) : s <> [] -> jsstring_eqb l (l ++ s) = false.
Proof.
  intros Hs. induction l as [|c l IH]; simpl.
  - destruct s; [congruence | reflexivity].
  - rewrite N.eqb_refl. exact IH.
Qed.

(** X14. The text a message brings together with its turn completion is not
    logged. Appending the fragment queues an update of the component, so
    the updater of line 153 is not run at the call; when it runs,
    [newEntries] is still empty at line 163. The log, of at most 15 entries
    as it is in every state reached, is left as it is, and both accumulators
    are cleared: the text of the turn is lost. *)
Theorem final_fragment_not_logged (w : World) (msg : LiveServerMessage) (t : Transcription) :
  content_field outputTranscription msg = Some t ->
  transcription_text t <> Some [] ->
  content_flag turnComplete msg = true ->
  (length (transcriptions (app w)) <= 15)%nat ->
  fst (onmessage decode decodeAudioData msg w) = Normal tt ->
  let w' := exec (onmessage decode decodeAudioData msg) w in
  transcriptions (app w') = transcriptions (app w)
  /\ liveUserText (app w') = [] /\ liveModelText (app w') = [].
Proof.
  intros Ho Htext Hturn Hlen Hok w'. subst w'.
  destruct (onmessage_steps msg w Hok) as (w1 & w2 & w3 & H1 & H2 & H3 & H4).
  assert (Ha : app w1 = app w).
  { assert (Hp : preserves (fun x => app x = app w)
                   match content_field modelTurn msg with
                   | Some (Some parts) => for_of parts (enqueue decode decodeAudioData)
                   | _ => mret tt
                   end).
    { unfold enqueue. frame; assumption. }
    specialize (Hp w eq_refl). rewrite H1 in Hp. exact Hp. }
  rewrite appendPartial_exec, Ho in H2. injection H2 as <-.
  rewrite Hturn in H3. simpl in H3.
  match type of H3 with finalizeTurn ?x = _ =>
    destruct (finalizeTurn_exec x) as (w3' & He & Hlog & Hu & Hm & _) end.
  rewrite He in H3. injection H3 as <-.
  unfold exec. rewrite H4.
  assert (Hi : app (snd (when_ (content_flag interrupted msg) interrupt w3')) = app w3').
  { destruct (content_flag interrupted msg); simpl; [|reflexivity].
    rewrite interrupt_exec. reflexivity. }
  rewrite Hi. split; [|split; assumption].
  rewrite Hlog. unfold exec, queue, modify. cbn [snd env app with_env with_app updatePending
    set_updatePending transcriptions set_liveModelText].
  unfold concat_text at 1.
  rewrite jsstring_eqb_app, orb_true_r.
  - unfold logged_entries. rewrite app_nil_r, Ha. unfold slice_last.
    replace (length (transcriptions (app w)) - 15)%nat with 0%nat by lia. reflexivity.
  - destruct (transcription_text t) as [[|c x]|]; [congruence | discriminate | discriminate].
Qed.

(** X15. A message with the interruption flag leaves nothing playing: in every
    state the mounted component reaches, once [onmessage] has completed on
    such a message the active set is empty and no unit plays, the units
    scheduled from the audio of this very message included. *)
Theorem interrupted_message_ends_silent (evs : list Event) (now : Z) (msg : LiveServerMessage) :
  let w := run decode decodeAudioData evs (mounted now) in
  content_flag interrupted msg = true ->
  fst (onmessage decode decodeAudioData msg w) = Normal tt ->
  let w' := exec (onmessage decode decodeAudioData msg) w in
  sourcesRef (refs w') = ∅
  /\ Forall (fun n => playing n = false) (nodes (env w'))
  /\ (length (nodes (env w)) <= length (nodes (env w')))%nat.
Proof.
  intros w Hint Hok w'. subst w'.
  destruct (onmessage_steps msg w Hok) as (w1 & w2 & w3 & H1 & H2 & H3 & H4).
  pose proof (reach_audio_ok decode decodeAudioData evs now) as Hw. fold w in Hw.
  assert (J1 : audio_ok w1 /\ (length (nodes (env w)) <= length (nodes (env w1)))%nat).
  { assert (Hp : preserves
              (fun x => audio_ok x /\ (length (nodes (env w)) <= length (nodes (env x)))%nat)
              match content_field modelTurn msg with
              | Some (Some parts) => for_of parts (enqueue decode decodeAudioData)
              | _ => mret tt
              end).
    { destruct (content_field modelTurn msg) as [[parts|]|]; try apply preserves_ret.
      apply preserves_for_of. intros part x [Hx Hlen].
      split; [apply enqueue_audio_ok, Hx|].
      destruct (enqueue_cases decode decodeAudioData x part)
        as [(Hn & _)|(b & t & _ & Hn & _)]; unfold exec in Hn; rewrite Hn;
        [exact Hlen | rewrite length_app; lia]. }
    specialize (Hp w (conj Hw (Nat.le_refl _))). rewrite H1 in Hp. exact Hp. }
  destruct J1 as [J1 Hlen].
  assert (J3 : audio_ok w3 /\ nodes (env w3) = nodes (env w1)).
  { assert (Hp : preserves (fun x => audio_ok x /\ nodes (env x) = nodes (env w1))
              (appendPartial msg ;; when_ (content_flag turnComplete msg) finalizeTurn)).
    { assert (Hf : preserves (fun x => audio_ok x /\ nodes (env x) = nodes (env w1))
                finalizeTurn).
      { apply finalizeTurn_frame. intros x x' Hr He [Hx Hn].
        split; [|rewrite He; exact Hn].
        eapply audio_ok_same; [| | | exact Hx]; rewrite ?Hr, ?He; reflexivity. }
      unfold appendPartial, setLiveUserText, setLiveModelText.
      frame; try exact Hf; try assumption.
      all: match goal with
           | H : audio_ok _ /\ _ |- _ =>
               destruct H as [Hx Hn];
               split; [eapply audio_ok_same; [| | | exact Hx]; reflexivity | exact Hn]
           end. }
    specialize (Hp w1 (conj J1 eq_refl)).
    unfold mbind, Eff_bind in Hp. rewrite H2, H3 in Hp. exact Hp. }
  destruct J3 as [J3 Hn3].
  unfold exec. rewrite H4, Hint. simpl. rewrite interrupt_exec. cbn.
  split; [reflexivity|]. split; [apply halted_silent, J3|].
  unfold halt_all.
  assert (Hl : forall ids ns, length (foldl (fun ns i => alter halt i ns) ns ids) = length ns).
  { intros ids. induction ids as [|i ids IH]; intros ns; simpl; [reflexivity|].
    rewrite IH. apply length_alter. }
  rewrite Hl, Hn3. exact Hlen.
Qed.

(** X16. A transcription fragment that carries no [text] appends the word
    "undefined" to its accumulator, and the page shows it at the end of the
    live text of the model. *)
Theorem fragment_without_text (w : World) (msg : LiveServerMessage) (t : Transcription) :
  content_field outputTranscription msg = Some t ->
  transcription_text t = None ->
  let w' := exec (appendPartial msg) w in
  liveModelText (app w') = liveModelText (app w) ++ js "undefined"
  /\ liveUserText (app w') = liveUserText (app w)
  /\ last (transcript_pane (app w'))
     = Some (Synthesizing (liveModelText (app w) ++ js "undefined")).
Proof.
  intros Ho Ht w'. subst w'. unfold exec at 1 2 3. rewrite appendPartial_exec, Ho. cbn [snd].
  unfold concat_text. rewrite Ht. unfold exec, queue, modify.
  cbn [snd default app liveModelText liveUserText with_app with_env set_liveModelText].
  split; [reflexivity|]. split; [reflexivity|].
  unfold transcript_pane.
  cbn [transcriptions liveModelText liveUserText].
  set (m := liveModelText (app w) ++ js "undefined").
  assert (Hm : truthy m = true).
  { unfold m. destruct (liveModelText (app w)); reflexivity. }
  change (liveModelText (set_liveModelText m (app w))) with m.
  rewrite Hm, !app_assoc. apply last_snoc.
Qed.

End Messages.

(** ** The rendered page *)

Lemma Qgtb_true (x y : Q) : Qgtb x y = true <-> y < x.
Proof.
  unfold Qgtb. rewrite negb_true_iff. split.
  - intros H. apply Qnot_le_lt. intros Hle. apply Qle_bool_iff in Hle. congruence.
  - intros H. destruct (Qle_bool x y) eqn:E; [|reflexivity].
    apply Qle_bool_iff in E. exfalso. apply (Qlt_not_le _ _ H E).
Qed.

Lemma Qgtb_false (x y : Q) : Qgtb x y = false <-> x <= y.
Proof.
  unfold Qgtb. rewrite negb_false_iff. apply Qle_bool_iff.
Qed.

Lemma intensity_nonneg (p : Visualizer.VisualizerProps) : 0 <= Visualizer.intensity p.
Proof.
  unfold Visualizer.intensity. destruct (Visualizer.isActive p); [|apply Qle_refl].
  eapply Qle_trans; [|apply Q.le_max_l]. unfold Qle. simpl. lia.
Qed.

(** X17. With a volume of the range that [App] passes, from 0 to 255/128,
    the intensity is not negative, and at least 0.02 when active; no radius
    is below its size at rest, the nucleus lies strictly inside the plasma
    circles and the inner ring inside the outer one. *)
Theorem orb_geometry (p : Visualizer.VisualizerProps) :
  0 <= Visualizer.volume p <= 255 # 128 ->
  0 <= Visualizer.intensity p
  /\ (if Visualizer.isActive p then 2 # 100 <= Visualizer.intensity p
      else Visualizer.intensity p = 0)
  /\ 1 <= Visualizer.scale p
  /\ 45 <= Visualizer.plasma_radius p
  /\ 32 <= Visualizer.nucleus_radius p
  /\ Visualizer.nucleus_radius p < Visualizer.plasma_radius p
  /\ 85 <= Visualizer.ring_radius p 0
  /\ Visualizer.ring_radius p 0 < Visualizer.ring_radius p 1.
Proof.
  intros _. pose proof (intensity_nonneg p) as H.
  split; [exact H|]. split.
  { unfold Visualizer.intensity. destruct (Visualizer.isActive p); [apply Q.le_max_l | reflexivity]. }
  unfold Visualizer.scale, Visualizer.plasma_radius, Visualizer.nucleus_radius,
    Visualizer.ring_radius.
  change (inject_Z (Z.of_nat 0)) with 0. change (inject_Z (Z.of_nat 1)) with 1.
  destruct (Visualizer.isActive p); repeat split; lra.
Qed.

(** X18. A larger volume never renders a smaller orb: with the same activity the
    intensity, the scale and every radius grow with the volume, or stay. *)
Theorem orb_grows_with_volume (p q : Visualizer.VisualizerProps) (i : nat) :
  Visualizer.isActive p = Visualizer.isActive q ->
  Visualizer.volume p <= Visualizer.volume q ->
  Visualizer.intensity p <= Visualizer.intensity q
  /\ Visualizer.scale p <= Visualizer.scale q
  /\ Visualizer.plasma_radius p <= Visualizer.plasma_radius q
  /\ Visualizer.nucleus_radius p <= Visualizer.nucleus_radius q
  /\ Visualizer.ring_radius p i <= Visualizer.ring_radius q i.
Proof.
  intros Ha Hv.
  assert (Hi : Visualizer.intensity p <= Visualizer.intensity q).
  { unfold Visualizer.intensity. rewrite Ha. destruct (Visualizer.isActive q); [|apply Qle_refl].
    apply Q.max_le_compat_l. lra. }
  split; [exact Hi|].
  unfold Visualizer.scale, Visualizer.plasma_radius, Visualizer.nucleus_radius,
    Visualizer.ring_radius. rewrite Ha.
  destruct (Visualizer.isActive q); repeat split; lra.
Qed.

(** X19. An inactive [Visualizer] is at rest: whatever the volume, the colour
    passed in, the time of the render and the values of the sine and the
    cosine, no plasma circle is moved or scaled, every size is its size at
    rest and the glow is the idle colour. *)
Theorem orb_at_rest (p : Visualizer.VisualizerProps) (sin cos : Q -> Q) (now : Z) (i : nat) :
  Visualizer.isActive p = false ->
  fst (Visualizer.plasma_translate sin cos now i p) == 0
  /\ snd (Visualizer.plasma_translate sin cos now i p) == 0
  /\ Visualizer.plasma_scale sin now i p == 1
  /\ Visualizer.scale p == 1
  /\ Visualizer.plasma_radius p == 45
  /\ Visualizer.nucleus_radius p = 32
  /\ Visualizer.ring_radius p 0 == 85
  /\ Visualizer.glowColor p = "#1e293b"%string.
Proof.
  intros Ha.
  unfold Visualizer.plasma_translate, Visualizer.plasma_scale, Visualizer.scale,
    Visualizer.plasma_radius, Visualizer.nucleus_radius, Visualizer.ring_radius,
    Visualizer.glowColor, Visualizer.intensity.
  rewrite Ha. cbn [fst snd].
  change (inject_Z (Z.of_nat 0)) with 0.
  repeat split; try reflexivity; ring.
Qed.

Lemma props_volume (a : AppState) :
  Visualizer.volume (visualizer_props a) = (1 # 100)
  \/ (2 # 100 < Visualizer.volume (visualizer_props a)
      /\ (Visualizer.volume (visualizer_props a) = modelVolume a
          \/ Visualizer.volume (visualizer_props a) = userVolume a)).
Proof.
  unfold visualizer_props. cbn [Visualizer.volume].
  destruct (Qgtb (modelVolume a) (2 # 100)) eqn:Hm.
  - right. apply Qgtb_true in Hm. auto.
  - destruct (Qgtb (userVolume a) (2 # 100)) eqn:Hu.
    + right. apply Qgtb_true in Hu. auto.
    + left. reflexivity.
Qed.

(** X20. Through the props [App] passes, the floor of line 11 is never what is
    rendered: while the status is [ACTIVE] the intensity is 2.5 times the
    volume passed, which is 0.01 or above 0.02, so the intensity is 0.025 or
    above 0.05; in any other status it is 0. *)
Theorem orb_driven_by_app (a : AppState) :
  let p := visualizer_props a in
  (Visualizer.volume p = (1 # 100) \/ 2 # 100 < Visualizer.volume p)
  /\ (status a = ACTIVE ->
      Visualizer.intensity p == Visualizer.volume p * (25 # 10)
      /\ (Visualizer.intensity p == 25 # 1000 \/ 5 # 100 < Visualizer.intensity p))
  /\ (status a <> ACTIVE -> Visualizer.intensity p = 0).
Proof.
  intros p. subst p. pose proof (props_volume a) as Hv.
  split; [tauto|]. split.
  - intros Hs. unfold Visualizer.intensity.
    replace (Visualizer.isActive (visualizer_props a)) with true
      by (unfold visualizer_props; rewrite Hs; reflexivity).
    set (v := Visualizer.volume (visualizer_props a)) in *.
    assert (H : 2 # 100 <= v * (25 # 10)).
    { destruct Hv as [->|[Hv _]]; [unfold Qle; simpl; lia | lra]. }
    split.
    + apply Q.max_r, H.
    + rewrite (Q.max_r _ _ H). destruct Hv as [->|[Hv _]]; [left; reflexivity | right; lra].
  - intros Hs. unfold Visualizer.intensity.
    replace (Visualizer.isActive (visualizer_props a)) with false; [reflexivity|].
    unfold visualizer_props. cbn. destruct (status a); congruence.
Qed.

Section Page.

Variable decode : jsstring -> Completion (list byte).
Variable decodeAudioData : list byte -> positive -> positive -> Completion AudioBuffer.

(** X21. With the volumes the poll sets, the orb stays within bounds in every
    state the mounted component reaches: the intensity is at most
    2.5 * 255/128 and the plasma circles have a radius of at most
    45 + 65 * 2.5 * 255/128. *)
Theorem orb_size_bounded (evs : list Event) (now : Z) :
  Forall analysed evs ->
  let p := visualizer_props (app (run decode decodeAudioData evs (mounted now))) in
  Visualizer.intensity p <= 1275 # 256
  /\ Visualizer.plasma_radius p <= 45 + 65 * (1275 # 256)
  /\ Visualizer.scale p <= 1 + (1275 # 512).
Proof.
  intros Hall p.
  destruct (reach_volumes decode decodeAudioData evs now Hall) as [[_ Hu] [_ Hm]].
  assert (Hv : Visualizer.volume p <= 255 # 128).
  { destruct (props_volume (app (run decode decodeAudioData evs (mounted now))))
      as [H|[_ [H|H]]]; fold p in H; rewrite H; try assumption.
    unfold Qle. simpl. lia. }
  assert (Hi : Visualizer.intensity p <= 1275 # 256).
  { unfold Visualizer.intensity. destruct (Visualizer.isActive p).
    - apply Q.max_lub; [unfold Qle; simpl; lia | lra].
    - unfold Qle. simpl. lia. }
  unfold Visualizer.plasma_radius, Visualizer.scale. repeat split; lra.
Qed.

Lemma reach_log_bounded (evs : list Event) (now : Z) :
  (length (transcriptions (app (run decode decodeAudioData evs (mounted now)))) <= 15)%nat.
Proof.
  apply (run_invariant decode decodeAudioData
           (fun w => (length (transcriptions (app w)) <= 15)%nat)).
  - intros w ev. apply deliver_bounded.
  - simpl. lia.
Qed.

(** X22. The transcript pane is never empty: it shows the placeholder exactly
    when there is neither a logged entry nor live text, and then nothing
    else; in every state the mounted component reaches it holds at most 17
    bubbles, the 15 of the log and the two live ones. *)
Theorem transcript_pane_shape (a : AppState) (evs : list Event) (now : Z) :
  transcript_pane a <> []
  /\ (Placeholder ∈ transcript_pane a <-> transcript_pane a = [Placeholder])
  /\ (transcript_pane a = [Placeholder]
      <-> transcriptions a = [] /\ liveUserText a = [] /\ liveModelText a = [])
  /\ (length (transcript_pane (app (run decode decodeAudioData evs (mounted now)))) <= 17)%nat.
Proof.
  assert (Hshape : forall a,
            (transcriptions a = [] /\ liveUserText a = [] /\ liveModelText a = []
             /\ transcript_pane a = [Placeholder])
            \/ (transcript_pane a
                = map (fun t => EntryBubble (entry_label (role t)) (text t)) (transcriptions a)
                  ++ (if truthy (liveUserText a) then [Processing (liveUserText a)] else [])
                  ++ (if truthy (liveModelText a) then [Synthesizing (liveModelText a)] else [])
                /\ transcript_pane a <> []
                /\ ~ (transcriptions a = [] /\ liveUserText a = [] /\ liveModelText a = []))).
  { clear. intros a. unfold transcript_pane.
    destruct (transcriptions a) as [|t l]; simpl.
    - destruct (liveUserText a) as [|c u]; simpl.
      + destruct (liveModelText a) as [|c m]; simpl.
        * left. auto.
        * right. split; [reflexivity|]. split; [discriminate|]. intros (_ & _ & H). discriminate.
      + right. split; [reflexivity|]. split; [discriminate|]. intros (_ & H & _). discriminate.
    - right. split; [reflexivity|]. split; [discriminate|]. intros (H & _). discriminate. }
  split; [destruct (Hshape a) as [(_ & _ & _ & ->)|(_ & H & _)]; [discriminate | exact H]|].
  split.
  { destruct (Hshape a) as [(_ & _ & _ & ->)|(He & _ & _)].
    - split; [reflexivity | intros _; left].
    - rewrite He. split.
      + intros Hin. exfalso. rewrite !elem_of_app in Hin.
        destruct Hin as [Hin|[Hin|Hin]].
        * apply list_elem_of_fmap in Hin as (t & Ht & _). discriminate.
        * destruct (truthy (liveUserText a));
            [apply list_elem_of_singleton in Hin; discriminate | inversion Hin].
        * destruct (truthy (liveModelText a));
            [apply list_elem_of_singleton in Hin; discriminate | inversion Hin].
      + intros Heq. rewrite Heq. left. }
  split.
  { destruct (Hshape a) as [(H1 & H2 & H3 & ->)|(He & _ & Hn)].
    - tauto.
    - split; [|tauto]. intros Heq. exfalso. rewrite He in Heq.
      destruct (transcriptions a) as [|t l]; [|discriminate Heq].
      destruct (liveUserText a) as [|c u]; [|discriminate Heq].
      destruct (liveModelText a) as [|c m]; [|discriminate Heq]. auto. }
  pose proof (reach_log_bounded evs now) as Hlog.
  set (b := app (run decode decodeAudioData evs (mounted now))) in *.
  destruct (Hshape b) as [(_ & _ & _ & ->)|(-> & _ & _)]; [simpl; lia|].
  rewrite !length_app, length_map.
  repeat match goal with |- context [if ?c then _ else _] => destruct c end;
    cbn [length]; lia.
Qed.

End Page.

(** ** Instances of the invariants *)

Lemma log_timestamps_in_order_witness :
  clock_monotone 0 two_turns
  /\ transcriptions (app (play two_turns (mounted 0)))
     = [{| role := user; text := js "hi"; timestamp := 0 |};
        {| role := model; text := js "yo"; timestamp := 5 |}]
  /\ (timestamp {| role := user; text := js "hi"; timestamp := 0 |}
      <= timestamp {| role := model; text := js "yo"; timestamp := 5 |})%Z.
Proof.
  unfold play.
  assert (Hmono : clock_monotone 0 two_turns) by (simpl; lia).
  assert (Hlog : transcriptions (app (run bytes_of Codec.decodeAudioData two_turns (mounted 0)))
                 = [{| role := user; text := js "hi"; timestamp := 0 |};
                    {| role := model; text := js "yo"; timestamp := 5 |}])
    by (vm_compute; reflexivity).
  split; [exact Hmono|]. split; [exact Hlog|].
  destruct (log_timestamps_in_order bytes_of Codec.decodeAudioData two_turns 0 Hmono)
    as [Hord _].
  apply (Hord 0%nat 1%nat {| role := user; text := js "hi"; timestamp := 0 |}
           {| role := model; text := js "yo"; timestamp := 5 |});
    [rewrite Hlog; reflexivity | rewrite Hlog; reflexivity | lia].
Defined.

Lemma log_changed_only_by_turn_completion_witness :
  ~ completes_turn (SocketError 0)
  /\ transcriptions (app (step bytes_of Codec.decodeAudioData (play timed_turn (mounted 0))
                            (SocketError 0)))
     = transcriptions (app (play timed_turn (mounted 0))).
Proof.
  assert (H : ~ completes_turn (SocketError 0)) by (simpl; tauto).
  split; [exact H|].
  exact (log_changed_only_by_turn_completion bytes_of Codec.decodeAudioData
           (play timed_turn (mounted 0)) (SocketError 0) H).
Defined.

Lemma stop_never_throws_witness :
  0%nat ∈ sourcesRef (refs (play one_chunk (mounted 0)))
  /\ exists n n', nodes (env (play one_chunk (mounted 0))) !! 0%nat = Some n
                  /\ node_stop n = Normal n'.
Proof.
  unfold play.
  assert (Hel : elements (sourcesRef (refs (run bytes_of Codec.decodeAudioData one_chunk
                                              (mounted 0)))) = [0%nat])
    by (vm_compute; reflexivity).
  assert (Hin : 0%nat ∈ sourcesRef (refs (run bytes_of Codec.decodeAudioData one_chunk
                                            (mounted 0)))).
  { apply elem_of_elements. rewrite Hel. left. }
  split; [exact Hin|].
  exact (stop_never_throws bytes_of Codec.decodeAudioData one_chunk 0 0%nat Hin).
Defined.

Lemma watermark_after_playing_units_witness :
  nodes (env (play one_chunk (mounted 0))) !! 0%nat
    = Some {| node_buffer := abcd_buffer; node_playback := Started 0 |}
  /\ end_time {| node_buffer := abcd_buffer; node_playback := Started 0 |}
     <= nextStartTimeRef (refs (play one_chunk (mounted 0))).
Proof.
  unfold play.
  assert (Hnode : nodes (env (run bytes_of Codec.decodeAudioData one_chunk (mounted 0))) !! 0%nat
                  = Some {| node_buffer := abcd_buffer; node_playback := Started 0 |})
    by (vm_compute; reflexivity).
  split; [exact Hnode|].
  exact (proj1 (watermark_after_playing_units bytes_of Codec.decodeAudioData one_chunk 0 0%nat
                  _ Hnode eq_refl)).
Defined.

Lemma loud_frame_analysed : Forall analysed loud_frame.
Proof.
  repeat constructor. exists full_scale, full_scale. repeat split; reflexivity.
Defined.

Lemma volumes_in_range_witness :
  Forall analysed loud_frame
  /\ userVolume (app (play loud_frame (mounted 0))) <= 255 # 128
  /\ modelVolume (app (play loud_frame (mounted 0))) <= 255 # 128.
Proof.
  split; [exact loud_frame_analysed|].
  destruct (volumes_in_range bytes_of Codec.decodeAudioData loud_frame 0 loud_frame_analysed)
    as ([_ Hu] & [_ Hm] & _).
  split; [exact Hu | exact Hm].
Defined.

Lemma orb_size_bounded_witness :
  Forall analysed loud_frame
  /\ Visualizer.intensity (visualizer_props (app (play loud_frame (mounted 0)))) <= 1275 # 256.
Proof.
  split; [exact loud_frame_analysed|].
  exact (proj1 (orb_size_bounded bytes_of Codec.decodeAudioData loud_frame 0
                  loud_frame_analysed)).
Defined.

Lemma message_without_payload_ignored_witness :
  Forall (fun part => has_audio part = false) silent_parts
  /\ onmessage bytes_of Codec.decodeAudioData
       {| serverContent := Some {| modelTurn := Some (Some silent_parts);
                                   outputTranscription := None; inputTranscription := None;
                                   turnComplete := false; interrupted := false |} |}
       active_world
     = (Normal tt, active_world).
Proof.
  assert (H : Forall (fun part => has_audio part = false) silent_parts)
    by (repeat constructor).
  split; [exact H|].
  exact (proj2 (message_without_payload_ignored bytes_of Codec.decodeAudioData active_world
                  (Some (Some silent_parts)) H)).
Defined.

Lemma decode_failure_drops_message_witness :
  content_field modelTurn garbled = Some (Some ([] ++ audio_part "abc" :: []))
  /\ Codec.decodeAudioData ["a"; "b"; "c"]%byte 24000 1 = Throw CodecError
  /\ fst (onmessage bytes_of Codec.decodeAudioData garbled hi_world) = Throw CodecError
  /\ app (exec (onmessage bytes_of Codec.decodeAudioData garbled) hi_world) = app hi_world.
Proof.
  split; [reflexivity|]. split; [reflexivity|].
  destruct (decode_failure_drops_message bytes_of Codec.decodeAudioData hi_world hi_world
              garbled [] [] (audio_part "abc") (js "abc")
              {| ctx_state := running; currentTime := 0 |} CodecError
              eq_refl eq_refl eq_refl eq_refl eq_refl eq_refl
              (or_intror (ex_intro _ ["a"; "b"; "c"]%byte (conj eq_refl eq_refl))))
    as [He Ha].
  split; [rewrite He; reflexivity | exact Ha].
Defined.

Lemma final_fragment_not_logged_witness :
  content_field outputTranscription (finalFragment " there")
    = Some {| transcription_text := Some (js " there") |}
  /\ liveModelText (app hi_world) = js "hi"
  /\ transcriptions
       (app (exec (onmessage bytes_of Codec.decodeAudioData (finalFragment " there")) hi_world))
     = transcriptions (app hi_world)
  /\ liveModelText
       (app (exec (onmessage bytes_of Codec.decodeAudioData (finalFragment " there")) hi_world))
     = [].
Proof.
  split; [reflexivity|]. split; [reflexivity|].
  assert (Htext : Some (js " there") <> Some []) by discriminate.
  assert (Hlen : (length (transcriptions (app hi_world)) <= 15)%nat) by (vm_compute; lia).
  destruct (final_fragment_not_logged bytes_of Codec.decodeAudioData hi_world
              (finalFragment " there") _ eq_refl Htext eq_refl Hlen eq_refl)
    as (Hlog & _ & Hm).
  split; [exact Hlog | exact Hm].
Defined.

Lemma interrupted_message_ends_silent_witness :
  content_flag interrupted (interruptedChunk "abcdef") = true
  /\ sourcesRef
       (refs (exec (onmessage bytes_of Codec.decodeAudioData (interruptedChunk "abcdef"))
                (play one_chunk (mounted 0))))
     = ∅
  /\ Forall (fun n => playing n = false)
       (nodes (env (exec (onmessage bytes_of Codec.decodeAudioData (interruptedChunk "abcdef"))
                      (play one_chunk (mounted 0))))).
Proof.
  split; [reflexivity|]. unfold play.
  assert (Hok : fst (onmessage bytes_of Codec.decodeAudioData (interruptedChunk "abcdef")
                       (run bytes_of Codec.decodeAudioData one_chunk (mounted 0))) = Normal tt)
    by (vm_compute; reflexivity).
  destruct (interrupted_message_ends_silent bytes_of Codec.decodeAudioData one_chunk 0
              (interruptedChunk "abcdef") eq_refl Hok) as (Hs & Hp & _).
  split; [exact Hs | exact Hp].
Defined.

Lemma fragment_without_text_witness :
  content_field outputTranscription bareFragment = Some {| transcription_text := None |}
  /\ liveModelText (app (exec (appendPartial bareFragment) hi_world)) = js "hiundefined".
Proof.
  split; [reflexivity|].
  exact (proj1 (fragment_without_text hi_world bareFragment _ eq_refl eq_refl)).
Defined.

Lemma orb_geometry_witness :
  0 <= Visualizer.volume loud_orb <= 255 # 128
  /\ Visualizer.nucleus_radius loud_orb < Visualizer.plasma_radius loud_orb
  /\ Visualizer.ring_radius loud_orb 0 < Visualizer.ring_radius loud_orb 1.
Proof.
  assert (Hv : 0 <= Visualizer.volume loud_orb <= 255 # 128)
    by (split; unfold Qle; simpl; lia).
  split; [exact Hv|].
  destruct (orb_geometry loud_orb Hv) as (_ & _ & _ & _ & _ & Hn & _ & Hr).
  split; [exact Hn | exact Hr].
Defined.

Lemma orb_grows_with_volume_witness :
  Visualizer.volume quiet_orb <= Visualizer.volume loud_orb
  /\ Visualizer.plasma_radius quiet_orb <= Visualizer.plasma_radius loud_orb.
Proof.
  assert (Hv : Visualizer.volume quiet_orb <= Visualizer.volume loud_orb)
    by (unfold Qle; simpl; lia).
  split; [exact Hv|].
  destruct (orb_grows_with_volume quiet_orb loud_orb 0 eq_refl Hv) as (_ & _ & Hr & _).
  exact Hr.
Defined.

Lemma orb_at_rest_witness :
  Visualizer.isActive idle_orb = false
  /\ fst (Visualizer.plasma_translate (fun x => x) (fun x => 1 - x) 1000 3 idle_orb) == 0
  /\ Visualizer.glowColor idle_orb = "#1e293b"%string.
Proof.
  split; [reflexivity|].
  destruct (orb_at_rest idle_orb (fun x => x) (fun x => 1 - x) 1000 3 eq_refl)
    as (Hx & _ & _ & _ & _ & _ & _ & Hg).
  split; [exact Hx | exact Hg].
Defined.
